(** * votify: the session / resource-fetch core of [votify/spotify_api.py]

    A shallow embedding of class [SpotifyApi] and of the Python and library
    primitives its methods call, followed by the properties of the natural
    language specification that concern it.

    Conventions.
    - A Python [str] is a Rocq [string]; an [ascii] stands for the code point
      of the same number (0..255).  Where code points above 255 matter, in
      what [int] accepts, a [str] is the list of its code points (module
      [Unicode]).
    - A Python [int] is a [Z].
    - An exception is a value of [exn]; a computation that may raise returns
      a [result]. *)

From Stdlib Require Import ZArith Lia String Ascii List Bool.
From stdpp Require Import base gmap strings.
Import ListNotations.

Local Open Scope string_scope.
Local Open Scope Z_scope.

(** ** Exceptions *)

(** The exception classes that the modelled code can raise.  The first one is
    raised by [check_response] (module [votify.utils]); the others are Python
    built-ins or belong to [json] and [requests]. *)
Inductive exn : Type :=
| RemoteRequestFailed (status_code : Z) (body_snippet : string)
| AttributeError
| KeyError (key : string)
| IndexError
| TypeError
| ValueError
| JSONDecodeError
| MissingSchema
| ConnectionError.

Definition class_name (e : exn) : string :=
  match e with
  | RemoteRequestFailed _ _ => "RemoteRequestFailed"
  | AttributeError => "AttributeError"
  | KeyError _ => "KeyError"
  | IndexError => "IndexError"
  | TypeError => "TypeError"
  | ValueError => "ValueError"
  | JSONDecodeError => "JSONDecodeError"
  | MissingSchema => "MissingSchema"
  | ConnectionError => "ConnectionError"
  end.

Inductive result (A : Type) : Type :=
| Ok (a : A)
| Raise (e : exn).
Arguments Ok {A} a.
Arguments Raise {A} e.

Definition returns {A} (r : result A) : bool :=
  match r with Ok _ => true | Raise _ => false end.

(** ** Python string primitives *)

Module Py.

Definition len (s : string) : Z := Z.of_nat (String.length s).

(** [c * n] for a one-character string [c]. *)
Fixpoint repeat (c : ascii) (n : nat) : string :=
  match n with
  | O => EmptyString
  | S k => String c (repeat c k)
  end.

(** [s[n:]] for [n >= 0]. *)
Fixpoint drop (n : nat) (s : string) : string :=
  match n, s with
  | O, _ => s
  | S k, String _ r => drop k r
  | S _, EmptyString => EmptyString
  end.

(** [s[i]] for [0 <= i]; [None] stands for [IndexError] (negative indices,
    which count from the end in Python, are never used by the code). *)
Definition getitem (s : string) (i : Z) : option ascii :=
  if i <? 0 then None else String.get (Z.to_nat i) s.

(** [s.index(c)] for a one-character [c]: the position of its first
    occurrence; [None] stands for [ValueError]. *)
Fixpoint index (s : string) (c : ascii) : option Z :=
  match s with
  | EmptyString => None
  | String x r =>
      if Ascii.eqb x c then Some 0
      else match index r c with
           | Some i => Some (i + 1)
           | None => None
           end
  end.

(** [str.zfill(width)]: pad with ["0"] on the left up to [width]; a leading
    sign stays in front of the padding. *)
Definition zfill (s : string) (width : Z) : string :=
  if width <=? len s then s
  else
    let fill := Z.to_nat (width - len s) in
    match s with
    | String c rest =>
        if Ascii.eqb c "+" || Ascii.eqb c "-"
        then String c (repeat "0" fill ++ rest)
        else repeat "0" fill ++ s
    | EmptyString => repeat "0" fill
    end.

(** The loop that writes a positive integer in a radix, most significant
    digit first:
<<
    while n > 0:
        n, r = divmod(n, base)
        chs.insert(0, charset[r])
>>
    [None] is "out of fuel"; [Some (Raise IndexError)] is [charset[r]] out of
    range. *)
Fixpoint digits_loop (fuel : nat) (base : Z) (charset : string) (n : Z)
    (chs : string) : option (result string) :=
  if 0 <? n then
    match fuel with
    | O => None
    | S fuel' =>
        match getitem charset (n mod base) with
        | Some c => digits_loop fuel' base charset (n / base) (String c chs)
        | None => Some (Raise IndexError)
        end
    end
  else Some (Ok chs).

(** One iteration at least halves [n], so the number of binary digits of
    [n] bounds the number of iterations. *)
Definition bits (n : Z) : nat := Z.to_nat (Z.log2 n + 1).

Definition digits (base : Z) (charset : string) (n : Z) : result string :=
  match digits_loop (bits n) base charset n EmptyString with
  | Some r => r
  | None => Ok EmptyString
  end.

Definition HEXDIGITS : string := "0123456789abcdef".

(** [hex(n)] *)
Definition hex (n : Z) : string :=
  let body (m : Z) : string :=
    if m =? 0 then "0"
    else match digits 16 HEXDIGITS m with Ok s => s | Raise _ => EmptyString end in
  if n <? 0 then "-0x" ++ body (- n) else "0x" ++ body n.

(** *** [int(s, base)]

    CPython's [PyLong_FromString], for an explicit [base] between 2 and 36.
    Characters are first normalised as [int] does for [str] arguments: the
    white-space code points above 127 become a blank.  In a base that is no
    power of two, CPython 3.11 refuses a literal of more than
    [sys.get_int_max_str_digits()] digits, which is 4300 unless the program
    changes it (this one does not). *)

Definition binary_base (base : Z) : bool := Z.land base (base - 1) =? 0.

Definition MAX_STR_DIGITS : Z := 4300.

Definition ISSPACE (c : ascii) : bool :=
  let n := Z.of_nat (nat_of_ascii c) in
  ((9 <=? n) && (n <=? 13)) || (n =? 32).

Definition to_ascii_space (c : ascii) : ascii :=
  let n := Z.of_nat (nat_of_ascii c) in
  if (n =? 133) || (n =? 160) then " "%char else c.

Fixpoint normalise (s : string) : string :=
  match s with
  | EmptyString => EmptyString
  | String c r => String (to_ascii_space c) (normalise r)
  end.

(** [_PyLong_DigitValue]: 37 marks a character that is no digit. *)
Definition DigitValue (c : ascii) : Z :=
  let n := Z.of_nat (nat_of_ascii c) in
  if (48 <=? n) && (n <=? 57) then n - 48
  else if (97 <=? n) && (n <=? 122) then n - 87
  else if (65 <=? n) && (n <=? 90) then n - 55
  else 37.

Fixpoint skip_spaces (s : string) : string :=
  match s with
  | String c r => if ISSPACE c then skip_spaces r else s
  | EmptyString => EmptyString
  end.

Definition skip_sign (s : string) : Z * string :=
  match s with
  | String "+" r => (1, r)
  | String "-" r => (-1, r)
  | _ => (1, s)
  end.

Definition skip_prefix (base : Z) (s : string) : string :=
  match s with
  | String "0" (String x r) =>
      if ((base =? 16) && (Ascii.eqb x "x" || Ascii.eqb x "X"))
         || ((base =? 8) && (Ascii.eqb x "o" || Ascii.eqb x "O"))
         || ((base =? 2) && (Ascii.eqb x "b" || Ascii.eqb x "B"))
      then match r with String "_" r' => r' | _ => r end
      else s
  | _ => s
  end.

(** The run of digits, single underscores allowed between them.  Returns the
    value, the number of digits and the rest of the string; [None] when two
    underscores meet or one ends the run. *)
Fixpoint scan_digits (base : Z) (s : string) (prev : ascii) (v : Z)
    (ndigits : nat) : option (Z * nat * string) :=
  match s with
  | String c r =>
      if Ascii.eqb c "_" then
        if Ascii.eqb prev "_" then None
        else scan_digits base r c v ndigits
      else if DigitValue c <? base then
        scan_digits base r c (v * base + DigitValue c) (S ndigits)
      else if Ascii.eqb prev "_" then None
      else Some (v, ndigits, s)
  | EmptyString => if Ascii.eqb prev "_" then None else Some (v, ndigits, s)
  end.

Definition int (s : string) (base : Z) : result Z :=
  let s1 := skip_spaces (normalise s) in
  let '(sign, s2) := skip_sign s1 in
  let s3 := skip_prefix base s2 in
  match s3 with
  | String "_" _ => Raise ValueError
  | _ =>
      match scan_digits base s3 "000" 0 O with
      | None => Raise ValueError
      | Some (_, O, _) => Raise ValueError
      | Some (v, S n, rest) =>
          if negb (binary_base base) && (MAX_STR_DIGITS <? Z.of_nat (S n))
          then Raise ValueError
          else
            match skip_spaces rest with
            | EmptyString => Ok (sign * v)
            | _ => Raise ValueError
            end
      end
  end.

End Py.

(** ** The [base62] package (pybase62) *)

Module base62.

Definition BASE : Z := 62.

Definition CHARSET_INVERTED : string :=
  "0123456789abcdefghijklmnopqrstuvwxyzABCDEFGHIJKLMNOPQRSTUVWXYZ".

(** [base62.encode(n, charset)]: the digit loop, and ["0"] when it wrote
    nothing. *)
Definition encode (n : Z) (charset : string) : result string :=
  match Py.digits BASE charset n with
  | Ok EmptyString => Ok "0"
  | r => r
  end.

(** [base62.decode(encoded, charset)]:
<<
    l, i, v = len(encoded), 0, 0
    for x in encoded:
        v += _value(x, charset=charset) * (BASE ** (l - (i + 1)))
        i += 1
    return v
>>
    where [_value] turns the [ValueError] of [charset.index] into a
    [ValueError] of its own. *)
Fixpoint decode_loop (charset : string) (l : Z) (encoded : string) (i v : Z)
    : result Z :=
  match encoded with
  | EmptyString => Ok v
  | String x rest =>
      match Py.index charset x with
      | Some d => decode_loop charset l rest (i + 1) (v + d * BASE ^ (l - (i + 1)))
      | None => Raise ValueError
      end
  end.

Definition decode (encoded : string) (charset : string) : result Z :=
  decode_loop charset (Py.len encoded) encoded 0 0.

End base62.

(** ** ID transcoder *)

(** [SpotifyApi.media_id_to_gid] *)
Definition media_id_to_gid (media_id : string) : result string :=
  match base62.decode media_id base62.CHARSET_INVERTED with
  | Ok n => Ok (Py.zfill (Py.drop 2 (Py.hex n)) 32)
  | Raise e => Raise e
  end.

(** [SpotifyApi.gid_to_media_id] *)
Definition gid_to_media_id (gid : string) : result string :=
  match Py.int gid 16 with
  | Ok n =>
      match base62.encode n base62.CHARSET_INVERTED with
      | Ok s => Ok (Py.zfill s 22)
      | Raise e => Raise e
      end
  | Raise e => Raise e
  end.

(** ** Strings beyond Latin-1

    A [str] in general is the list of its code points.  For a [str] that is
    not ASCII, [int] first replaces every white-space code point by a blank
    and every decimal digit, of whatever script, by its ASCII digit
    ([_PyUnicode_TransformDecimalAndSpaceToASCII]); at the first code point
    from 127 on that is neither, it writes a question mark and drops the
    rest. *)

Module Unicode.

Definition str : Type := list N.

Definition of_string (s : string) : str :=
  map N_of_ascii (list_ascii_of_string s).

Fixpoint to_string (s : str) : string :=
  match s with
  | [] => EmptyString
  | ch :: r => String (ascii_of_N ch) (to_string r)
  end.

Definition is_ascii (s : str) : bool := forallb (fun ch => ch <? 128)%N s.

(** [Py_UNICODE_ISSPACE] from 127 on. *)
Definition ISSPACE (ch : N) : bool :=
  ((ch =? 133) || (ch =? 160) || (ch =? 5760)
   || ((8192 <=? ch) && (ch <=? 8202))
   || (ch =? 8232) || (ch =? 8233) || (ch =? 8239) || (ch =? 8287)
   || (ch =? 12288))%N.

Section Int.

(** [Py_UNICODE_TODECIMAL], a table of the Unicode database: the value of a
    code point that is a decimal digit. *)
Variable TODECIMAL : N -> option N.

Fixpoint transform (s : str) : string :=
  match s with
  | [] => EmptyString
  | ch :: r =>
      if (ch <? 127)%N then String (ascii_of_N ch) (transform r)
      else if ISSPACE ch then String " " (transform r)
      else match TODECIMAL ch with
           | Some d => String (ascii_of_N (48 + d)) (transform r)
           | None => "?"
           end
  end.

(** The text that [PyLong_FromString] is given. *)
Definition ascii_text (s : str) : string :=
  if is_ascii s then to_string s else transform s.

(** [int(s, base)] *)
Definition int (s : str) (base : Z) : result Z := Py.int (ascii_text s) base.

(** [SpotifyApi.gid_to_media_id] on any [str] *)
Definition gid_to_media_id (gid : str) : result string :=
  match int gid 16 with
  | Ok n =>
      match base62.encode n base62.CHARSET_INVERTED with
      | Ok s => Ok (Py.zfill s 22)
      | Raise e => Raise e
      end
  | Raise e => Raise e
  end.

End Int.

End Unicode.

(** ** Positional numerals

    The vocabulary in which the transcoder's properties are stated: the
    strings over a character set, the number such a string denotes in a
    radix, and numerals without leading zero digit. *)

Module Radix.

(** The digit a character stands for in [cs] (0 for a character outside
    [cs]). *)
Definition digit (cs : string) (c : ascii) : Z :=
  match Py.index cs c with Some d => d | None => 0 end.

Definition member (cs : string) (c : ascii) : bool :=
  match Py.index cs c with Some _ => true | None => false end.

Fixpoint all_in (cs s : string) : bool :=
  match s with
  | EmptyString => true
  | String c r => member cs c && all_in cs r
  end.

Fixpoint value (b : Z) (cs s : string) : Z :=
  match s with
  | EmptyString => 0
  | String c r => digit cs c * b ^ Py.len r + value b cs r
  end.

Fixpoint strip (z : ascii) (s : string) : string :=
  match s with
  | String c r => if Ascii.eqb c z then strip z r else s
  | EmptyString => EmptyString
  end.

(** The numeral without leading zeros that [base62.encode] and [hex(..)[2:]]
    both produce for the value of the numeral [s]. *)
Definition shortest (s : string) : string :=
  match strip "0" s with EmptyString => "0" | t => t end.

Definition canonical (cs s : string) : Prop :=
  match s with
  | String c _ => digit cs c <> 0
  | EmptyString => True
  end.

(** What [int(.., 16)] needs to know of a lowercase hexadecimal digit: it
    is no white space, sign, underscore or prefix letter, and its digit value
    is its position in [HEXDIGITS]. *)
Definition plain_hex_char (c : ascii) : bool :=
  Ascii.eqb (Py.to_ascii_space c) c
  && negb (Py.ISSPACE c)
  && negb (Ascii.eqb c "+") && negb (Ascii.eqb c "-")
  && negb (Ascii.eqb c "_")
  && negb (Ascii.eqb c "x") && negb (Ascii.eqb c "X")
  && (Py.DigitValue c =? digit Py.HEXDIGITS c)
  && (Py.DigitValue c <? 16).

(** A hexadecimal digit, in either case. *)
Definition hex_digit (c : ascii) : bool := Py.DigitValue c <? 16.

(** The characters [int(.., 16)] can read past: white space, a sign, an
    underscore, the prefix letter and the digits below 16. *)
Definition int16_token (c : ascii) : bool :=
  Py.ISSPACE c
  || Ascii.eqb c "+" || Ascii.eqb c "-" || Ascii.eqb c "_"
  || Ascii.eqb c "x" || Ascii.eqb c "X"
  || (Py.DigitValue c <? 16).

Definition int16_char (c : ascii) : bool := int16_token (Py.to_ascii_space c).

Fixpoint all_chars (P : ascii -> bool) (s : string) : bool :=
  match s with
  | EmptyString => true
  | String c r => P c && all_chars P r
  end.

Fixpoint chars (s : string) : list ascii :=
  match s with
  | EmptyString => []
  | String c r => c :: chars r
  end.

End Radix.

(** The domains of the two transcoder directions, as the specification
    gives them: a public identifier is a non-empty base-62 string whose value
    fits in 128 bits; an internal identifier is 32 lowercase hexadecimal
    characters. *)
Definition valid_public (p : string) : bool :=
  negb (String.eqb p EmptyString)
  && Radix.all_in base62.CHARSET_INVERTED p
  && (Radix.value 62 base62.CHARSET_INVERTED p <? 2 ^ 128).

Definition valid_internal (i : string) : bool :=
  (Py.len i =? 32) && Radix.all_in Py.HEXDIGITS i.

(** [gid_to_media_id(media_id_to_gid(p))] and
    [media_id_to_gid(gid_to_media_id(i))] *)
Definition public_round_trip (p : string) : result string :=
  match media_id_to_gid p with
  | Ok g => gid_to_media_id g
  | Raise e => Raise e
  end.

Definition internal_round_trip (i : string) : result string :=
  match gid_to_media_id i with
  | Ok p => media_id_to_gid p
  | Raise e => Raise e
  end.

(** ** JSON values

    What [json.loads] and [response.json()] return.  An object is a Python
    [dict]: an association list in insertion order.  Numbers are the integer
    ones (a literal with a fraction or an exponent, a Python [float], is not
    represented).  [JNull] is Python's [None], which [json.loads] returns
    for [null]. *)

#[local] Set Warnings "-register-all".

Inductive JSON : Type :=
| JNull
| JBool (b : bool)
| JNum (n : Z)
| JStr (s : string)
| JArr (items : list JSON)
| JObj (fields : list (string * JSON)).

Module Json.

Fixpoint assoc {A} (k : string) (kv : list (string * A)) : option A :=
  match kv with
  | [] => None
  | (k', v) :: rest => if String.eqb k' k then Some v else assoc k rest
  end.

(** [d[k] = v] on a dict that has the key [k]. *)
Fixpoint assoc_set {A} (k : string) (v : A) (kv : list (string * A))
    : list (string * A) :=
  match kv with
  | [] => []
  | (k', v') :: rest =>
      if String.eqb k' k then (k', v) :: rest else (k', v') :: assoc_set k v rest
  end.

(** [v[k]] for a string [k] *)
Definition getitem (v : JSON) (k : string) : result JSON :=
  match v with
  | JObj kv => match assoc k kv with Some x => Ok x | None => Raise (KeyError k) end
  | _ => Raise TypeError
  end.

(** [is not None] *)
Definition is_not_None (v : JSON) : bool :=
  match v with JNull => false | _ => true end.

Definition one_char (c : ascii) : JSON := JStr (String c EmptyString).

(** The elements that [for item in v] visits. *)
Definition iterate (v : JSON) : result (list JSON) :=
  match v with
  | JArr l => Ok l
  | JObj kv => Ok (map (fun p => JStr (fst p)) kv)
  | JStr s => Ok (map one_char (Radix.chars s))
  | _ => Raise TypeError
  end.

(** [int(v)] *)
Definition to_int (v : JSON) : result Z :=
  match v with
  | JNum n => Ok n
  | JBool b => Ok (if b then 1 else 0)
  | JStr s => Py.int s 10
  | _ => Raise TypeError
  end.

End Json.

(** ** The HTTP session and the remote service *)

Record Cookie : Type := mkCookie {
  cookie_domain : string;
  cookie_name : string;
  cookie_value : string
}.

(** [requests.Session]: the headers are a case-insensitive dict, which
    stores under the lowercased name the name as written and the value. *)
Record Session : Type := mkSession {
  headers : gmap string (string * string);
  cookies : list Cookie
}.

Inductive Method : Type := GET | POST.

(** A request as the session prepares it.  [request_jar] is the cookie jar
    of the session at that moment: of its cookies, [requests] puts on the
    wire those that match the host and the path of the URL and have not
    expired. *)
Record Request : Type := mkRequest {
  method : Method;
  url : string;
  request_headers : gmap string (string * string);
  request_jar : list Cookie;
  data : option string;
  sent_at : Z
}.

(** [set_cookies]: the cookies that the response sets and that the cookie
    policy of [requests] accepts for the URL. *)
Record Response : Type := mkResponse {
  status_code : Z;
  body : string;
  set_cookies : list Cookie
}.

(** What happens to a request: an answer, or a failure of the transport
    (raised by [requests]), after some milliseconds. *)
Inductive Reply : Type :=
| Replied (r : Response) (elapsed : Z)
| Failed (e : exn) (elapsed : Z).

(** The world outside the process: the clock, in milliseconds since the
    epoch ([time.time() * 1000], rounded down: compared with an integer, the
    number and its floor are on the same side), the requests sent so far,
    oldest first, and the remote service, which may answer a request
    according to all earlier ones. *)
Record World : Type := mkWorld {
  clock : Z;
  sent : list Request;
  server : list Request -> Request -> Reply
}.

Record SpotifyApi : Type := mkApi {
  cookies_path : option string;
  session : Session;
  session_info : JSON;
  config_info : JSON
}.

(** A value passed to [get_album]. *)
Inductive PyVal : Type :=
| VStr (s : string)
| VBool (b : bool).

(** The positional and the keyword arguments of a call, without [self]. *)
Record Call : Type := mkCall {
  args : list PyVal;
  kwargs : list (string * PyVal)
}.

(** The state of the process: the one [SpotifyApi] object, the world, and
    the cache that [functools.lru_cache] keeps for [get_album], least
    recently used entry first. *)
Record State : Type := mkState {
  self : SpotifyApi;
  world : World;
  get_album_cache : list (Call * JSON)
}.

(** *** Computations that change the state and may raise *)

Definition M (A : Type) : Type := State -> result A * State.

Definition ret {A} (a : A) : M A := fun st => (Ok a, st).

Definition raise {A} (e : exn) : M A := fun st => (Raise e, st).

Definition bind {A B} (c : M A) (k : A -> M B) : M B :=
  fun st =>
    match c st with
    | (Ok a, st') => k a st'
    | (Raise e, st') => (Raise e, st')
    end.

Definition lift {A} (r : result A) : M A := fun st => (r, st).

Notation "'let*' x := c1 'in' c2" := (bind c1 (fun x => c2))
  (at level 10, x name, c1 at level 100, c2 at level 200).

Definition get_state : M State := fun st => (Ok st, st).

Definition set_self (f : SpotifyApi -> SpotifyApi) : M unit :=
  fun st => (Ok tt, mkState (f (self st)) (world st) (get_album_cache st)).

Definition set_world (f : World -> World) : M unit :=
  fun st => (Ok tt, mkState (self st) (f (world st)) (get_album_cache st)).

Definition set_session_info (v : JSON) (a : SpotifyApi) : SpotifyApi :=
  mkApi (cookies_path a) (session a) v (config_info a).

Definition set_config_info (v : JSON) (a : SpotifyApi) : SpotifyApi :=
  mkApi (cookies_path a) (session a) (session_info a) v.

Definition set_session (s : Session) (a : SpotifyApi) : SpotifyApi :=
  mkApi (cookies_path a) s (session_info a) (config_info a).

(** [str.lower()] on the letters A to Z. *)
Definition lower_char (c : ascii) : ascii :=
  let n := nat_of_ascii c in
  if (Nat.leb 65 n && Nat.leb n 90)%bool then ascii_of_nat (n + 32) else c.

Fixpoint lower (s : string) : string :=
  match s with
  | EmptyString => EmptyString
  | String c r => String (lower_char c) (lower r)
  end.

(** [session.headers.update({name: value})] *)
Definition headers_update (name value : string) (s : Session) : Session :=
  mkSession (<[lower name := (name, value)]> (headers s)) (cookies s).

(** [jar.set_cookie]: a cookie replaces the one of the same domain and name. *)
Definition same_cookie (c d : Cookie) : bool :=
  String.eqb (cookie_domain c) (cookie_domain d)
  && String.eqb (cookie_name c) (cookie_name d).

Definition set_cookie (jar : list Cookie) (c : Cookie) : list Cookie :=
  List.filter (fun d => negb (same_cookie c d)) jar ++ [c].

Definition extract_cookies (jar : list Cookie) (new : list Cookie) : list Cookie :=
  fold_left set_cookie new jar.

(** [time.time() * 1000] *)
Definition time_ms : M Z := fun st => (Ok (clock (world st)), st).

(** [time.sleep(seconds)], in milliseconds *)
Definition sleep (ms : Z) : M unit :=
  set_world (fun w => mkWorld (clock w + ms) (sent w) (server w)).

(** [session.request(method, url, data)]: the request is prepared with the
    headers and the cookie jar of the session; the cookies that the response
    sets, and that [requests] accepts, are kept in the session. *)
Definition request_of (st : State) (m : Method) (u : string) (d : option string)
    : Request :=
  mkRequest m u (headers (session (self st))) (cookies (session (self st))) d
            (clock (world st)).

Definition answer (st : State) (req : Request) : Reply :=
  server (world st) (sent (world st)) req.

Definition record_request (req : Request) (dt : Z) (w : World) : World :=
  mkWorld (clock w + dt) (sent w ++ [req]) (server w).

Definition after_reply (st : State) (req : Request) (r : Response) (dt : Z)
    : State :=
  mkState
    (set_session
       (mkSession (headers (session (self st)))
                  (extract_cookies (cookies (session (self st))) (set_cookies r)))
       (self st))
    (record_request req dt (world st))
    (get_album_cache st).

Definition after_failure (st : State) (req : Request) (dt : Z) : State :=
  mkState (self st) (record_request req dt (world st)) (get_album_cache st).

Definition session_request (m : Method) (u : string) (d : option string)
    : M Response :=
  fun st =>
    let req := request_of st m u d in
    match answer st req with
    | Replied r dt => (Ok r, after_reply st req r dt)
    | Failed e dt => (Raise e, after_failure st req dt)
    end.

Definition session_get (u : string) : M Response := session_request GET u None.

Definition session_post (u : string) (d : string) : M Response :=
  session_request POST u (Some d).

(** Modelled from the spec: [check_response], of [votify/utils.py], which is
    not among the sources.  The specification: it "raises
    [RemoteRequestFailed{status_code, body_snippet}] whenever the response's
    status is not in the success range.  Success responses pass through
    untouched". *)
Definition success (r : Response) : bool :=
  (200 <=? status_code r) && (status_code r <? 300).

Definition check_response (r : Response) : result unit :=
  if success r then Ok tt
  else Raise (RemoteRequestFailed (status_code r) (body r)).

(** *** [re.search] with the two patterns of the landing page

    [open(.+?)close]: the first place where [open] is followed by at least
    one character, none of them a line feed, and then by [close]; group 1 is
    the shortest such run of characters. *)
Module re.

Fixpoint starts_with (p s : string) : option string :=
  match p, s with
  | EmptyString, _ => Some s
  | String a p', String b s' => if Ascii.eqb a b then starts_with p' s' else None
  | String _ _, EmptyString => None
  end.

Definition LF : ascii := ascii_of_nat 10.

(** [(.+?)close] at the start of [s] *)
Fixpoint lazy_group (close : string) (s : string) : option string :=
  match s with
  | EmptyString => None
  | String c r =>
      if Ascii.eqb c LF then None
      else match starts_with close r with
           | Some _ => Some (String c EmptyString)
           | None =>
               match lazy_group close r with
               | Some g => Some (String c g)
               | None => None
               end
           end
  end.

Definition match_at (open close s : string) : option string :=
  match starts_with open s with
  | Some rest => lazy_group close rest
  | None => None
  end.

(** [re.search(..).group(1)], [None] when [re.search] returns [None] *)
Fixpoint search (open close s : string) : option string :=
  match match_at open close s with
  | Some g => Some g
  | None =>
      match s with
      | EmptyString => None
      | String _ r => search open close r
      end
  end.

End re.

Definition QUOTE : string := String (ascii_of_nat 34) EmptyString.

Definition script_tag (id : string) : string :=
  "<script id=" ++ QUOTE ++ id ++ QUOTE ++ " data-testid=" ++ QUOTE ++ id ++ QUOTE
  ++ " type=" ++ QUOTE ++ "application/json" ++ QUOTE ++ ">".

Definition SCRIPT_END : string := "</script>".

Definition SPOTIFY_HOME_PAGE_URL : string := "https://open.spotify.com/".
Definition CLIENT_VERSION : string := "1.2.46.25.g7f189073".
Definition EXTEND_TRACK_COLLECTION_WAIT_TIME : Z := 500.

Definition LYRICS_API_URL (track_id : string) : string :=
  "https://spclient.wg.spotify.com/color-lyrics/v2/track/" ++ track_id.

Definition METADATA_API_URL (type track_id : string) : string :=
  "https://api.spotify.com/v1/" ++ type ++ "/" ++ track_id.

Definition GID_METADATA_API_URL (media_type gid : string) : string :=
  "https://spclient.wg.spotify.com/metadata/4/" ++ media_type ++ "/" ++ gid
  ++ "?market=from_token".

Definition PLAYPLAY_LICENSE_API_URL (file_id : string) : string :=
  "https://gew4-spclient.spotify.com/playplay/v1/key/" ++ file_id.

Definition TRACK_CREDITS_API_URL (track_id : string) : string :=
  "https://spclient.wg.spotify.com/track-credits-view/v0/experimental/"
  ++ track_id ++ "/credits".

Definition STREAM_URLS_API_URL (file_id : string) : string :=
  "https://gue1-spclient.spotify.com/storage-resolve/v2/files/audio/interactive/11/"
  ++ file_id ++ "?version=10000000&product=9&platform=39&alt=json".

(** ** Class [SpotifyApi] *)

Definition bind_result {A B} (r : result A) (k : A -> result B) : result B :=
  match r with Ok a => k a | Raise e => Raise e end.

(** A generator object of [extend_track_collection]: created and not yet
    started, suspended at its [yield], or finished. *)
Inductive Generator : Type :=
| GenStart (track_collection : JSON) (media_type : string)
| GenSuspended (extended_collection : JSON)
| GenDone.

(** [str(v)] and the truth value of an argument of [get_album]. *)
Definition str_of_arg (v : PyVal) : string :=
  match v with
  | VStr s => s
  | VBool true => "True"
  | VBool false => "False"
  end.

Definition truthy (v : PyVal) : bool :=
  match v with
  | VStr s => negb (String.eqb s EmptyString)
  | VBool b => b
  end.

(** The expiry of the stored token, as [_refresh_session_auth] reads it. *)
Definition token_expiry (a : SpotifyApi) : result Z :=
  bind_result (Json.getitem (session_info a) "accessTokenExpirationTimestampMs")
              Json.to_int.

(** The request for the landing page, and the [Authorization] header. *)
Definition home_request (st : State) : Request :=
  request_of st GET SPOTIFY_HOME_PAGE_URL None.

Definition authorization (st : State) : option (string * string) :=
  headers (session (self st)) !! "authorization".

Definition with_session_info (v : JSON) (st : State) : State :=
  mkState (set_session_info v (self st)) (world st) (get_album_cache st).

Definition with_config_info (v : JSON) (st : State) : State :=
  mkState (set_config_info v (self st)) (world st) (get_album_cache st).

Definition with_authorization (value : string) (st : State) : State :=
  mkState (set_session (headers_update "Authorization" value (session (self st)))
                       (self st))
          (world st) (get_album_cache st).

(** What a state keeps through a request and through a bootstrap: the
    cookie path, every header but [Authorization], the cache of
    [get_album] and the remote service. *)
Definition kept (st st' : State) : Prop :=
  cookies_path (self st') = cookies_path (self st)
  /\ (forall name, name <> "authorization" ->
        headers (session (self st')) !! name = headers (session (self st)) !! name)
  /\ get_album_cache st' = get_album_cache st
  /\ server (world st') = server (world st).

Section Api.

(** [json.loads]; [None] stands for [JSONDecodeError]. *)
Variable json_loads : string -> option JSON.

(** [str(v)] for a JSON value [v] that is not a string. *)
Variable py_repr : JSON -> string.

Definition loads (s : string) : result JSON :=
  match json_loads s with
  | Some v => Ok v
  | None => Raise JSONDecodeError
  end.

(** [response.json()] *)
Definition response_json (r : Response) : result JSON := loads (body r).

(** A value in an f-string. *)
Definition format_value (v : JSON) : string :=
  match v with
  | JStr s => s
  | _ => py_repr v
  end.

(** [match.group(1)] on the result of [re.search], which is [None] when the
    pattern is not found. *)
Definition group1 (m : option string) : result string :=
  match m with
  | Some g => Ok g
  | None => Raise AttributeError
  end.

Definition get_home_page : M string :=
  let* response := session_get SPOTIFY_HOME_PAGE_URL in
  let* _ := lift (check_response response) in
  ret (body response).

Definition _set_session_auth : M unit :=
  let* home_page := get_home_page in
  let* blob := lift (group1 (re.search (script_tag "session") SCRIPT_END home_page)) in
  let* info := lift (loads blob) in
  let* _ := set_self (set_session_info info) in
  let* blob := lift (group1 (re.search (script_tag "config") SCRIPT_END home_page)) in
  let* info := lift (loads blob) in
  let* _ := set_self (set_config_info info) in
  let* st := get_state in
  let* token := lift (Json.getitem (session_info (self st)) "accessToken") in
  set_self (fun a =>
    set_session
      (headers_update "Authorization" ("Bearer " ++ format_value token) (session a)) a).

(** The steps of [_set_session_auth] after the landing page has arrived,
    written out case by case. *)
Definition install (home_page : string) (st : State) : result unit * State :=
  match re.search (script_tag "session") SCRIPT_END home_page with
  | None => (Raise AttributeError, st)
  | Some blob =>
      match json_loads blob with
      | None => (Raise JSONDecodeError, st)
      | Some info =>
          let st := with_session_info info st in
          match re.search (script_tag "config") SCRIPT_END home_page with
          | None => (Raise AttributeError, st)
          | Some blob =>
              match json_loads blob with
              | None => (Raise JSONDecodeError, st)
              | Some config =>
                  let st := with_config_info config st in
                  match Json.getitem info "accessToken" with
                  | Raise e => (Raise e, st)
                  | Ok token =>
                      (Ok tt,
                       with_authorization ("Bearer " ++ format_value token) st)
                  end
              end
          end
      end
  end.

Definition _refresh_session_auth : M unit :=
  let* st := get_state in
  let* v := lift (Json.getitem (session_info (self st))
                               "accessTokenExpirationTimestampMs") in
  let* timestamp_session_expire := lift (Json.to_int v) in
  let* timestamp_now := time_ms in
  if timestamp_now <? timestamp_session_expire then ret tt
  else _set_session_auth.

(** The three lines that every resource fetcher ends with. *)
Definition fetch_json (u : string) : M JSON :=
  let* response := session_get u in
  let* _ := lift (check_response response) in
  lift (response_json response).

Definition get_gid_metadata (gid media_type : string) : M JSON :=
  let* _ := _refresh_session_auth in
  let* response := session_get (GID_METADATA_API_URL media_type gid) in
  let* _ := lift (check_response response) in
  lift (response_json response).

(** The [None] that [get_lyrics] returns is [JNull], the same value that
    [response.json()] gives for the body [null]. *)
Definition get_lyrics (track_id : string) : M JSON :=
  let* _ := _refresh_session_auth in
  let* response := session_get (LYRICS_API_URL track_id) in
  if status_code response =? 404 then ret JNull
  else
    let* _ := lift (check_response response) in
    lift (response_json response).

Definition get_track (track_id : string) : M JSON :=
  let* _ := _refresh_session_auth in
  let* response := session_get (METADATA_API_URL "tracks" track_id) in
  let* _ := lift (check_response response) in
  lift (response_json response).

(** [session.get(next_url)] for a value taken from a page: [requests]
    refuses what is not a URL before it sends anything. *)
Definition session_get_value (u : JSON) : M Response :=
  match u with
  | JStr s => session_get s
  | _ => raise MissingSchema
  end.

(** The loop of [extend_track_collection], from its test to the [yield]:
<<
    while next_url is not None:
        response = self.session.get(next_url)
        check_response(response)
        extended_collection = response.json()
        yield extended_collection
>>
    The result [Ok None] is [StopIteration]. *)
Definition gen_loop (next_url : JSON)
    : State -> result (option JSON) * Generator * State :=
  fun st =>
    if Json.is_not_None next_url then
      match (let* response := session_get_value next_url in
             let* _ := lift (check_response response) in
             lift (response_json response)) st with
      | (Ok extended_collection, st') =>
          (Ok (Some extended_collection), GenSuspended extended_collection, st')
      | (Raise e, st') => (Raise e, GenDone, st')
      end
    else (Ok None, GenDone, st).

(** [next(g)] *)
Definition gen_next (g : Generator)
    : State -> result (option JSON) * Generator * State :=
  fun st =>
    match g with
    | GenStart track_collection media_type =>
        match bind_result (Json.getitem track_collection media_type)
                          (fun c => Json.getitem c "next") with
        | Ok next_url => gen_loop next_url st
        | Raise e => (Raise e, GenDone, st)
        end
    | GenSuspended extended_collection =>
        match Json.getitem extended_collection "next" with
        | Ok next_url =>
            gen_loop next_url (snd (sleep EXTEND_TRACK_COLLECTION_WAIT_TIME st))
        | Raise e => (Raise e, GenDone, st)
        end
    | GenDone => (Ok None, GenDone, st)
    end.

(** A finite chain of pages in the world of [st]: [next_url] is absent, or
    the service answers it with a page whose own [next] starts a chain in
    the state that the answer and the pause leave.  [st'] is the state at
    the end of the chain. *)
Inductive page_chain : State -> JSON -> list JSON -> State -> Prop :=
| chain_end st : page_chain st JNull [] st
| chain_page st u r dt page next_url pages st' :
    answer st (request_of st GET u None) = Replied r dt ->
    success r = true ->
    json_loads (body r) = Some page ->
    Json.getitem page "next" = Ok next_url ->
    page_chain
      (snd (sleep EXTEND_TRACK_COLLECTION_WAIT_TIME
                  (after_reply st (request_of st GET u None) r dt)))
      next_url pages st' ->
    page_chain st (JStr u) (page :: pages) st'.

Definition extend_track_collection (track_collection : JSON) (media_type : string)
    : Generator :=
  GenStart track_collection media_type.

(** Pulling every page out of a generator: the pages it yielded, and how
    the iteration ended; [None] is "out of fuel". *)
Fixpoint drain (fuel : nat) (g : Generator) (st : State)
    : option (list JSON * result unit * Generator * State) :=
  match fuel with
  | O => None
  | S fuel' =>
      match gen_next g st with
      | (Ok None, g', st') => Some ([], Ok tt, g', st')
      | (Ok (Some page), g', st') =>
          match drain fuel' g' st' with
          | Some (pages, r, g'', st'') => Some (page :: pages, r, g'', st'')
          | None => None
          end
      | (Raise e, g', st') => Some ([], Raise e, g', st')
      end
  end.

(** The list comprehension
<<
    [item
     for extended_collection in self.extend_track_collection(obj, media_type)
     for item in extended_collection["items"]]
>> *)
Fixpoint comprehension (fuel : nat) (g : Generator) (acc : list JSON) (st : State)
    : option (result (list JSON) * State) :=
  match fuel with
  | O => None
  | S fuel' =>
      match gen_next g st with
      | (Ok None, _, st') => Some (Ok acc, st')
      | (Ok (Some extended_collection), g', st') =>
          match bind_result (Json.getitem extended_collection "items")
                            Json.iterate with
          | Ok items => comprehension fuel' g' (acc ++ items) st'
          | Raise e => Some (Raise e, st')
          end
      | (Raise e, _, st') => Some (Raise e, st')
      end
  end.

(** [obj[media_type]["items"]] after [.extend(extra)] *)
Definition with_items (obj : JSON) (media_type : string) (new_items : list JSON)
    : JSON :=
  match obj with
  | JObj kv =>
      match Json.assoc media_type kv with
      | Some (JObj ckv) =>
          JObj (Json.assoc_set media_type
                  (JObj (Json.assoc_set "items" (JArr new_items) ckv)) kv)
      | _ => obj
      end
  | _ => obj
  end.

(** [obj[media_type]["items"].extend([..])]: the list method is looked up
    before the comprehension runs. *)
Definition extend_items (fuel : nat) (obj : JSON) (media_type : string)
    : State -> option (result JSON * State) :=
  fun st =>
    match bind_result (Json.getitem obj media_type)
                      (fun c => Json.getitem c "items") with
    | Ok (JArr items) =>
        match comprehension fuel (extend_track_collection obj media_type) [] st with
        | Some (Ok extra, st') =>
            Some (Ok (with_items obj media_type (items ++ extra)), st')
        | Some (Raise e, st') => Some (Raise e, st')
        | None => None
        end
    | Ok _ => Some (Raise AttributeError, st)
    | Raise e => Some (Raise e, st)
    end.

(** The body that [get_album], [get_playlist] and [get_show] share but for
    two strings. *)
Definition get_collection (type media_type : string) (fuel : nat)
    (id : string) (extend : bool) : State -> option (result JSON * State) :=
  fun st =>
    match (let* _ := _refresh_session_auth in
           let* response := session_get (METADATA_API_URL type id) in
           let* _ := lift (check_response response) in
           lift (response_json response)) st with
    | (Ok obj, st') =>
        if extend then extend_items fuel obj media_type st'
        else Some (Ok obj, st')
    | (Raise e, st') => Some (Raise e, st')
    end.

(** The function that [functools.lru_cache] wraps. *)
Definition get_album_uncached (fuel : nat) (album_id extend : PyVal)
    : State -> option (result JSON * State) :=
  get_collection "albums" "tracks" fuel (str_of_arg album_id) (truthy extend).

Definition get_playlist (fuel : nat) (playlist_id : string) (extend : bool)
    : State -> option (result JSON * State) :=
  get_collection "playlists" "tracks" fuel playlist_id extend.

Definition get_show (fuel : nat) (show_id : string) (extend : bool)
    : State -> option (result JSON * State) :=
  get_collection "shows" "episodes" fuel show_id extend.

Definition get_track_credits (track_id : string) : M JSON :=
  let* _ := _refresh_session_auth in
  let* response := session_get (TRACK_CREDITS_API_URL track_id) in
  let* _ := lift (check_response response) in
  lift (response_json response).

Definition get_episode (episode_id : string) : M JSON :=
  let* _ := _refresh_session_auth in
  let* response := session_get (METADATA_API_URL "episodes" episode_id) in
  let* _ := lift (check_response response) in
  lift (response_json response).

Definition get_playplay_license (file_id : string) (challenge : string) : M string :=
  let* _ := _refresh_session_auth in
  let* response := session_post (PLAYPLAY_LICENSE_API_URL file_id) challenge in
  let* _ := lift (check_response response) in
  ret (body response).

Definition get_stream_urls (file_id : string) : M JSON :=
  let* _ := _refresh_session_auth in
  let* response := session_get (STREAM_URLS_API_URL file_id) in
  let* _ := lift (check_response response) in
  lift (response_json response).

(** *** [functools.lru_cache()] around [get_album]

    The key of a call is made of its arguments as they are written: the
    positional ones, then the keyword ones in their order.  A hit returns the
    stored value and makes its entry the most recent one; a miss calls the
    function and stores what it returns, in place of the least recently used
    entry when [maxsize] entries are there; an exception is not stored. *)

Definition maxsize : nat := 128.

Definition pyval_eqb (a b : PyVal) : bool :=
  match a, b with
  | VStr s, VStr t => String.eqb s t
  | VBool x, VBool y => Bool.eqb x y
  | _, _ => false
  end.

Fixpoint list_eqb {A} (eqb : A -> A -> bool) (l m : list A) : bool :=
  match l, m with
  | [], [] => true
  | x :: l', y :: m' => eqb x y && list_eqb eqb l' m'
  | _, _ => false
  end.

Definition key_eqb (c d : Call) : bool :=
  list_eqb pyval_eqb (args c) (args d)
  && list_eqb (fun p q => String.eqb (fst p) (fst q) && pyval_eqb (snd p) (snd q))
              (kwargs c) (kwargs d).

Fixpoint cache_lookup (k : Call) (cache : list (Call * JSON)) : option JSON :=
  match cache with
  | [] => None
  | (k', v) :: rest => if key_eqb k' k then Some v else cache_lookup k rest
  end.

Definition cache_touch (k : Call) (v : JSON) (cache : list (Call * JSON))
    : list (Call * JSON) :=
  List.filter (fun e => negb (key_eqb (fst e) k)) cache ++ [(k, v)].

Definition cache_store (k : Call) (v : JSON) (cache : list (Call * JSON))
    : list (Call * JSON) :=
  (if Nat.leb maxsize (List.length cache) then tl cache else cache) ++ [(k, v)].

(** The parameters [album_id] and [extend = True] from the arguments of a
    call; [TypeError] as Python raises it for arguments that do not fit. *)
Fixpoint bind_keywords (kw : list (string * PyVal)) (album_id extend : option PyVal)
    : result (option PyVal * option PyVal) :=
  match kw with
  | [] => Ok (album_id, extend)
  | (name, v) :: rest =>
      if String.eqb name "album_id" then
        match album_id with
        | None => bind_keywords rest (Some v) extend
        | Some _ => Raise TypeError
        end
      else if String.eqb name "extend" then
        match extend with
        | None => bind_keywords rest album_id (Some v)
        | Some _ => Raise TypeError
        end
      else Raise TypeError
  end.

Definition bind_arguments (c : Call) : result (PyVal * PyVal) :=
  match
    match args c with
    | [] => bind_keywords (kwargs c) None None
    | [a] => bind_keywords (kwargs c) (Some a) None
    | [a; e] => bind_keywords (kwargs c) (Some a) (Some e)
    | _ => Raise TypeError
    end
  with
  | Ok (Some a, Some e) => Ok (a, e)
  | Ok (Some a, None) => Ok (a, VBool true)
  | Ok (None, _) => Raise TypeError
  | Raise e => Raise e
  end.

Definition set_cache (c : list (Call * JSON)) (st : State) : State :=
  mkState (self st) (world st) c.

Definition get_album (fuel : nat) (c : Call)
    : State -> option (result JSON * State) :=
  fun st =>
    match cache_lookup c (get_album_cache st) with
    | Some album => Some (Ok album, set_cache (cache_touch c album (get_album_cache st)) st)
    | None =>
        match bind_arguments c with
        | Raise e => Some (Raise e, st)
        | Ok (album_id, extend) =>
            match get_album_uncached fuel album_id extend st with
            | Some (Ok album, st') =>
                Some (Ok album, set_cache (cache_store c album (get_album_cache st')) st')
            | other => other
            end
        end
    end.

(** *** Construction *)

Definition BROWSER_HEADERS : list (string * string) :=
  [ ("accept", "application/json");
    ("accept-language", "en-US");
    ("content-type", "application/json");
    ("origin", SPOTIFY_HOME_PAGE_URL);
    ("priority", "u=1, i");
    ("referer", SPOTIFY_HOME_PAGE_URL);
    ("sec-ch-ua",
      QUOTE ++ "Not)A;Brand" ++ QUOTE ++ ";v=" ++ QUOTE ++ "99" ++ QUOTE ++ ", "
      ++ QUOTE ++ "Google Chrome" ++ QUOTE ++ ";v=" ++ QUOTE ++ "127" ++ QUOTE ++ ", "
      ++ QUOTE ++ "Chromium" ++ QUOTE ++ ";v=" ++ QUOTE ++ "127" ++ QUOTE);
    ("sec-ch-ua-mobile", "?0");
    ("sec-ch-ua-platform", QUOTE ++ "Windows" ++ QUOTE);
    ("sec-fetch-dest", "empty");
    ("sec-fetch-mode", "cors");
    ("sec-fetch-site", "same-site");
    ("user-agent",
      "Mozilla/5.0 (Windows NT 10.0; Win64; x64) AppleWebKit/537.36 (KHTML, like Gecko) Chrome/127.0.0.0 Safari/537.36");
    ("spotify-app-version", CLIENT_VERSION);
    ("app-platform", "WebPlayer") ].

(** [_set_session], given the session that [requests.Session()] returns and
    what loading the cookie file gives. *)
Definition _set_session (path : option string) (fresh : Session)
    (load : string -> result (list Cookie)) : M unit :=
  let* jar :=
    lift (match path with
          | Some p => load p
          | None => Ok []
          end) in
  let s := mkSession (headers fresh) (extract_cookies (cookies fresh) jar) in
  let s := fold_left (fun s h => headers_update (fst h) (snd h) s) BROWSER_HEADERS s in
  let* _ := set_self (set_session s) in
  _set_session_auth.

(** [SpotifyApi(cookies_path)] in a world: the new object, unless an
    exception ends the construction. *)
Definition __init__ (path : option string) (fresh : Session)
    (load : string -> result (list Cookie)) (w : World) : result State * World :=
  match _set_session path fresh load
          (mkState (mkApi path fresh JNull JNull) w []) with
  | (Ok _, st) => (Ok st, world st)
  | (Raise e, st) => (Raise e, world st)
  end.

End Api.

(** ** A small world

    Concrete inputs on which the properties below are exercised: the texts
    that the remote service sends, their decoding, and a service that
    answers by URL.  Before the clock reaches 1000 the landing page carries
    a token that expires at 1000; from then on it carries one that expires an
    hour later, another configuration, and it sets a cookie. *)

Module Example.

Definition q (s : string) : string := QUOTE ++ s ++ QUOTE.

Definition SESSION_1 : string :=
  "{" ++ q "accessToken" ++ ":" ++ q "tok-1" ++ ","
  ++ q "accessTokenExpirationTimestampMs" ++ ":1000}".
Definition SESSION_2 : string :=
  "{" ++ q "accessToken" ++ ":" ++ q "tok-2" ++ ","
  ++ q "accessTokenExpirationTimestampMs" ++ ":3601000}".
Definition CONFIG_1 : string := "{" ++ q "market" ++ ":" ++ q "DE" ++ "}".
Definition CONFIG_2 : string := "{" ++ q "market" ++ ":" ++ q "FR" ++ "}".

Definition landing_page (session_blob config_blob : string) : string :=
  "<html>" ++ script_tag "session" ++ session_blob ++ SCRIPT_END
  ++ script_tag "config" ++ config_blob ++ SCRIPT_END ++ "</html>".

Definition PAGE_2_URL : string := "https://api.spotify.com/v1/albums/a1/tracks?offset=1".
Definition PAGE_3_URL : string := "https://api.spotify.com/v1/albums/a1/tracks?offset=2".

Definition ALBUM : string :=
  "{" ++ q "name" ++ ":" ++ q "A" ++ "," ++ q "tracks" ++ ":{"
  ++ q "items" ++ ":[1]," ++ q "next" ++ ":" ++ q PAGE_2_URL ++ "}}".
Definition PAGE_2 : string :=
  "{" ++ q "items" ++ ":[2]," ++ q "next" ++ ":" ++ q PAGE_3_URL ++ "}".
Definition PAGE_3 : string :=
  "{" ++ q "items" ++ ":[3]," ++ q "next" ++ ":null}".
Definition TRACK : string := "{" ++ q "name" ++ ":" ++ q "T" ++ "}".

Definition session_1 : JSON :=
  JObj [("accessToken", JStr "tok-1"); ("accessTokenExpirationTimestampMs", JNum 1000)].
Definition session_2 : JSON :=
  JObj [("accessToken", JStr "tok-2"); ("accessTokenExpirationTimestampMs", JNum 3601000)].
Definition config_1 : JSON := JObj [("market", JStr "DE")].
Definition config_2 : JSON := JObj [("market", JStr "FR")].
Definition album : JSON :=
  JObj [("name", JStr "A");
        ("tracks", JObj [("items", JArr [JNum 1]); ("next", JStr PAGE_2_URL)])].
Definition page_2 : JSON := JObj [("items", JArr [JNum 2]); ("next", JStr PAGE_3_URL)].
Definition page_3 : JSON := JObj [("items", JArr [JNum 3]); ("next", JNull)].
Definition track : JSON := JObj [("name", JStr "T")].

(** [json.loads] on the texts above. *)
Definition table : list (string * JSON) :=
  [ (SESSION_1, session_1); (SESSION_2, session_2);
    (CONFIG_1, config_1); (CONFIG_2, config_2);
    (ALBUM, album); (PAGE_2, page_2); (PAGE_3, page_3); (TRACK, track);
    ("{}", JObj []); ("null", JNull) ].

Definition json_loads (s : string) : option JSON := Json.assoc s table.

Definition py_repr (v : JSON) : string :=
  match v with
  | JNull => "None"
  | JBool true => "True"
  | JBool false => "False"
  | _ => "?"
  end.

Definition ok (text : string) : Reply := Replied (mkResponse 200 text []) 0.

Definition has_prefix (p s : string) : bool :=
  match re.starts_with p s with Some _ => true | None => false end.

Definition serve (_ : list Request) (r : Request) : Reply :=
  let u := url r in
  if String.eqb u SPOTIFY_HOME_PAGE_URL then
    if sent_at r <? 1000 then ok (landing_page SESSION_1 CONFIG_1)
    else Replied (mkResponse 200 (landing_page SESSION_2 CONFIG_2)
                             [mkCookie "open.spotify.com" "sp_t" "fresh"]) 0
  else if String.eqb u (METADATA_API_URL "albums" "a1") then ok ALBUM
  else if String.eqb u PAGE_2_URL then ok PAGE_2
  else if String.eqb u PAGE_3_URL then ok PAGE_3
  else if String.eqb u (METADATA_API_URL "tracks" "t1") then ok TRACK
  else if has_prefix (METADATA_API_URL "albums" "x") u then ok "{}"
  else Replied (mkResponse 404 "not found" []) 0.

(** The part of the table of decimal digits that the examples use: the
    Arabic-Indic digits, U+0660 to U+0669. *)
Definition TODECIMAL (ch : N) : option N :=
  if ((1632 <=? ch) && (ch <=? 1641))%N then Some (ch - 1632)%N else None.

Definition fresh_session : Session :=
  mkSession {[ "connection" := ("Connection", "keep-alive") ]} [].

Definition cookie_file (_ : string) : result (list Cookie) :=
  Ok [mkCookie "open.spotify.com" "sp_dc" "secret"].

(** The construction of a [SpotifyApi] object at time 0, and the object
    that it builds, written out: its fields, and the one request sent. *)
Definition built : result State * World :=
  __init__ json_loads py_repr (Some "./cookies.txt") fresh_session cookie_file
           (mkWorld 0 [] serve).

Definition built_state : option State :=
  match built with
  | (Ok st, _) => Some st
  | (Raise _, _) => None
  end.

Definition start_self : SpotifyApi :=
  Eval vm_compute in
    match built with
    | (Ok st, _) => self st
    | (Raise _, _) => mkApi None fresh_session JNull JNull
    end.

Definition start_sent : list Request := Eval vm_compute in sent (snd built).

Definition start : State := mkState start_self (mkWorld 0 start_sent serve) [].

(** The same object when the clock shows [t]. *)
Definition at_time (t : Z) (st : State) : State :=
  mkState (self st) (mkWorld t (sent (world st)) (server (world st)))
          (get_album_cache st).

Definition urls (st : State) : list string := map url (sent (world st)).

(** [get_album(id, False)] for [n] identifiers in turn: ["x"], ["xx"], ... *)
Definition nth_id (n : nat) : string := Py.repeat "x" (S n).

Definition plain_call (id : string) : Call := mkCall [VStr id; VBool false] [].

Fixpoint fetch_albums (ids : list nat) (st : State) : State :=
  match ids with
  | [] => st
  | n :: rest =>
      match get_album json_loads py_repr 1 (plain_call (nth_id n)) st with
      | Some (_, st') => fetch_albums rest st'
      | None => st
      end
  end.

(** The state after a call of [get_album], and what the call returned. *)
Definition after (c : Call) (st : State) : State :=
  match get_album json_loads py_repr 3 c st with
  | Some (_, st') => st'
  | None => st
  end.

Definition returned (c : Call) (st : State) : option (result JSON) :=
  option_map fst (get_album json_loads py_repr 3 c st).

(** The same object in front of a service that answers every request with
    one text. *)
Definition serve_text (text : string) (_ : list Request) (_ : Request) : Reply :=
  ok text.

Definition with_server (srv : list Request -> Request -> Reply) (st : State)
    : State :=
  mkState (self st) (mkWorld (clock (world st)) (sent (world st)) srv)
          (get_album_cache st).

Definition BARE_PAGE : string := "<html></html>".

Definition SESSION_ONLY_PAGE : string :=
  "<html>" ++ script_tag "session" ++ SESSION_2 ++ SCRIPT_END ++ "</html>".

(** A first page whose continuation the service does not have. *)
Definition dangling : JSON :=
  JObj [("tracks",
         JObj [("items", JArr []);
               ("next", JStr "https://api.spotify.com/v1/albums/gone/tracks")])].

(** What a request looked like: its URL, when it was sent, and its
    [Authorization] header. *)
Definition summary (r : Request) : string * Z * option (string * string) :=
  (url r, sent_at r, request_headers r !! "authorization").

End Example.

(** ** Sequences of calls

    [recent k v j cache]: the entry of the key [k] in the cache holds [v], and
    at most [j] entries have been used more recently. *)
Definition recent (k : Call) (v : JSON) (j : nat) (cache : list (Call * JSON))
    : Prop :=
  exists older newer,
    cache = (older ++ (k, v) :: newer)%list
    /\ cache_lookup k older = None
    /\ (List.length newer <= j)%nat.

Section Calls.

Variable json_loads : string -> option JSON.
Variable py_repr : JSON -> string.

(** [calls n st st']: the process goes from [st] to [st'] with [n] calls of
    [get_album] that return or raise, and between them any steps that leave
    the cache of [get_album] as it is. *)
Inductive calls : nat -> State -> State -> Prop :=
| calls_none st : calls 0 st st
| calls_other n st st1 st2 :
    get_album_cache st1 = get_album_cache st ->
    calls n st1 st2 ->
    calls n st st2
| calls_get_album n fuel c r st st1 st2 :
    get_album json_loads py_repr fuel c st = Some (r, st1) ->
    calls n st1 st2 ->
    calls (S n) st st2.

End Calls.

(** ** Chains of pages that break *)

Section Failures.

Variable json_loads : string -> option JSON.

(** The fetch of a page that fails: the transport raises, [check_response]
    refuses the answer, or the body is no JSON. *)
Inductive fetch_fails : State -> string -> exn -> State -> Prop :=
| fails_transport st u e dt :
    answer st (request_of st GET u None) = Failed e dt ->
    fetch_fails st u e (after_failure st (request_of st GET u None) dt)
| fails_status st u r dt e :
    answer st (request_of st GET u None) = Replied r dt ->
    check_response r = Raise e ->
    fetch_fails st u e (after_reply st (request_of st GET u None) r dt)
| fails_decode st u r dt :
    answer st (request_of st GET u None) = Replied r dt ->
    check_response r = Ok tt ->
    json_loads (body r) = None ->
    fetch_fails st u JSONDecodeError
                (after_reply st (request_of st GET u None) r dt).

(** [broken_chain st next_url pages e st']: from [st], the pages [pages] are
    fetched one after the other as in a chain, and the fetch of the page
    after them fails with [e], which leaves the state [st']. *)
Inductive broken_chain : State -> JSON -> list JSON -> exn -> State -> Prop :=
| broken_here st u e st' :
    fetch_fails st u e st' ->
    broken_chain st (JStr u) [] e st'
| broken_later st u r dt page next_url pages e st' :
    answer st (request_of st GET u None) = Replied r dt ->
    success r = true ->
    json_loads (body r) = Some page ->
    Json.getitem page "next" = Ok next_url ->
    broken_chain
      (snd (sleep EXTEND_TRACK_COLLECTION_WAIT_TIME
                  (after_reply st (request_of st GET u None) r dt)))
      next_url pages e st' ->
    broken_chain st (JStr u) (page :: pages) e st'.

End Failures.

(** ** What [re.search] finds

    [first_match open close s pre g post]: in [s], after the prefix [pre],
    stands [open], then the group [g], not empty and without a line feed,
    then [close]; [close] does not begin inside the group after its first
    character (the group is the shortest one), and no match of the pattern
    begins before (the match is the leftmost one). *)
Definition first_match (open close s pre g post : string) : Prop :=
  s = pre ++ open ++ g ++ close ++ post
  /\ g <> EmptyString
  /\ Radix.all_chars (fun c => negb (Ascii.eqb c re.LF)) g = true
  /\ (forall c g1 g2 post',
        g = String c g1 ++ g2 -> g2 <> EmptyString ->
        g2 ++ close ++ post <> close ++ post')
  /\ (forall pre1 rest g' post',
        s = pre1 ++ rest ->
        (String.length pre1 < String.length pre)%nat ->
        g' <> EmptyString ->
        Radix.all_chars (fun c => negb (Ascii.eqb c re.LF)) g' = true ->
        rest <> open ++ g' ++ close ++ post').
(** * Properties *)

(** ** Strings *)

Lemma len_nonneg s : 0 <= Py.len s.
Proof. unfold Py.len; lia. Qed.

Lemma len_String c s : Py.len (String c s) = Py.len s + 1.
Proof. unfold Py.len; cbn [String.length]; lia. Qed.

Lemma app_empty t : EmptyString ++ t = t.
Proof. reflexivity. Qed.

Lemma app_String c s t : String c s ++ t = String c (s ++ t).
Proof. reflexivity. Qed.

Lemma len_app s t : Py.len (s ++ t) = Py.len s + Py.len t.
Proof.
  induction s as [|c s IH].
  - rewrite app_empty; change (Py.len EmptyString) with 0; lia.
  - rewrite app_String, !len_String, IH; lia.
Qed.

Lemma len_repeat c n : Py.len (Py.repeat c n) = Z.of_nat n.
Proof.
  induction n as [|n IH]; [reflexivity|].
  cbn [Py.repeat]; rewrite len_String, IH; lia.
Qed.

Lemma repeat_snoc c n : Py.repeat c n ++ String c EmptyString = Py.repeat c (S n).
Proof.
  induction n as [|n IH]; [reflexivity|].
  cbn [Py.repeat] in *; now rewrite app_String, IH.
Qed.

Lemma index_bounds s c d :
  Py.index s c = Some d -> 0 <= d < Py.len s /\ Py.getitem s d = Some c.
Proof.
  revert d; induction s as [|x s IH]; intros d H; cbn [Py.index] in H; [discriminate|].
  destruct (Ascii.eqb x c) eqn:E.
  - apply Ascii.eqb_eq in E; subst x; inversion H; subst d.
    rewrite len_String; pose proof (len_nonneg s); split; [lia|reflexivity].
  - destruct (Py.index s c) as [i|] eqn:Ei; [|discriminate].
    inversion H; subst d; destruct (IH i eq_refl) as [Hb Hg].
    rewrite len_String; split; [lia|].
    unfold Py.getitem in *.
    destruct (Z.ltb_spec i 0); [lia|].
    destruct (Z.ltb_spec (i + 1) 0); [lia|].
    replace (Z.to_nat (i + 1)) with (S (Z.to_nat i)) by lia.
    exact Hg.
Qed.

Lemma index_inj s c1 c2 d :
  Py.index s c1 = Some d -> Py.index s c2 = Some d -> c1 = c2.
Proof.
  intros H1 H2.
  apply index_bounds in H1 as [_ H1]; apply index_bounds in H2 as [_ H2].
  congruence.
Qed.

Lemma index_chars s c d : Py.index s c = Some d -> In c (Radix.chars s).
Proof.
  revert d; induction s as [|x s IH]; intros d H; cbn [Py.index] in H; [discriminate|].
  cbn [Radix.chars]; destruct (Ascii.eqb x c) eqn:E.
  - apply Ascii.eqb_eq in E; now left.
  - destruct (Py.index s c) eqn:Ei; [|discriminate]; right; eauto.
Qed.

(** A property checked on every character of a character set holds of every
    member. *)
Lemma member_forallb cs (P : ascii -> bool) c :
  forallb P (Radix.chars cs) = true -> Radix.member cs c = true -> P c = true.
Proof.
  intros HP Hm; unfold Radix.member in Hm.
  destruct (Py.index cs c) as [d|] eqn:E; [|discriminate].
  rewrite forallb_forall in HP; eapply HP, index_chars, E.
Qed.

Lemma zfill_pad s w :
  match s with
  | String c _ => Ascii.eqb c "+" || Ascii.eqb c "-" = false
  | EmptyString => True
  end ->
  Py.len s <= w ->
  Py.zfill s w = Py.repeat "0" (Z.to_nat (w - Py.len s)) ++ s.
Proof.
  intros Hs Hw; unfold Py.zfill.
  destruct (Z.leb_spec w (Py.len s)).
  - assert (w = Py.len s) by lia; subst w.
    now rewrite Z.sub_diag.
  - destruct s as [|c r]; [|now rewrite Hs].
    induction (Z.to_nat (w - Py.len EmptyString)) as [|n IH]; [reflexivity|].
    cbn [Py.repeat]; now rewrite app_String, <- IH.
Qed.

(** ** Numerals in a radix *)

Lemma radix_split B d1 v1 d2 v2 :
  0 <= v1 < B -> 0 <= v2 < B -> d1 * B + v1 = d2 * B + v2 ->
  d1 = d2 /\ v1 = v2.
Proof.
  intros H1 H2 E.
  assert (d1 = d2) by (destruct (Z.lt_trichotomy d1 d2) as [?|[?|?]]; nia).
  subst; lia.
Qed.

Section Numerals.

Variables (b : Z) (cs : string).
Hypothesis radix_ge_2 : 2 <= b.
Hypothesis charset_len : Py.len cs = b.
Hypothesis charset_distinct :
  forall r, 0 <= r < b ->
  exists c, Py.getitem cs r = Some c /\ Py.index cs c = Some r.

Lemma member_digit c :
  Radix.member cs c = true ->
  Py.index cs c = Some (Radix.digit cs c) /\ 0 <= Radix.digit cs c < b.
Proof.
  unfold Radix.member, Radix.digit; intros H.
  destruct (Py.index cs c) as [d|] eqn:E; [|discriminate].
  split; [reflexivity|]. apply index_bounds in E as [E _]; lia.
Qed.

Lemma digit_inj c1 c2 :
  Radix.member cs c1 = true -> Radix.member cs c2 = true ->
  Radix.digit cs c1 = Radix.digit cs c2 -> c1 = c2.
Proof.
  intros H1 H2 E.
  apply member_digit in H1 as [H1 _]; apply member_digit in H2 as [H2 _].
  rewrite E in H1; eapply index_inj; eauto.
Qed.

Lemma pow_len_pos s : 0 < b ^ Py.len s.
Proof. apply Z.pow_pos_nonneg; [lia|apply len_nonneg]. Qed.

Lemma pow_len_String c s : b ^ Py.len (String c s) = b * b ^ Py.len s.
Proof.
  rewrite len_String, Z.pow_add_r, Z.pow_1_r by (pose proof (len_nonneg s); lia).
  lia.
Qed.

Lemma value_range s :
  Radix.all_in cs s = true -> 0 <= Radix.value b cs s < b ^ Py.len s.
Proof.
  induction s as [|c s IH]; cbn [Radix.all_in Radix.value]; intros H.
  - change (Py.len EmptyString) with 0; rewrite Z.pow_0_r; lia.
  - apply andb_true_iff in H as [Hc Hs].
    apply member_digit in Hc as [_ Hc]; specialize (IH Hs).
    rewrite pow_len_String. pose proof (pow_len_pos s). nia.
Qed.

Lemma value_canonical_lower c s :
  Radix.all_in cs (String c s) = true ->
  Radix.canonical cs (String c s) ->
  b ^ Py.len s <= Radix.value b cs (String c s).
Proof.
  cbn [Radix.all_in Radix.value Radix.canonical]; intros H Hc.
  apply andb_true_iff in H as [Hm Hs].
  apply member_digit in Hm as [_ Hm]; pose proof (value_range s Hs).
  pose proof (pow_len_pos s). nia.
Qed.

Lemma all_in_app s t :
  Radix.all_in cs (s ++ t) = Radix.all_in cs s && Radix.all_in cs t.
Proof.
  induction s as [|c s IH]; [reflexivity|].
  rewrite app_String; cbn [Radix.all_in]; rewrite IH; apply andb_assoc.
Qed.

Lemma value_app s t :
  Radix.value b cs (s ++ t)
  = Radix.value b cs s * b ^ Py.len t + Radix.value b cs t.
Proof.
  induction s as [|c s IH]; [rewrite app_empty; cbn [Radix.value]; lia|].
  rewrite app_String; cbn [Radix.value]; rewrite IH, len_app.
  rewrite Z.pow_add_r by apply len_nonneg. ring.
Qed.

Lemma value_same_len_inj s t :
  Py.len s = Py.len t ->
  Radix.all_in cs s = true -> Radix.all_in cs t = true ->
  Radix.value b cs s = Radix.value b cs t -> s = t.
Proof.
  revert t; induction s as [|c s IH]; intros [|d t] Hl Hs Ht Hv;
    rewrite ?len_String in Hl; try reflexivity;
    try (exfalso; change (Py.len EmptyString) with 0 in Hl;
         first [pose proof (len_nonneg t)|pose proof (len_nonneg s)]; lia).
  cbn [Radix.all_in Radix.value] in *.
  apply andb_true_iff in Hs as [Hc Hs]; apply andb_true_iff in Ht as [Hd Ht].
  assert (Hl' : Py.len s = Py.len t) by lia.
  pose proof (value_range s Hs) as Rs; pose proof (value_range t Ht) as Rt.
  rewrite Hl' in Rs, Hv.
  destruct (radix_split _ _ _ _ _ Rs Rt Hv).
  f_equal; [apply digit_inj; assumption|apply IH; assumption].
Qed.

Lemma canonical_len s t :
  Radix.all_in cs s = true -> Radix.all_in cs t = true ->
  Radix.canonical cs s -> Radix.canonical cs t ->
  Radix.value b cs s = Radix.value b cs t -> Py.len s = Py.len t.
Proof.
  assert (one_side : forall s t,
    Radix.all_in cs s = true -> Radix.all_in cs t = true ->
    Radix.canonical cs s ->
    Radix.value b cs s = Radix.value b cs t -> Py.len s <= Py.len t).
  { clear s t; intros [|c s] t Hs Ht Cs Hv; [apply len_nonneg|].
    pose proof (value_canonical_lower c s Hs Cs) as Lo.
    pose proof (value_range t Ht) as Hi.
    rewrite Hv in Lo.
    assert (b ^ Py.len s < b ^ Py.len t) as Hlt by lia.
    apply Z.pow_lt_mono_r_iff in Hlt; [|lia|apply len_nonneg].
    rewrite len_String; lia. }
  intros Hs Ht Cs Ct Hv.
  pose proof (one_side s t Hs Ht Cs Hv).
  pose proof (one_side t s Ht Hs Ct (eq_sym Hv)). lia.
Qed.

Lemma canonical_unique s t :
  Radix.all_in cs s = true -> Radix.all_in cs t = true ->
  Radix.canonical cs s -> Radix.canonical cs t ->
  Radix.value b cs s = Radix.value b cs t -> s = t.
Proof.
  intros; apply value_same_len_inj; auto using canonical_len.
Qed.


Lemma bits_div n fuel :
  0 < n -> (Py.bits n <= S fuel)%nat -> 0 < n / b -> (Py.bits (n / b) <= fuel)%nat.
Proof.
  unfold Py.bits; intros Hn Hf Hq.
  pose proof (Z.log2_nonneg n); pose proof (Z.log2_nonneg (n / b)).
  assert (Z.log2 (n / b) < Z.log2 n); [|lia].
  apply Z.log2_lt_pow2; [assumption|].
  destruct (Z.log2_spec n Hn) as [_ Hup].
  rewrite Z.pow_succ_r in Hup by assumption.
  apply Z.div_lt_upper_bound; [lia|].
  pose proof (Z.pow_pos_nonneg 2 (Z.log2 n) ltac:(lia) ltac:(assumption)). nia.
Qed.

(** The digit loop, given enough fuel, prepends to [chs] the canonical
    numeral of [n]. *)
Lemma digits_loop_spec fuel : forall n chs,
  0 <= n -> (0 < n -> (Py.bits n <= fuel)%nat) ->
  exists s, Py.digits_loop fuel b cs n chs = Some (Ok (s ++ chs))
            /\ Radix.all_in cs s = true
            /\ Radix.value b cs s = n
            /\ Radix.canonical cs s.
Proof.
  induction fuel as [|fuel IH]; intros n chs Hn Hf; cbn [Py.digits_loop];
    destruct (Z.ltb_spec 0 n) as [Hpos|Hz].
  - specialize (Hf Hpos); unfold Py.bits in Hf.
    pose proof (Z.log2_nonneg n); lia.
  - exists EmptyString; repeat split; cbn [Radix.value]; lia.
  - assert (Hr : 0 <= n mod b < b) by (apply Z.mod_pos_bound; lia).
    destruct (charset_distinct _ Hr) as (c & Hget & Hidx); rewrite Hget.
    assert (Hq : 0 <= n / b) by (apply Z.div_pos; lia).
    destruct (IH (n / b) (String c chs) Hq) as (s & Hrun & Hall & Hval & Hcan).
    { intros; apply bits_div; auto. }
    assert (Hdig : Radix.digit cs c = n mod b) by (unfold Radix.digit; now rewrite Hidx).
    assert (Hmem : Radix.member cs c = true) by (unfold Radix.member; now rewrite Hidx).
    exists (s ++ String c EmptyString); repeat split.
    + rewrite Hrun; do 2 f_equal.
      clear; induction s as [|x s IHs]; [reflexivity|].
      now rewrite !app_String, IHs.
    + rewrite all_in_app, Hall; cbn [Radix.all_in]; now rewrite Hmem.
    + rewrite value_app, Hval; cbn [Radix.value]; rewrite Hdig.
      change (Py.len EmptyString) with 0; change (Py.len (String c EmptyString)) with 1.
      rewrite Z.pow_0_r, Z.pow_1_r.
      pose proof (Z.div_mod n b ltac:(lia)); lia.
    + destruct s as [|x s]; [|exact Hcan].
      rewrite app_empty; cbn [Radix.canonical Radix.value] in *.
      rewrite Hdig. pose proof (Z.div_mod n b ltac:(lia)); lia.
  - exists EmptyString; repeat split; cbn [Radix.value]; lia.
Qed.

Lemma app_empty_r s : s ++ EmptyString = s.
Proof. induction s as [|c s IH]; [reflexivity|]; now rewrite app_String, IH. Qed.

(** [Py.digits] never runs out of fuel. *)
Lemma digits_spec n :
  0 <= n ->
  exists s, Py.digits b cs n = Ok s
            /\ Radix.all_in cs s = true
            /\ Radix.value b cs s = n
            /\ Radix.canonical cs s.
Proof.
  intros Hn.
  destruct (digits_loop_spec (Py.bits n) n EmptyString Hn ltac:(lia)) as (s & Hrun & H).
  exists s; split; [|exact H].
  unfold Py.digits; now rewrite Hrun, app_empty_r.
Qed.

(** *** Leading zeros *)

Variable z : ascii.
Hypothesis zero_digit : Py.index cs z = Some 0.

Lemma digit_zero c :
  Radix.member cs c = true -> (Radix.digit cs c = 0 <-> c = z).
Proof.
  intros Hc; split.
  - intros E; apply member_digit in Hc as [Hc _]; rewrite E in Hc.
    eapply index_inj; eauto.
  - intros ->; unfold Radix.digit; now rewrite zero_digit.
Qed.

Lemma strip_all_in s :
  Radix.all_in cs s = true -> Radix.all_in cs (Radix.strip z s) = true.
Proof.
  induction s as [|c s IH]; [reflexivity|]; intros H; cbn [Radix.strip].
  destruct (Ascii.eqb c z); [|exact H].
  cbn [Radix.all_in] in H; apply andb_true_iff in H as [_ H]; auto.
Qed.

Lemma strip_value s : Radix.value b cs (Radix.strip z s) = Radix.value b cs s.
Proof.
  induction s as [|c s IH]; [reflexivity|]; cbn [Radix.strip].
  destruct (Ascii.eqb c z) eqn:E; [|reflexivity].
  apply Ascii.eqb_eq in E; subst c; cbn [Radix.value].
  unfold Radix.digit at 1; rewrite zero_digit, IH; lia.
Qed.

Lemma strip_canonical s :
  Radix.all_in cs s = true -> Radix.canonical cs (Radix.strip z s).
Proof.
  induction s as [|c s IH]; [exact (fun _ => I)|]; intros H; cbn [Radix.strip].
  cbn [Radix.all_in] in H; apply andb_true_iff in H as [Hc Hs].
  destruct (Ascii.eqb c z) eqn:E; [auto|].
  cbn [Radix.canonical]; rewrite (digit_zero c Hc).
  intros ->; now rewrite Ascii.eqb_refl in E.
Qed.

Lemma strip_pad s :
  s = Py.repeat z (Z.to_nat (Py.len s - Py.len (Radix.strip z s)))
      ++ Radix.strip z s.
Proof.
  induction s as [|c s IH]; [reflexivity|]; cbn [Radix.strip].
  destruct (Ascii.eqb c z) eqn:E.
  - apply Ascii.eqb_eq in E; subst c.
    assert (Py.len (Radix.strip z s) <= Py.len s).
    { clear; induction s as [|c s IH]; cbn [Radix.strip]; [lia|].
      destruct (Ascii.eqb c z); rewrite ?len_String; lia. }
    rewrite len_String.
    replace (Z.to_nat (Py.len s + 1 - Py.len (Radix.strip z s)))
      with (S (Z.to_nat (Py.len s - Py.len (Radix.strip z s)))) by lia.
    cbn [Py.repeat]; rewrite app_String; now rewrite <- IH.
  - now rewrite Z.sub_diag.
Qed.

(** The digit loop applied to the value of a numeral gives the numeral back,
    without its leading zeros. *)
Lemma digits_value s :
  Radix.all_in cs s = true ->
  Py.digits b cs (Radix.value b cs s) = Ok (Radix.strip z s).
Proof.
  intros Hs.
  destruct (digits_spec (Radix.value b cs s)) as (t & Hrun & Ht & Hv & Hc);
    [apply value_range, Hs|].
  rewrite Hrun; f_equal.
  apply canonical_unique; auto using strip_all_in, strip_canonical.
  now rewrite strip_value.
Qed.

End Numerals.

(** *** Padding a numeral *)

Section Padding.

Variables (b : Z) (cs : string).
Hypothesis radix_ge_2 : 2 <= b.
Hypothesis charset_len : Py.len cs = b.
Hypothesis charset_distinct :
  forall r, 0 <= r < b ->
  exists c, Py.getitem cs r = Some c /\ Py.index cs c = Some r.
Hypothesis zero_digit : Py.index cs "0" = Some 0.
Hypothesis no_sign : Radix.member cs "+" = false /\ Radix.member cs "-" = false.

Lemma shortest_all_in s :
  Radix.all_in cs s = true -> Radix.all_in cs (Radix.shortest s) = true.
Proof.
  intros H; unfold Radix.shortest.
  pose proof (strip_all_in cs "0" s H) as Hs.
  destruct (Radix.strip "0" s); [|exact Hs].
  cbn [Radix.all_in]; unfold Radix.member; now rewrite zero_digit.
Qed.

Lemma shortest_value s :
  Radix.value b cs (Radix.shortest s) = Radix.value b cs s.
Proof.
  assert (E : Radix.value b cs (Radix.strip "0" s) = Radix.value b cs s)
    by (eapply strip_value; eauto).
  unfold Radix.shortest; rewrite <- E.
  destruct (Radix.strip "0" s); [|reflexivity].
  cbn [Radix.value]; unfold Radix.digit; rewrite zero_digit; lia.
Qed.

Lemma member_not_sign c :
  Radix.member cs c = true -> Ascii.eqb c "+" || Ascii.eqb c "-" = false.
Proof.
  destruct no_sign as [Hp Hm]; intros H.
  destruct (Ascii.eqb_spec c "+") as [->|_]; [congruence|].
  destruct (Ascii.eqb_spec c "-") as [->|_]; [congruence|reflexivity].
Qed.

Lemma zfill_all_in s w :
  Radix.all_in cs s = true -> Radix.all_in cs (Py.zfill s w) = true.
Proof.
  intros H. destruct (Z.le_gt_cases w (Py.len s)) as [Hw|Hw].
  - unfold Py.zfill. destruct (Z.leb_spec w (Py.len s)); [exact H|lia].
  - rewrite zfill_pad; [| |lia].
    + rewrite all_in_app, H, andb_true_r.
      induction (Z.to_nat (w - Py.len s)) as [|n IH]; [reflexivity|].
      cbn [Py.repeat Radix.all_in]; rewrite IH.
      unfold Radix.member; now rewrite zero_digit.
    + destruct s as [|c r]; [exact I|].
      cbn [Radix.all_in] in H; apply andb_true_iff in H as [H _].
      now apply member_not_sign.
Qed.

Lemma zfill_value s w :
  Radix.all_in cs s = true ->
  Radix.value b cs (Py.zfill s w) = Radix.value b cs s.
Proof.
  intros H. destruct (Z.le_gt_cases w (Py.len s)) as [Hw|Hw].
  - unfold Py.zfill. destruct (Z.leb_spec w (Py.len s)); [reflexivity|lia].
  - rewrite zfill_pad; [| |lia].
    + rewrite value_app.
      assert (E : forall n, Radix.value b cs (Py.repeat "0" n) = 0).
      { induction n as [|n IH]; [reflexivity|].
        cbn [Py.repeat Radix.value]; rewrite IH.
        unfold Radix.digit; rewrite zero_digit; lia. }
      rewrite E; lia.
    + destruct s as [|c r]; [exact I|].
      cbn [Radix.all_in] in H; apply andb_true_iff in H as [H _].
      now apply member_not_sign.
Qed.

Lemma zfill_len s w :
  Radix.all_in cs s = true -> Py.len s <= w -> Py.len (Py.zfill s w) = w.
Proof.
  intros H Hw. rewrite zfill_pad; [|  |exact Hw].
  - rewrite len_app, len_repeat; lia.
  - destruct s as [|c r]; [exact I|].
    cbn [Radix.all_in] in H; apply andb_true_iff in H as [H _].
    now apply member_not_sign.
Qed.

Lemma strip_len s : Py.len (Radix.strip "0" s) <= Py.len s.
Proof.
  induction s as [|c s IH]; cbn [Radix.strip]; [lia|].
  destruct (Ascii.eqb c "0"); rewrite ?len_String; lia.
Qed.

(** Padding the shortest numeral back to the length of [s] restores [s]. *)
Lemma zfill_shortest s :
  Radix.all_in cs s = true -> 1 <= Py.len s ->
  Py.zfill (Radix.shortest s) (Py.len s) = s.
Proof.
  intros H Hl. pose proof (strip_len s) as Hle.
  pose proof (strip_pad "0" s) as Hpad.
  pose proof (strip_all_in cs "0" s H) as Hs.
  unfold Radix.shortest. destruct (Radix.strip "0" s) as [|c r] eqn:E.
  - rewrite zfill_pad; [|reflexivity|exact Hl].
    change (Py.len "0") with 1.
    change (Py.len EmptyString) with 0 in Hpad; rewrite app_empty_r, Z.sub_0_r in Hpad.
    rewrite repeat_snoc.
    replace (S (Z.to_nat (Py.len s - 1))) with (Z.to_nat (Py.len s)) by lia.
    now rewrite <- Hpad.
  - rewrite zfill_pad; [now rewrite <- Hpad| |exact Hle].
    cbn [Radix.all_in] in Hs; apply andb_true_iff in Hs as [Hs _].
    now apply member_not_sign.
Qed.

(** The shortest numeral of a value below [b ^ w] has at most [w] digits. *)
Lemma shortest_len s w :
  Radix.all_in cs s = true -> 1 <= w ->
  Radix.value b cs s < b ^ w -> Py.len (Radix.shortest s) <= w.
Proof.
  intros H Hw Hv.
  pose proof (strip_all_in cs "0" s H) as Hs.
  assert (Hc : Radix.canonical cs (Radix.strip "0" s))
    by (eapply strip_canonical; eauto).
  assert (Hval : Radix.value b cs (Radix.strip "0" s) = Radix.value b cs s)
    by (eapply strip_value; eauto).
  unfold Radix.shortest. destruct (Radix.strip "0" s) as [|c r] eqn:E.
  - change (Py.len "0") with 1; lia.
  - assert (Lo : b ^ Py.len r <= Radix.value b cs (String c r))
      by (eapply value_canonical_lower; eauto).
    rewrite Hval in Lo.
    assert (b ^ Py.len r < b ^ w) as Hlt by lia.
    apply Z.pow_lt_mono_r_iff in Hlt; [|lia|lia].
    rewrite len_String; lia.
Qed.

(** [base62.encode] and [hex] on the value of a numeral. *)
Lemma digits_shortest s :
  Radix.all_in cs s = true ->
  match Py.digits b cs (Radix.value b cs s) with
  | Ok EmptyString => Ok "0"
  | r => r
  end = Ok (Radix.shortest s).
Proof.
  intros H.
  erewrite digits_value by eauto.
  unfold Radix.shortest; now destruct (Radix.strip "0" s).
Qed.

Lemma value_zero_strip s :
  Radix.all_in cs s = true ->
  (Radix.value b cs s = 0 <-> Radix.strip "0" s = EmptyString).
Proof.
  intros H.
  pose proof (strip_all_in cs "0" s H) as Hs.
  assert (Hc : Radix.canonical cs (Radix.strip "0" s))
    by (eapply strip_canonical; eauto).
  assert (E : Radix.value b cs (Radix.strip "0" s) = Radix.value b cs s)
    by (eapply strip_value; eauto).
  rewrite <- E.
  destruct (Radix.strip "0" s) as [|c r]; [now split|].
  assert (b ^ Py.len r <= Radix.value b cs (String c r))
    by (eapply value_canonical_lower; eauto).
  assert (0 < b ^ Py.len r) by (apply pow_len_pos; lia).
  split; [lia|discriminate].
Qed.

End Padding.

(** ** The two character sets *)

Lemma charset_distinct_check cs n :
  forallb (fun k =>
             match Py.getitem cs (Z.of_nat k) with
             | Some c => match Py.index cs c with
                         | Some r => r =? Z.of_nat k
                         | None => false
                         end
             | None => false
             end) (seq 0 n) = true ->
  forall r, 0 <= r < Z.of_nat n ->
  exists c, Py.getitem cs r = Some c /\ Py.index cs c = Some r.
Proof.
  intros H r Hr; rewrite forallb_forall in H.
  specialize (H (Z.to_nat r)); rewrite Z2Nat.id in H by lia.
  assert (Hin : In (Z.to_nat r) (seq 0 n)) by (apply in_seq; lia).
  specialize (H Hin).
  destruct (Py.getitem cs r) as [c|]; [|discriminate].
  destruct (Py.index cs c) as [r'|] eqn:E; [|discriminate].
  apply Z.eqb_eq in H; subst r'; eauto.
Qed.

Lemma base62_distinct r :
  0 <= r < 62 ->
  exists c, Py.getitem base62.CHARSET_INVERTED r = Some c
            /\ Py.index base62.CHARSET_INVERTED c = Some r.
Proof. apply (charset_distinct_check _ 62); vm_compute; reflexivity. Qed.

Lemma hex_distinct r :
  0 <= r < 16 ->
  exists c, Py.getitem Py.HEXDIGITS r = Some c
            /\ Py.index Py.HEXDIGITS c = Some r.
Proof. apply (charset_distinct_check _ 16); vm_compute; reflexivity. Qed.

(** ** [base62.decode] *)

Lemma decode_loop_value cs s : forall l i v,
  Radix.all_in cs s = true -> l - i = Py.len s ->
  base62.decode_loop cs l s i v = Ok (v + Radix.value 62 cs s).
Proof.
  induction s as [|c s IH]; intros l i v H Hl; cbn [base62.decode_loop Radix.value].
  - f_equal; lia.
  - cbn [Radix.all_in] in H; apply andb_true_iff in H as [Hc Hs].
    unfold Radix.member in Hc; unfold Radix.digit.
    destruct (Py.index cs c) as [d|]; [|discriminate].
    rewrite len_String in Hl.
    rewrite IH by (auto; lia).
    unfold base62.BASE; replace (l - (i + 1)) with (Py.len s) by lia.
    f_equal; lia.
Qed.

Lemma decode_value s :
  Radix.all_in base62.CHARSET_INVERTED s = true ->
  base62.decode s base62.CHARSET_INVERTED
  = Ok (Radix.value 62 base62.CHARSET_INVERTED s).
Proof.
  intros H; unfold base62.decode; rewrite decode_loop_value by (auto; lia).
  reflexivity.
Qed.

Lemma decode_loop_invalid cs s : forall l i v,
  Radix.all_in cs s = false ->
  base62.decode_loop cs l s i v = Raise ValueError.
Proof.
  induction s as [|c s IH]; intros l i v H; cbn [base62.decode_loop Radix.all_in] in *;
    [discriminate|].
  unfold Radix.member in H.
  destruct (Py.index cs c) as [d|]; [|reflexivity].
  apply IH; exact H.
Qed.

(** ** [int(s, 16)] on a string of lowercase hexadecimal digits *)

Lemma hex_member_plain c :
  Radix.member Py.HEXDIGITS c = true -> Radix.plain_hex_char c = true.
Proof. apply member_forallb; vm_compute; reflexivity. Qed.

Ltac plain_hex H :=
  apply hex_member_plain in H; unfold Radix.plain_hex_char in H;
  repeat (apply andb_true_iff in H as [H ?]);
  repeat match goal with
         | X : negb _ = true |- _ => apply negb_true_iff in X
         end.

Lemma normalise_hex s :
  Radix.all_in Py.HEXDIGITS s = true -> Py.normalise s = s.
Proof.
  induction s as [|c s IH]; [reflexivity|]; cbn [Radix.all_in Py.normalise].
  intros H; apply andb_true_iff in H as [Hc Hs]; rewrite IH by exact Hs.
  plain_hex Hc. apply Ascii.eqb_eq in Hc; now rewrite Hc.
Qed.

Lemma scan_digits_hex s : forall prev v n,
  Radix.all_in Py.HEXDIGITS s = true -> Ascii.eqb prev "_" = false ->
  Py.scan_digits 16 s prev v n
  = Some (v * 16 ^ Py.len s + Radix.value 16 Py.HEXDIGITS s,
          (n + String.length s)%nat, EmptyString).
Proof.
  induction s as [|c s IH]; intros prev v n H Hp; cbn [Py.scan_digits].
  - rewrite Hp; cbn [Radix.value String.length]; change (Py.len EmptyString) with 0.
    rewrite Z.pow_0_r; do 3 f_equal; lia.
  - cbn [Radix.all_in] in H; apply andb_true_iff in H as [Hc Hs].
    plain_hex Hc.
    match goal with X : Ascii.eqb c "_" = false |- _ => rewrite X end.
    match goal with X : (Py.DigitValue c <? 16) = true |- _ => rewrite X end.
    rewrite IH by assumption.
    match goal with X : (Py.DigitValue c =? _) = true |- _ =>
      apply Z.eqb_eq in X; rewrite X end.
    cbn [Radix.value String.length].
    rewrite len_String, Z.pow_add_r, Z.pow_1_r by (pose proof (len_nonneg s); lia).
    do 3 f_equal; lia.
Qed.

Lemma not_underscore A c r (x y : A) :
  Ascii.eqb c "_" = false ->
  match String c r with String "_" _ => x | _ => y end = y.
Proof.
  destruct c as [[] [] [] [] [] [] [] []]; try reflexivity; discriminate.
Qed.

Lemma int_hex s :
  Radix.all_in Py.HEXDIGITS s = true -> s <> EmptyString ->
  Py.int s 16 = Ok (Radix.value 16 Py.HEXDIGITS s).
Proof.
  intros H Hne; unfold Py.int; rewrite normalise_hex by exact H.
  destruct s as [|c r]; [congruence|].
  pose proof H as H'; cbn [Radix.all_in] in H'.
  apply andb_true_iff in H' as [Hc Hr]; pose proof Hc as Hc'; plain_hex Hc'.
  assert (E1 : Py.skip_spaces (String c r) = String c r).
  { cbn [Py.skip_spaces].
    match goal with X : Py.ISSPACE c = false |- _ => now rewrite X end. }
  assert (E2 : Py.skip_sign (String c r) = (1, String c r)).
  { unfold Py.skip_sign.
    destruct c as [[] [] [] [] [] [] [] []]; try reflexivity; discriminate. }
  assert (E3 : Py.skip_prefix 16 (String c r) = String c r).
  { unfold Py.skip_prefix. destruct r as [|x r']; [now destruct c as [[] [] [] [] [] [] [] []]|].
    cbn [Radix.all_in] in Hr; apply andb_true_iff in Hr as [Hx _]; plain_hex Hx.
    repeat match goal with X : Ascii.eqb x _ = false |- _ => rewrite X; clear X end.
    now destruct c as [[] [] [] [] [] [] [] []]. }
  rewrite E1, E2, E3, not_underscore by assumption.
  rewrite scan_digits_hex by (auto; reflexivity).
  change (Py.binary_base 16) with true.
  cbn [Nat.add String.length Py.skip_spaces negb andb]. f_equal; lia.
Qed.

(** ** ID transcoder *)

Local Abbreviation B62 := base62.CHARSET_INVERTED.
Local Abbreviation HEX := Py.HEXDIGITS.

Lemma two_le_16 : 2 <= 16. Proof. lia. Qed.
Lemma two_le_62 : 2 <= 62. Proof. lia. Qed.

Lemma zfill_len_max s w : Py.len (Py.zfill s w) = Z.max w (Py.len s).
Proof.
  unfold Py.zfill. destruct (Z.leb_spec w (Py.len s)) as [H|H]; [lia|].
  assert (E : forall t, Py.len (Py.repeat "0" (Z.to_nat (w - Py.len s)) ++ t)
                        = w - Py.len s + Py.len t).
  { intros t; rewrite len_app, len_repeat; lia. }
  destruct s as [|c r].
  - rewrite len_repeat; change (Py.len EmptyString) with 0 in *; lia.
  - destruct (Ascii.eqb c "+" || Ascii.eqb c "-").
    + rewrite len_String, E, len_String; rewrite len_String in H; lia.
    + rewrite E; lia.
Qed.

(** [hex(n)[2:]] for a natural number given by a hexadecimal numeral. *)
Lemma hex_of_value i :
  Radix.all_in HEX i = true ->
  Py.drop 2 (Py.hex (Radix.value 16 HEX i)) = Radix.shortest i.
Proof.
  intros H.
  pose proof (value_range 16 HEX two_le_16 eq_refl i H) as [Hv _].
  unfold Py.hex. destruct (Z.ltb_spec (Radix.value 16 HEX i) 0); [lia|].
  change (Py.drop 2 ("0x" ++ ?t)) with t.
  pose proof (value_zero_strip 16 HEX two_le_16 eq_refl eq_refl i H) as Hz.
  destruct (Z.eqb_spec (Radix.value 16 HEX i) 0) as [E|E].
  - apply Hz in E; unfold Radix.shortest; now rewrite E.
  - rewrite (digits_value 16 HEX two_le_16 eq_refl hex_distinct "0" eq_refl i H).
    unfold Radix.shortest.
    destruct (Radix.strip "0" i) eqn:Es; [|reflexivity].
    exfalso; apply E, Hz; reflexivity.
Qed.

(** [hex(n)[2:]] for any natural number. *)
Lemma hex_numeral n :
  0 <= n ->
  exists h, Py.drop 2 (Py.hex n) = h
            /\ Radix.all_in HEX h = true /\ Radix.value 16 HEX h = n.
Proof.
  intros Hn.
  destruct (digits_spec 16 HEX two_le_16 hex_distinct n Hn) as (h & _ & Hall & Hv & _).
  rewrite <- Hv, hex_of_value by exact Hall.
  eexists; split; [reflexivity|]; split.
  - exact (shortest_all_in HEX eq_refl h Hall).
  - exact (shortest_value 16 HEX eq_refl h).
Qed.

Lemma encode_numeral n :
  0 <= n ->
  exists e, base62.encode n B62 = Ok e
            /\ Radix.all_in B62 e = true /\ Radix.value 62 B62 e = n.
Proof.
  intros Hn.
  destruct (digits_spec 62 B62 two_le_62 base62_distinct n Hn) as (e & _ & Hall & Hv & _).
  unfold base62.encode, base62.BASE; rewrite <- Hv.
  rewrite (digits_shortest 62 B62 two_le_62 eq_refl base62_distinct eq_refl e Hall).
  eexists; split; [reflexivity|]; split.
  - exact (shortest_all_in B62 eq_refl e Hall).
  - exact (shortest_value 62 B62 eq_refl e).
Qed.

(** The internal identifier of a base-62 string, and the public identifier
    of a string of hexadecimal digits. *)
Lemma media_id_to_gid_value m :
  Radix.all_in B62 m = true ->
  exists g, media_id_to_gid m = Ok g
            /\ Radix.all_in HEX g = true
            /\ Radix.value 16 HEX g = Radix.value 62 B62 m
            /\ 32 <= Py.len g.
Proof.
  intros H; unfold media_id_to_gid; rewrite decode_value by exact H.
  pose proof (value_range 62 B62 two_le_62 eq_refl m H) as [Hv _].
  destruct (hex_numeral _ Hv) as (h & -> & Hall & Hval).
  eexists; split; [reflexivity|]; repeat split.
  - exact (zfill_all_in HEX eq_refl (conj eq_refl eq_refl) _ 32 Hall).
  - rewrite (zfill_value 16 HEX eq_refl (conj eq_refl eq_refl) _ 32 Hall).
    exact Hval.
  - rewrite zfill_len_max; lia.
Qed.

Lemma gid_to_media_id_value g :
  Radix.all_in HEX g = true -> g <> EmptyString ->
  exists m, gid_to_media_id g = Ok m
            /\ Radix.all_in B62 m = true
            /\ Radix.value 62 B62 m = Radix.value 16 HEX g.
Proof.
  intros H Hne; unfold gid_to_media_id; rewrite int_hex by assumption.
  pose proof (value_range 16 HEX two_le_16 eq_refl g H) as [Hv _].
  destruct (encode_numeral _ Hv) as (e & -> & Hall & Hval).
  eexists; split; [reflexivity|]; split.
  - exact (zfill_all_in B62 eq_refl (conj eq_refl eq_refl) _ 22 Hall).
  - rewrite (zfill_value 62 B62 eq_refl (conj eq_refl eq_refl) _ 22 Hall).
    exact Hval.
Qed.

(** What the round trip through the internal identifier does to a base-62
    string: its leading zeros are replaced by padding up to 22 characters. *)
Lemma public_round_trip_zfill p :
  Radix.all_in B62 p = true ->
  public_round_trip p = Ok (Py.zfill (Radix.shortest p) 22).
Proof.
  intros H; unfold public_round_trip.
  destruct (media_id_to_gid_value p H) as (g & -> & Hg & Hv & Hl).
  unfold gid_to_media_id; rewrite int_hex; [|exact Hg|].
  - rewrite Hv; unfold base62.encode, base62.BASE.
    now rewrite (digits_shortest 62 B62 two_le_62 eq_refl base62_distinct eq_refl p H).
  - intros ->; change (Py.len EmptyString) with 0 in Hl; lia.
Qed.

Lemma valid_public_spec p :
  valid_public p = true ->
  p <> EmptyString /\ Radix.all_in B62 p = true /\ Radix.value 62 B62 p < 2 ^ 128.
Proof.
  unfold valid_public; intros H.
  apply andb_true_iff in H as [H Hv]; apply andb_true_iff in H as [Hne Hall].
  repeat split; [|exact Hall|lia].
  intros ->; discriminate.
Qed.

Lemma valid_internal_spec i :
  valid_internal i = true -> Py.len i = 32 /\ Radix.all_in HEX i = true.
Proof.
  unfold valid_internal; intros H; apply andb_true_iff in H as [Hl Hall].
  split; [lia|exact Hall].
Qed.

(** C3 (as amended).  The transcoders are mutually inverse on the internal
    identifiers of 32 lowercase hexadecimal characters and on the public
    identifiers of exactly 22 base-62 characters.  On a valid public
    identifier of any other length, converting to the internal form and back
    does not give the identifier back. *)
Theorem transcoder_round_trip :
  (forall p, valid_public p = true ->
             (public_round_trip p = Ok p <-> Py.len p = 22))
  /\ (forall i, valid_internal i = true -> internal_round_trip i = Ok i).
Proof.
  split.
  - intros p Hp; apply valid_public_spec in Hp as (Hne & Hall & Hv).
    rewrite public_round_trip_zfill by exact Hall; split.
    + intros E.
      assert (Hlen : Py.len (Radix.shortest p) <= 22).
      { apply (shortest_len 62 B62 two_le_62 eq_refl eq_refl p 22 Hall); [lia|].
        eapply Z.lt_trans; [exact Hv|reflexivity]. }
      pose proof (zfill_len B62 (conj eq_refl eq_refl) _ 22
                    (shortest_all_in B62 eq_refl p Hall) Hlen) as L.
      congruence.
    + intros E; rewrite <- E; f_equal.
      apply (zfill_shortest B62 (conj eq_refl eq_refl) p Hall); lia.
  - intros i Hi; apply valid_internal_spec in Hi as (Hl & Hall).
    assert (Hne : i <> EmptyString) by (intros ->; discriminate).
    unfold internal_round_trip.
    destruct (gid_to_media_id_value i Hall Hne) as (m & -> & Hm & Hv).
    unfold media_id_to_gid; rewrite decode_value by exact Hm.
    rewrite Hv, hex_of_value by exact Hall.
    rewrite <- Hl; f_equal.
    apply (zfill_shortest HEX (conj eq_refl eq_refl) i Hall); lia.
Qed.

Lemma transcoder_round_trip_witness :
  public_round_trip "4uLU6hMCjMI75M1A2tKUQC" = Ok "4uLU6hMCjMI75M1A2tKUQC"
  /\ internal_round_trip "93bc414a606747b2b612491ef83d5a3e"
     = Ok "93bc414a606747b2b612491ef83d5a3e".
Proof.
  split.
  - apply (proj1 transcoder_round_trip "4uLU6hMCjMI75M1A2tKUQC");
      vm_compute; reflexivity.
  - apply (proj2 transcoder_round_trip "93bc414a606747b2b612491ef83d5a3e");
      vm_compute; reflexivity.
Defined.

(** C3 (as stated) fails: ["1"] is a non-empty base-62 string whose value
    fits in 128 bits, and the round trip returns it padded to 22 characters. *)
Lemma round_trip_short_identifier :
  valid_public "1" = true
  /\ media_id_to_gid "1" = Ok "00000000000000000000000000000001"
  /\ public_round_trip "1" = Ok "0000000000000000000001"
  /\ public_round_trip "1" <> Ok "1".
Proof. vm_compute; repeat split; discriminate. Qed.

(** *** What [int(.., 16)] accepts *)

Lemma int_raises s b e : Py.int s b = Raise e -> e = ValueError.
Proof.
  unfold Py.int.
  destruct (Py.skip_sign _) as [sg s2].
  destruct (Py.scan_digits b (Py.skip_prefix b s2) "000" 0 0) as [[[v [|n]] rest]|];
    [| destruct (negb _ && _); [|destruct (Py.skip_spaces rest)] |];
    destruct (Py.skip_prefix b s2) as [|[[] [] [] [] [] [] [] []] ?];
    congruence.
Qed.

Lemma skip_spaces_tokens s :
  Radix.all_chars Radix.int16_token (Py.skip_spaces s) = true ->
  Radix.all_chars Radix.int16_token s = true.
Proof.
  induction s as [|c s IH]; [reflexivity|]; cbn [Py.skip_spaces].
  destruct (Py.ISSPACE c) eqn:E; [|exact id].
  intros H; cbn [Radix.all_chars]; rewrite IH by exact H.
  unfold Radix.int16_token; now rewrite E.
Qed.

Lemma skip_spaces_empty s :
  Py.skip_spaces s = EmptyString -> Radix.all_chars Radix.int16_token s = true.
Proof. intros H; apply skip_spaces_tokens; now rewrite H. Qed.

Lemma skip_sign_tokens s sg r :
  Py.skip_sign s = (sg, r) ->
  Radix.all_chars Radix.int16_token r = true ->
  Radix.all_chars Radix.int16_token s = true.
Proof.
  destruct s as [|c s]; [intros [= <- <-]; exact id|].
  unfold Py.skip_sign.
  destruct c as [[] [] [] [] [] [] [] []]; intros [= <- <-]; try exact id;
    intros H; cbn [Radix.all_chars]; now rewrite H.
Qed.

Lemma skip_prefix_tokens s :
  Radix.all_chars Radix.int16_token (Py.skip_prefix 16 s) = true ->
  Radix.all_chars Radix.int16_token s = true.
Proof.
  destruct s as [|c [|x r]]; try exact id.
  - unfold Py.skip_prefix; now destruct c as [[] [] [] [] [] [] [] []].
  - assert (E : Py.skip_prefix 16 (String c (String x r)) = String c (String x r)
                \/ (c = "0"%char /\ (x = "x"%char \/ x = "X"%char)
                    /\ (Py.skip_prefix 16 (String c (String x r)) = r
                        \/ exists r', r = String "_" r'
                             /\ Py.skip_prefix 16 (String c (String x r)) = r'))).
    { unfold Py.skip_prefix.
      destruct (Ascii.eqb_spec c "0") as [->|Hc];
        [|left; now destruct c as [[] [] [] [] [] [] [] []]].
      cbn [Z.eqb Pos.eqb andb orb].
      destruct (Ascii.eqb_spec x "x") as [->|Hx];
        [|destruct (Ascii.eqb_spec x "X") as [->|HX]];
        try (now left);
        right; (split; [reflexivity|]); (split; [auto|]);
        (destruct r as [|u r']; [now left|]);
        (destruct (Ascii.eqb_spec u "_") as [->|Hu];
         [right; eexists; split; reflexivity
         |left; now destruct u as [[] [] [] [] [] [] [] []]]). }
    destruct E as [->|(-> & Hx & [->|(r' & -> & ->)])]; [exact id| |];
      intros H; cbn [Radix.all_chars]; rewrite H;
      destruct Hx as [->| ->]; reflexivity.
Qed.

Lemma scan_digits_tokens s : forall prev v n v' n' rest,
  Py.scan_digits 16 s prev v n = Some (v', n', rest) ->
  Radix.all_chars Radix.int16_token rest = true ->
  Radix.all_chars Radix.int16_token s = true.
Proof.
  induction s as [|c s IH]; intros prev v n v' n' rest; cbn [Py.scan_digits].
  - destruct (Ascii.eqb prev "_"); [discriminate|]; now intros [= <- <- <-].
  - destruct (Ascii.eqb c "_") eqn:Eu.
    + destruct (Ascii.eqb prev "_"); [discriminate|].
      intros H Hr; cbn [Radix.all_chars]; rewrite (IH _ _ _ _ _ _ H Hr).
      unfold Radix.int16_token; rewrite Eu.
      now rewrite !orb_true_r.
    + destruct (Py.DigitValue c <? 16) eqn:Ed.
      * intros H Hr; cbn [Radix.all_chars]; rewrite (IH _ _ _ _ _ _ H Hr).
        unfold Radix.int16_token; rewrite Ed; now rewrite !orb_true_r.
      * destruct (Ascii.eqb prev "_"); [discriminate|]; now intros [= <- <- <-].
Qed.

Lemma normalise_tokens s :
  Radix.all_chars Radix.int16_token (Py.normalise s)
  = Radix.all_chars Radix.int16_char s.
Proof.
  induction s as [|c s IH]; [reflexivity|].
  cbn [Py.normalise Radix.all_chars]; now rewrite IH.
Qed.

(** Every character of a string that [int(.., 16)] accepts is white space,
    a sign, an underscore, [x], [X] or a hexadecimal digit. *)
Lemma int_accepts_tokens s v :
  Py.int s 16 = Ok v -> Radix.all_chars Radix.int16_char s = true.
Proof.
  unfold Py.int; change (Py.binary_base 16) with true; cbn [negb andb]; intros H.
  rewrite <- normalise_tokens; apply skip_spaces_tokens.
  destruct (Py.skip_sign _) as [sg s2] eqn:Es.
  apply (skip_sign_tokens _ _ _ Es), skip_prefix_tokens.
  destruct (Py.scan_digits 16 (Py.skip_prefix 16 s2) "000" 0 0)
    as [[[v' [|n]] rest]|] eqn:Esc.
  - destruct (Py.skip_prefix 16 s2) as [|[[] [] [] [] [] [] [] []] ?]; discriminate.
  - apply (scan_digits_tokens _ _ _ _ _ _ _ Esc), skip_spaces_empty.
    destruct (Py.skip_spaces rest); [reflexivity|].
    destruct (Py.skip_prefix 16 s2) as [|[[] [] [] [] [] [] [] []] ?]; discriminate.
  - destruct (Py.skip_prefix 16 s2) as [|[[] [] [] [] [] [] [] []] ?]; discriminate.
Qed.

Lemma encode_total n : exists e, base62.encode n base62.CHARSET_INVERTED = Ok e.
Proof.
  destruct (Z.le_gt_cases 0 n) as [Hn|Hn].
  - destruct (encode_numeral n Hn) as (e & He & _); eauto.
  - exists "0". unfold base62.encode, Py.digits.
    destruct (Py.bits n); cbn [Py.digits_loop];
      destruct (Z.ltb_spec 0 n); try lia; reflexivity.
Qed.

(** *** Hexadecimal digits in either case *)

Lemma hex_digit_facts c :
  Radix.hex_digit c = true ->
  Py.to_ascii_space c = c
  /\ Py.ISSPACE c = false
  /\ Ascii.eqb c "+" = false /\ Ascii.eqb c "-" = false
  /\ Ascii.eqb c "_" = false
  /\ Ascii.eqb c "x" = false /\ Ascii.eqb c "X" = false.
Proof.
  destruct c as [[] [] [] [] [] [] [] []]; vm_compute; intros H;
    first [discriminate H | repeat split].
Qed.

Lemma normalise_hex_digits s :
  Radix.all_chars Radix.hex_digit s = true -> Py.normalise s = s.
Proof.
  induction s as [|c s IH]; [reflexivity|]; cbn [Radix.all_chars Py.normalise].
  intros H; apply andb_true_iff in H as [Hc Hs]; rewrite IH by exact Hs.
  destruct (hex_digit_facts c Hc) as (-> & _); reflexivity.
Qed.

Lemma scan_hex_digits s : forall prev v n,
  Radix.all_chars Radix.hex_digit s = true -> Ascii.eqb prev "_" = false ->
  exists v', Py.scan_digits 16 s prev v n
             = Some (v', (n + String.length s)%nat, EmptyString).
Proof.
  induction s as [|c s IH]; intros prev v n H Hp; cbn [Py.scan_digits].
  - rewrite Hp; cbn [String.length]. exists v. now rewrite Nat.add_0_r.
  - cbn [Radix.all_chars] in H; apply andb_true_iff in H as [Hc Hs].
    destruct (hex_digit_facts c Hc) as (_ & _ & _ & _ & Hu & _).
    rewrite Hu. unfold Radix.hex_digit in Hc; rewrite Hc.
    destruct (IH c (v * 16 + Py.DigitValue c) (S n) Hs Hu) as (v' & ->).
    exists v'. cbn [String.length]. do 3 f_equal; lia.
Qed.

(** [int(.., 16)] reads every non-empty string of hexadecimal digits,
    whatever their case and their number. *)
Lemma int_hex_digits s :
  s <> EmptyString -> Radix.all_chars Radix.hex_digit s = true ->
  exists n, Py.int s 16 = Ok n.
Proof.
  intros Hne H; unfold Py.int; rewrite normalise_hex_digits by exact H.
  destruct s as [|c r]; [congruence|].
  pose proof H as H'; cbn [Radix.all_chars] in H'.
  apply andb_true_iff in H' as [Hc Hr].
  destruct (hex_digit_facts c Hc) as (_ & Hsp & Hplus & Hminus & Hu & _).
  assert (E1 : Py.skip_spaces (String c r) = String c r)
    by (cbn [Py.skip_spaces]; now rewrite Hsp).
  assert (E2 : Py.skip_sign (String c r) = (1, String c r)).
  { unfold Py.skip_sign.
    destruct c as [[] [] [] [] [] [] [] []]; try reflexivity; discriminate. }
  assert (E3 : Py.skip_prefix 16 (String c r) = String c r).
  { unfold Py.skip_prefix.
    destruct r as [|x r']; [now destruct c as [[] [] [] [] [] [] [] []]|].
    cbn [Radix.all_chars] in Hr; apply andb_true_iff in Hr as [Hx _].
    destruct (hex_digit_facts x Hx) as (_ & _ & _ & _ & _ & Hx1 & Hx2).
    rewrite Hx1, Hx2. now destruct c as [[] [] [] [] [] [] [] []]. }
  rewrite E1, E2, E3, not_underscore by assumption.
  destruct (scan_hex_digits (String c r) "000" 0 0 H eq_refl) as (v & ->).
  change (Py.binary_base 16) with true.
  cbn [Nat.add String.length Py.skip_spaces negb andb]. eauto.
Qed.

(** *** [int(.., 16)] on code points *)

Lemma int_rejects s :
  Radix.all_chars Radix.int16_char s = false -> Py.int s 16 = Raise ValueError.
Proof.
  intros H. destruct (Py.int s 16) as [n|e] eqn:E.
  - apply int_accepts_tokens in E; congruence.
  - f_equal; eapply int_raises, E.
Qed.

Lemma normalise_idempotent s : Py.normalise (Py.normalise s) = Py.normalise s.
Proof.
  induction s as [|c s IH]; [reflexivity|]; cbn [Py.normalise]; rewrite IH; f_equal.
  destruct c as [[] [] [] [] [] [] [] []]; reflexivity.
Qed.

Lemma int_normalise s b : Py.int (Py.normalise s) b = Py.int s b.
Proof. unfold Py.int; now rewrite normalise_idempotent. Qed.

Lemma to_string_of_string s : Unicode.to_string (Unicode.of_string s) = s.
Proof.
  induction s as [|c s IH]; [reflexivity|].
  cbn [Unicode.of_string list_ascii_of_string map Unicode.to_string].
  rewrite ascii_N_embedding. f_equal. exact IH.
Qed.

Section CodePoints.

Variable TODECIMAL : N -> option N.

(** Latin-1 has no decimal digit beyond the ASCII ones. *)
Hypothesis latin1 : forall ch, (127 <= ch < 256)%N -> TODECIMAL ch = None.

(** What the transformation does to a Latin-1 character. *)
Lemma latin1_char c :
  let ch := N_of_ascii c in
  ((ch <? 127)%N = true /\ Py.to_ascii_space c = c)
  \/ ((ch <? 127)%N = false /\ Unicode.ISSPACE ch = true
      /\ Py.to_ascii_space c = " "%char)
  \/ ((ch <? 127)%N = false /\ Unicode.ISSPACE ch = false
      /\ (127 <= ch < 256)%N /\ Radix.int16_char c = false).
Proof.
  destruct c as [[] [] [] [] [] [] [] []]; cbv zeta;
    first [ left; split; vm_compute; reflexivity
          | right; left; repeat split; vm_compute; reflexivity
          | right; right; repeat split; vm_compute; congruence ].
Qed.

Lemma transform_latin1 s :
  Unicode.transform TODECIMAL (Unicode.of_string s) = Py.normalise s
  \/ (Radix.all_chars Radix.int16_char
        (Unicode.transform TODECIMAL (Unicode.of_string s)) = false
      /\ Radix.all_chars Radix.int16_char s = false).
Proof.
  induction s as [|c s IH]; [now left|].
  cbn [Unicode.of_string list_ascii_of_string map Unicode.transform Py.normalise
         Radix.all_chars].
  fold (Unicode.of_string s).
  destruct (latin1_char c) as [(E & Hc)|[(E & Hs & Hc)|(E & Hs & Hr & Hc)]];
    cbv zeta in *; rewrite E.
  - rewrite ascii_N_embedding, Hc.
    destruct IH as [->|[H1 H2]]; [now left|right].
    cbn [Radix.all_chars]. now rewrite H1, H2, !andb_false_r.
  - rewrite Hs, Hc.
    destruct IH as [->|[H1 H2]]; [now left|right].
    cbn [Radix.all_chars]. now rewrite H1, H2, !andb_false_r.
  - rewrite Hs, (latin1 _ Hr), Hc. right. split; reflexivity.
Qed.

(** On a [str] of Latin-1 characters the two embeddings of
    [gid_to_media_id] agree. *)
Lemma gid_to_media_id_latin1 s :
  Unicode.gid_to_media_id TODECIMAL (Unicode.of_string s) = gid_to_media_id s.
Proof.
  unfold Unicode.gid_to_media_id, gid_to_media_id, Unicode.int, Unicode.ascii_text.
  replace (Py.int (if Unicode.is_ascii (Unicode.of_string s)
                   then Unicode.to_string (Unicode.of_string s)
                   else Unicode.transform TODECIMAL (Unicode.of_string s)) 16)
    with (Py.int s 16); [reflexivity|].
  destruct (Unicode.is_ascii (Unicode.of_string s)).
  - now rewrite to_string_of_string.
  - destruct (transform_latin1 s) as [->|[H1 H2]].
    + now rewrite int_normalise.
    + now rewrite (int_rejects _ H1), (int_rejects _ H2).
Qed.

End CodePoints.

(** A string of decimal digits beyond ASCII is turned into the ASCII digits
    of the same values. *)
Lemma transform_decimal TODECIMAL g :
  (forall ch, In ch g ->
     (128 <= ch)%N /\ Unicode.ISSPACE ch = false
     /\ exists d, TODECIMAL ch = Some d /\ (d <= 9)%N) ->
  Radix.all_in Py.HEXDIGITS (Unicode.transform TODECIMAL g) = true
  /\ (g <> [] -> Unicode.transform TODECIMAL g <> EmptyString
                 /\ Unicode.is_ascii g = false).
Proof.
  induction g as [|ch g IH]; intros H; [split; [reflexivity|congruence]|].
  destruct (H ch (or_introl eq_refl)) as (Hch & Hsp & d & Hd & Hd9).
  destruct IH as [IH _]; [intros c Hc; apply H; now right|].
  cbn [Unicode.transform Unicode.is_ascii forallb].
  destruct (N.ltb_spec ch 127) as [|_]; [lia|].
  destruct (N.ltb_spec ch 128) as [|_]; [lia|].
  rewrite Hsp, Hd. cbn [Radix.all_in andb]. rewrite IH, andb_true_r.
  split; [|intros _; split; [discriminate|reflexivity]].
  assert (Hcases : (d = 0 \/ d = 1 \/ d = 2 \/ d = 3 \/ d = 4 \/ d = 5 \/ d = 6
                    \/ d = 7 \/ d = 8 \/ d = 9)%N) by lia.
  repeat (destruct Hcases as [->|Hcases]; [reflexivity|]). now subst d.
Qed.

Section TranscoderErrors.

Variable TODECIMAL : N -> option N.

(** C2 (as amended).  A public identifier with a character outside the
    base-62 alphabet makes [media_id_to_gid] fail with [ValueError].  An
    internal identifier makes [gid_to_media_id] fail with [ValueError] when
    the text that [int] parses, in which the white space and the decimal
    digits of all scripts have been replaced by a blank and by ASCII digits,
    has a character that is neither a hexadecimal digit, white space, a
    sign, an underscore nor [x]; on Latin-1 characters that is the
    identifier itself.  Decimal digits beyond ASCII are read as digits.
    [ValueError] is the only exception either direction raises.  There is no
    bound on the value: every base-62 string and every non-empty string of
    hexadecimal digits, in either case, is converted, and a public
    identifier worth [2 ^ 128] or more gives an internal identifier of more
    than 32 characters. *)
Theorem transcoder_errors :
  (forall m, Radix.all_in base62.CHARSET_INVERTED m = false ->
             media_id_to_gid m = Raise ValueError)
  /\ (forall g, Radix.all_chars Radix.int16_char (Unicode.ascii_text TODECIMAL g)
                = false ->
                Unicode.gid_to_media_id TODECIMAL g = Raise ValueError)
  /\ ((forall ch, (127 <= ch < 256)%N -> TODECIMAL ch = None) ->
      forall g,
        Unicode.gid_to_media_id TODECIMAL (Unicode.of_string g) = gid_to_media_id g
        /\ (Radix.all_chars Radix.int16_char g = false ->
            gid_to_media_id g = Raise ValueError))
  /\ (forall g,
        g <> [] ->
        (forall ch, In ch g ->
           (128 <= ch)%N /\ Unicode.ISSPACE ch = false
           /\ exists d, TODECIMAL ch = Some d /\ (d <= 9)%N) ->
        exists m, Unicode.gid_to_media_id TODECIMAL g = Ok m)
  /\ (forall g e,
        (Unicode.gid_to_media_id TODECIMAL g = Raise e -> e = ValueError)
        /\ (forall s, gid_to_media_id s = Raise e -> e = ValueError))
  /\ (forall m, Radix.all_in base62.CHARSET_INVERTED m = true ->
                exists g, media_id_to_gid m = Ok g
                          /\ (2 ^ 128 <= Radix.value 62 base62.CHARSET_INVERTED m
                              -> 32 < Py.len g))
  /\ (forall g, g <> EmptyString -> Radix.all_chars Radix.hex_digit g = true ->
                exists m, gid_to_media_id g = Ok m).
Proof.
  assert (Hgid : forall g e, gid_to_media_id g = Raise e -> e = ValueError).
  { intros g e; unfold gid_to_media_id.
    destruct (Py.int g 16) as [n|e0] eqn:E.
    - destruct (encode_total n) as (s & ->); discriminate.
    - intros [= <-]; eapply int_raises, E. }
  assert (Hugid : forall g e,
            Unicode.gid_to_media_id TODECIMAL g = Raise e -> e = ValueError).
  { intros g e; unfold Unicode.gid_to_media_id, Unicode.int.
    destruct (Py.int _ 16) as [n|e0] eqn:E.
    - destruct (encode_total n) as (s & ->); discriminate.
    - intros [= <-]; eapply int_raises, E. }
  split; [|split; [|split; [|split; [|split; [|split]]]]].
  - intros m H; unfold media_id_to_gid, base62.decode.
    now rewrite decode_loop_invalid.
  - intros g H. unfold Unicode.gid_to_media_id, Unicode.int.
    now rewrite (int_rejects _ H).
  - intros Hlatin g. split; [exact (gid_to_media_id_latin1 TODECIMAL Hlatin g)|].
    intros H. unfold gid_to_media_id. now rewrite (int_rejects _ H).
  - intros g Hne Hdigits.
    destruct (transform_decimal TODECIMAL g Hdigits) as [Hall Hg].
    destruct (Hg Hne) as [Hne' Hascii].
    unfold Unicode.gid_to_media_id, Unicode.int, Unicode.ascii_text.
    rewrite Hascii, (int_hex _ Hall Hne').
    destruct (encode_total (Radix.value 16 Py.HEXDIGITS
                              (Unicode.transform TODECIMAL g))) as (s & ->).
    eauto.
  - intros g e; split; [apply Hugid|intros s; apply Hgid].
  - intros m H.
    destruct (media_id_to_gid_value m H) as (g & Hg & Hall & Hv & _).
    exists g; split; [exact Hg|]; intros Hbig.
    pose proof (value_range 16 Py.HEXDIGITS two_le_16 eq_refl g Hall) as [_ Hup].
    rewrite Hv in Hup.
    assert (Hlt : 16 ^ 32 < 16 ^ Py.len g) by (change (16 ^ 32) with (2 ^ 128); lia).
    apply Z.pow_lt_mono_r_iff in Hlt; [exact Hlt|lia|apply len_nonneg].
  - intros g Hne H. unfold gid_to_media_id.
    destruct (int_hex_digits g Hne H) as (n & ->).
    destruct (encode_total n) as (s & ->). eauto.
Qed.

End TranscoderErrors.

(** C2 (as amended) on identifiers with a character that is no digit, on
    the Arabic-Indic digits one and two, on hexadecimal digits in upper
    case, and on an identifier of more than 128 bits. *)
Lemma transcoder_errors_witness :
  media_id_to_gid "4uLU6hMCjMI75M1A2tKU-C" = Raise ValueError
  /\ Unicode.gid_to_media_id Example.TODECIMAL [49%N; 1634%N; 103%N] = Raise ValueError
  /\ gid_to_media_id "93bc414a606747b2b612491ef83d5a3g" = Raise ValueError
  /\ (exists m, Unicode.gid_to_media_id Example.TODECIMAL [1633%N; 1634%N] = Ok m)
  /\ (exists g, media_id_to_gid "ZZZZZZZZZZZZZZZZZZZZZZ" = Ok g
                /\ (2 ^ 128 <= Radix.value 62 base62.CHARSET_INVERTED
                                 "ZZZZZZZZZZZZZZZZZZZZZZ" -> 32 < Py.len g))
  /\ (exists m, gid_to_media_id "193BC414A606747B2B612491EF83D5A3E" = Ok m).
Proof.
  destruct (transcoder_errors Example.TODECIMAL) as (H1 & H2 & H3 & H4 & _ & H6 & H7).
  assert (Hlatin : forall ch, (127 <= ch < 256)%N -> Example.TODECIMAL ch = None).
  { intros ch Hch. unfold Example.TODECIMAL.
    destruct (N.leb_spec 1632 ch); [lia|reflexivity]. }
  split; [|split; [|split; [|split; [|split]]]].
  - apply H1; vm_compute; reflexivity.
  - apply H2; vm_compute; reflexivity.
  - apply (H3 Hlatin); vm_compute; reflexivity.
  - apply H4; [discriminate|].
    intros ch [<-|[<-|[]]]; (split; [lia|]); (split; [reflexivity|]);
      eexists; (split; [reflexivity|lia]).
  - apply H6; vm_compute; reflexivity.
  - apply H7; [discriminate|vm_compute; reflexivity].
Defined.

(** C2 (as stated) fails: 22 times [Z] is a base-62 string worth more than
    [2 ^ 128], and [media_id_to_gid] returns a 33-character value for it; a
    character outside the alphabet raises the built-in [ValueError], and no
    [InvalidIdentifier]. *)
Lemma transcoder_accepts_overflow :
  2 ^ 128 <= Radix.value 62 base62.CHARSET_INVERTED "ZZZZZZZZZZZZZZZZZZZZZZ"
  /\ media_id_to_gid "ZZZZZZZZZZZZZZZZZZZZZZ"
     = Ok "7f520034c430770c424528c66503fffff"
  /\ gid_to_media_id "7f520034c430770c424528c66503fffff"
     = Ok "ZZZZZZZZZZZZZZZZZZZZZZ"
  /\ media_id_to_gid "4uLU6hMCjMI75M1A2tKU-C" = Raise ValueError
  /\ class_name ValueError <> "InvalidIdentifier".
Proof. vm_compute; repeat split; discriminate. Qed.

(** ** Session manager *)

Local Open Scope list_scope.

Section SessionManager.

Variable json_loads : string -> option JSON.
Variable py_repr : JSON -> string.

(** The specification's names for the two operations of the session
    manager. *)
Local Abbreviation bootstrap := (_set_session_auth json_loads py_repr).
Local Abbreviation ensure_valid := (_refresh_session_auth json_loads py_repr).

Lemma kept_refl st : kept st st.
Proof. repeat split. Qed.

Lemma kept_trans st1 st2 st3 : kept st1 st2 -> kept st2 st3 -> kept st1 st3.
Proof.
  intros (A1 & B1 & C1 & D1) (A2 & B2 & C2 & D2); repeat split; try congruence.
  intros name Hn; rewrite B2, B1 by exact Hn; reflexivity.
Qed.

Lemma session_request_cases m u d st :
  let req := request_of st m u d in
  (exists r dt, answer st req = Replied r dt
                /\ session_request m u d st = (Ok r, after_reply st req r dt))
  \/ (exists e dt, answer st req = Failed e dt
                   /\ session_request m u d st = (Raise e, after_failure st req dt)).
Proof.
  intros req; unfold session_request; fold req.
  destruct (answer st req) as [r dt|e dt]; [left|right]; eauto.
Qed.

(** The landing page is fetched with one request, whatever comes of it. *)
Lemma get_home_page_sent st :
  sent (world (snd (get_home_page st))) = sent (world st) ++ [home_request st].
Proof.
  unfold get_home_page, session_get, bind, lift, ret.
  destruct (session_request_cases GET SPOTIFY_HOME_PAGE_URL None st)
    as [(r & dt & _ & ->)|(e & dt & _ & ->)]; [|reflexivity].
  cbn [fst snd]. destruct (check_response r); reflexivity.
Qed.

Lemma get_home_page_headers st :
  headers (session (self (snd (get_home_page st)))) = headers (session (self st))
  /\ kept st (snd (get_home_page st))
  /\ session_info (self (snd (get_home_page st))) = session_info (self st)
  /\ config_info (self (snd (get_home_page st))) = config_info (self st).
Proof.
  unfold get_home_page, session_get, bind, lift, ret.
  destruct (session_request_cases GET SPOTIFY_HOME_PAGE_URL None st)
    as [(r & dt & _ & ->)|(e & dt & _ & ->)].
  - destruct (check_response r); repeat split.
  - repeat split.
Qed.


Local Abbreviation install := (install json_loads py_repr).

Lemma bootstrap_install st :
  bootstrap st
  = match get_home_page st with
    | (Ok home_page, st1) => install home_page st1
    | (Raise e, st1) => (Raise e, st1)
    end.
Proof.
  unfold _set_session_auth, bind at 1.
  destruct (get_home_page st) as [[home_page|e] st1]; [|reflexivity].
  unfold install, bind, lift, ret, group1, loads, set_self, get_state.
  destruct (re.search (script_tag "session") SCRIPT_END home_page); [|reflexivity].
  destruct (json_loads _); [|reflexivity].
  destruct (re.search (script_tag "config") SCRIPT_END home_page); [|reflexivity].
  destruct (json_loads _); [|reflexivity].
  cbn [self session_info set_config_info set_session_info].
  destruct (Json.getitem _ _); reflexivity.
Qed.

(** [install] sends nothing and writes [session_info], [config_info] and
    the [Authorization] header only. *)
Lemma install_frame home_page st :
  let st' := snd (install home_page st) in
  kept st st'
  /\ world st' = world st
  /\ cookies (session (self st')) = cookies (session (self st)).
Proof.
  cbv zeta; unfold install.
  destruct (re.search (script_tag "session") SCRIPT_END home_page);
    [|repeat split].
  destruct (json_loads _); [|repeat split].
  destruct (re.search (script_tag "config") SCRIPT_END home_page);
    [|repeat split].
  destruct (json_loads _); [|repeat split].
  destruct (Json.getitem _ _); [|repeat split].
  cbn; repeat split.
  intros name Hn. apply lookup_insert_ne. exact (not_eq_sym Hn).
Qed.

Lemma get_home_page_cases st :
  let req := home_request st in
  (exists r dt, answer st req = Replied r dt /\ success r = true
                /\ get_home_page st = (Ok (body r), after_reply st req r dt))
  \/ (exists r dt, answer st req = Replied r dt /\ success r = false
                   /\ get_home_page st
                      = (Raise (RemoteRequestFailed (status_code r) (body r)),
                         after_reply st req r dt))
  \/ (exists e dt, answer st req = Failed e dt
                   /\ get_home_page st = (Raise e, after_failure st req dt)).
Proof.
  intros req; unfold get_home_page, session_get, bind, lift, ret.
  destruct (session_request_cases GET SPOTIFY_HOME_PAGE_URL None st)
    as [(r & dt & Ha & ->)|(e & dt & Ha & ->)].
  - unfold check_response. destruct (success r) eqn:Es; [left|right; left];
      exists r, dt; auto.
  - right; right; exists e, dt; auto.
Qed.

(** A bootstrap sends exactly one request, for the landing page; it keeps
    the cookie path, the other headers and the cache, and the cookie jar but
    for the cookies that the landing page sets. *)
Lemma bootstrap_frame st :
  let st' := snd (bootstrap st) in
  kept st st'
  /\ sent (world st') = sent (world st) ++ [home_request st]
  /\ (cookies (session (self st')) = cookies (session (self st))
      \/ exists r dt, answer st (home_request st) = Replied r dt
           /\ cookies (session (self st'))
              = extract_cookies (cookies (session (self st))) (set_cookies r)).
Proof.
  cbv zeta; rewrite bootstrap_install.
  pose proof (get_home_page_sent st) as Hs.
  pose proof (get_home_page_headers st) as (_ & Hk & _).
  destruct (get_home_page_cases st)
    as [(r & dt & Ha & _ & E)|[(r & dt & Ha & _ & E)|(e & dt & Ha & E)]];
    rewrite E in *; cbn [snd] in *.
  - destruct (install_frame (body r) (after_reply st (home_request st) r dt))
      as (Hk' & Hw & Hc).
    split; [exact (kept_trans _ _ _ Hk Hk')|].
    split; [rewrite Hw; exact Hs|].
    right; exists r, dt; split; [exact Ha|]. rewrite Hc; reflexivity.
  - split; [exact Hk|]. split; [exact Hs|].
    right; exists r, dt; split; [exact Ha|reflexivity].
  - split; [exact Hk|]. split; [exact Hs|]. left; reflexivity.
Qed.

(** What a successful bootstrap installs. *)
Lemma bootstrap_installs st st' :
  bootstrap st = (Ok tt, st') ->
  exists r dt session_blob config_blob token,
    answer st (home_request st) = Replied r dt
    /\ re.search (script_tag "session") SCRIPT_END (body r) = Some session_blob
    /\ re.search (script_tag "config") SCRIPT_END (body r) = Some config_blob
    /\ json_loads session_blob = Some (session_info (self st'))
    /\ json_loads config_blob = Some (config_info (self st'))
    /\ Json.getitem (session_info (self st')) "accessToken" = Ok token
    /\ authorization st'
       = Some ("Authorization", ("Bearer " ++ format_value py_repr token)%string).
Proof.
  rewrite bootstrap_install.
  destruct (get_home_page_cases st)
    as [(r & dt & Ha & _ & E)|[(r & dt & Ha & _ & E)|(e & dt & Ha & E)]];
    rewrite E; [|discriminate..].
  unfold install.
  destruct (re.search (script_tag "session") SCRIPT_END (body r)) as [sb|] eqn:Es;
    [|discriminate].
  destruct (json_loads sb) as [info|] eqn:Ei; [|discriminate].
  destruct (re.search (script_tag "config") SCRIPT_END (body r)) as [cb|] eqn:Ec;
    [|discriminate].
  destruct (json_loads cb) as [config|] eqn:Ej; [|discriminate].
  destruct (Json.getitem info "accessToken") as [token|] eqn:Et; [|discriminate].
  intros [= <-]. exists r, dt, sb, cb, token.
  repeat split; try assumption.
  unfold authorization; cbn. apply lookup_insert_eq.
Qed.

(** [ensure_valid] reads the clock and the stored expiry, and renews or
    returns. *)
Lemma ensure_valid_cases st expire :
  token_expiry (self st) = Ok expire ->
  ensure_valid st
  = if clock (world st) <? expire then (Ok tt, st) else bootstrap st.
Proof.
  unfold token_expiry, _refresh_session_auth, bind, lift, get_state, time_ms,
    bind_result, ret.
  destruct (Json.getitem _ _) as [v|]; [|discriminate].
  intros ->. destruct (clock (world st) <? expire); reflexivity.
Qed.

Lemma ensure_valid_raises st e :
  token_expiry (self st) = Raise e -> ensure_valid st = (Raise e, st).
Proof.
  unfold token_expiry, _refresh_session_auth, bind, lift, get_state, time_ms,
    bind_result, ret.
  destruct (Json.getitem _ _) as [v|]; [|now intros [= ->]].
  now intros ->.
Qed.

Lemma fetch_json_sent u st :
  sent (world (snd (fetch_json json_loads u st)))
  = sent (world st) ++ [request_of st GET u None].
Proof.
  unfold fetch_json, session_get, bind, lift.
  destruct (session_request_cases GET u None st)
    as [(r & dt & _ & ->)|(e & dt & _ & ->)]; [|reflexivity].
  destruct (check_response r); reflexivity.
Qed.




(** C8 (as amended).  When the landing page lacks the session blob or the
    config blob, the bootstrap fails and nothing else is tried: the landing
    page request is the only one, and the [Authorization] header is not
    touched.  The failure is no condition of its own: it is the
    [AttributeError] of taking [group(1)] of a search that found nothing,
    raised at once for a missing session blob, and for a missing config blob
    after the session blob has been decoded and stored (a session blob that
    is not JSON raises [JSONDecodeError] before the config blob is searched
    for). *)
Theorem bootstrap_missing_blob st r dt :
  answer st (home_request st) = Replied r dt ->
  success r = true ->
  re.search (script_tag "session") SCRIPT_END (body r) = None
  \/ re.search (script_tag "config") SCRIPT_END (body r) = None ->
  exists e st',
    bootstrap st = (Raise e, st')
    /\ sent (world st') = sent (world st) ++ [home_request st]
    /\ authorization st' = authorization st
    /\ (re.search (script_tag "session") SCRIPT_END (body r) = None ->
        e = AttributeError /\ st' = after_reply st (home_request st) r dt)
    /\ (forall blob,
          re.search (script_tag "session") SCRIPT_END (body r) = Some blob ->
          match json_loads blob with
          | Some info =>
              e = AttributeError
              /\ st' = with_session_info info (after_reply st (home_request st) r dt)
          | None =>
              e = JSONDecodeError /\ st' = after_reply st (home_request st) r dt
          end).
Proof.
  intros Ha Hok Hmiss.
  destruct (bootstrap_frame st) as (_ & Hs & _).
  rewrite bootstrap_install in *.
  destruct (get_home_page_cases st)
    as [(r' & dt' & Ha' & _ & E)|[(r' & dt' & Ha' & Hno & E)|(e & dt' & Ha' & E)]];
    rewrite Ha in Ha'; try discriminate; injection Ha' as <- <-;
    [|congruence].
  rewrite E in *; clear E; unfold install in *.
  destruct (re.search (script_tag "session") SCRIPT_END (body r)) as [sb|] eqn:Es.
  - destruct Hmiss as [Hmiss|Hmiss]; [discriminate|].
    destruct (json_loads sb) as [info|] eqn:Ei.
    + rewrite Hmiss in *. eexists _, _; split; [reflexivity|].
      repeat split; try exact Hs; try discriminate.
      intros blob [= <-]; rewrite Ei; split; reflexivity.
    + eexists _, _; split; [reflexivity|].
      repeat split; try exact Hs; try discriminate.
      intros blob [= <-]; rewrite Ei; split; reflexivity.
  - eexists _, _; split; [reflexivity|].
    repeat split; try exact Hs; try discriminate.
Qed.

(** Whatever [ensure_valid] does, it keeps what a request keeps, and it
    sends nothing or the one request for the landing page. *)
Lemma ensure_valid_kept st :
  kept st (snd (ensure_valid st))
  /\ (snd (ensure_valid st) = st
      \/ sent (world (snd (ensure_valid st))) = sent (world st) ++ [home_request st]).
Proof.
  destruct (token_expiry (self st)) as [expire|e] eqn:He.
  - rewrite (ensure_valid_cases st expire He).
    destruct (clock (world st) <? expire).
    + cbn [snd]; split; [apply kept_refl|now left].
    + destruct (bootstrap_frame st) as (Hk & Hs & _).
      split; [exact Hk|right; exact Hs].
  - rewrite (ensure_valid_raises st e He); cbn [snd].
    split; [apply kept_refl|now left].
Qed.


(** *** Resource fetchers *)

(** C5.  With a valid session, a 404 for the lyrics of a track makes
    [get_lyrics] return [None] (the value [JNull]); a 404 for the track
    itself makes [get_track] raise [RemoteRequestFailed]. *)
Theorem not_found_lyrics_and_track st st1 track_id r dt :
  ensure_valid st = (Ok tt, st1) ->
  status_code r = 404 ->
  (answer st1 (request_of st1 GET (LYRICS_API_URL track_id) None) = Replied r dt ->
   get_lyrics json_loads py_repr track_id st
   = (Ok JNull,
      after_reply st1 (request_of st1 GET (LYRICS_API_URL track_id) None) r dt))
  /\ (answer st1 (request_of st1 GET (METADATA_API_URL "tracks" track_id) None)
      = Replied r dt ->
      get_track json_loads py_repr track_id st
      = (Raise (RemoteRequestFailed 404 (body r)),
         after_reply st1
           (request_of st1 GET (METADATA_API_URL "tracks" track_id) None) r dt)).
Proof.
  intros Hv H404; split; intros Ha.
  - unfold get_lyrics, bind at 1; rewrite Hv.
    unfold bind, session_get, session_request; rewrite Ha, H404; reflexivity.
  - unfold get_track, bind at 1; rewrite Hv.
    unfold bind, session_get, session_request, lift, check_response, success.
    rewrite Ha, H404; reflexivity.
Qed.

End SessionManager.

(** ** Collection extender *)

Section Extender.

Variable json_loads : string -> option JSON.

Local Abbreviation next := (gen_next json_loads).
Local Abbreviation pull := (drain json_loads).
Local Abbreviation chain := (page_chain json_loads).

Lemma gen_loop_page st u r dt page :
  answer st (request_of st GET u None) = Replied r dt ->
  success r = true ->
  json_loads (body r) = Some page ->
  gen_loop json_loads (JStr u) st
  = (Ok (Some page), GenSuspended page,
     after_reply st (request_of st GET u None) r dt).
Proof.
  intros Ha Hs Hj.
  unfold gen_loop, session_get_value, session_get, session_request, bind, lift,
    check_response, response_json, loads.
  cbn [Json.is_not_None]. rewrite Ha, Hs, Hj. reflexivity.
Qed.

Lemma pull_chain st next_url pages st' :
  chain st next_url pages st' ->
  forall fuel g st0,
    (length pages < fuel)%nat ->
    next g st0 = gen_loop json_loads next_url st ->
    pull fuel g st0 = Some (pages, Ok tt, GenDone, st').
Proof.
  induction 1 as [st|st u r dt page next_url pages st' Ha Hs Hj Hn Hc IH];
    intros [|fuel] g st0 Hf Hg; cbn [length] in Hf; try lia;
    cbn [drain]; rewrite Hg.
  - reflexivity.
  - rewrite (gen_loop_page st u r dt page Ha Hs Hj).
    rewrite (IH fuel (GenSuspended page)
               (after_reply st (request_of st GET u None) r dt));
      [reflexivity|lia|].
    cbn [gen_next]. now rewrite Hn.
Qed.

Lemma chain_sent st next_url pages st' :
  chain st next_url pages st' ->
  length (sent (world st')) = (length (sent (world st)) + length pages)%nat.
Proof.
  induction 1 as [st|st u r dt page next_url pages st' Ha Hs Hj Hn Hc IH].
  - cbn [length]; lia.
  - rewrite IH; cbn [snd sleep set_world world sent after_reply record_request length].
    rewrite length_app; cbn [length]; lia.
Qed.

(** One step of the generator sends one request when it yields a page, at
    most one when it raises, none when it stops; after an exception and
    after the last page the generator is finished. *)
Lemma gen_loop_step next_url st :
  match gen_loop json_loads next_url st with
  | (Ok (Some _), _, st') =>
      length (sent (world st')) = (length (sent (world st)) + 1)%nat
  | (Ok None, g', st') => g' = GenDone /\ st' = st
  | (Raise _, g', st') =>
      g' = GenDone
      /\ (length (sent (world st)) <= length (sent (world st'))
                                   <= length (sent (world st)) + 1)%nat
  end.
Proof.
  unfold gen_loop. destruct (Json.is_not_None next_url); [|now split].
  unfold session_get_value, bind, lift, raise.
  destruct next_url as [| | |u| |]; try (split; [reflexivity|lia]).
  unfold session_get.
  destruct (session_request_cases GET u None st)
    as [(r & dt & _ & ->)|(e & dt & _ & ->)].
  - destruct (check_response r); [destruct (response_json json_loads r)|];
      cbn; rewrite length_app; cbn; first [lia|split; [reflexivity|lia]].
  - cbn; rewrite length_app; cbn; split; [reflexivity|lia].
Qed.

Lemma next_step g st :
  match next g st with
  | (Ok (Some _), _, st') =>
      length (sent (world st')) = (length (sent (world st)) + 1)%nat
  | (Ok None, g', st') => g' = GenDone /\ sent (world st') = sent (world st)
  | (Raise _, g', st') =>
      g' = GenDone
      /\ (length (sent (world st)) <= length (sent (world st'))
                                   <= length (sent (world st)) + 1)%nat
  end.
Proof.
  destruct g as [tc mt|ec|]; cbn [gen_next].
  - destruct (bind_result _ _) as [next_url|e]; [|split; [reflexivity|lia]].
    pose proof (gen_loop_step next_url st) as H.
    destruct (gen_loop json_loads next_url st) as [[[[p|]|e] g'] st']; try exact H.
    destruct H as [-> ->]; now split.
  - destruct (Json.getitem ec "next") as [next_url|e]; [|split; [reflexivity|lia]].
    pose proof (gen_loop_step next_url
                  (snd (sleep EXTEND_TRACK_COLLECTION_WAIT_TIME st))) as H.
    destruct (gen_loop json_loads next_url _) as [[[[p|]|e] g'] st']; try exact H.
    destruct H as [-> ->]; now split.
  - now split.
Qed.

(** A step of the generator never renews the token: it leaves
    [session_info] and the headers as they are. *)
Lemma next_keeps_session g st :
  session_info (self (snd (next g st))) = session_info (self st)
  /\ headers (session (self (snd (next g st)))) = headers (session (self st)).
Proof.
  assert (Hloop : forall next_url st0,
            session_info (self (snd (gen_loop json_loads next_url st0)))
            = session_info (self st0)
            /\ headers (session (self (snd (gen_loop json_loads next_url st0))))
               = headers (session (self st0))).
  { intros next_url st0; unfold gen_loop.
    destruct (Json.is_not_None next_url); [|now split].
    unfold session_get_value, bind, lift, raise.
    destruct next_url as [| | |u| |]; try (now split).
    unfold session_get.
    destruct (session_request_cases GET u None st0)
      as [(r & dt & _ & ->)|(e & dt & _ & ->)]; [|now split].
    destruct (check_response r); [destruct (response_json json_loads r)|];
      now split. }
  destruct g as [tc mt|ec|]; cbn [gen_next]; [| |now split].
  - destruct (bind_result _ _); [apply Hloop|now split].
  - destruct (Json.getitem ec "next"); [|now split].
    apply (Hloop _ (snd (sleep EXTEND_TRACK_COLLECTION_WAIT_TIME st))).
Qed.

Lemma pull_failure fuel : forall g st pages e g' st',
  pull fuel g st = Some (pages, Raise e, g', st') ->
  g' = GenDone
  /\ (length (sent (world st')) <= length (sent (world st)) + length pages + 1)%nat.
Proof.
  induction fuel as [|fuel IH]; intros g st pages e g' st'; cbn [drain];
    [discriminate|].
  pose proof (next_step g st) as Hstep.
  destruct (next g st) as [[[[p|]|e0] g1] st1].
  - destruct (pull fuel g1 st1) as [[[[ps r] g2] st2]|] eqn:Ep; [|discriminate].
    intros [= <- -> -> ->].
    destruct (IH _ _ _ _ _ _ Ep) as [-> Hl].
    split; [reflexivity|]. cbn [length]; lia.
  - discriminate.
  - intros [= <- <- <- <-]. cbn [length]; destruct Hstep; split; [assumption|lia].
Qed.

(** A fetch that fails makes the loop of the generator raise, after the one
    request for the page. *)
Lemma gen_loop_fails st u e st' :
  fetch_fails json_loads st u e st' ->
  gen_loop json_loads (JStr u) st = (Raise e, GenDone, st')
  /\ sent (world st') = sent (world st) ++ [request_of st GET u None].
Proof.
  unfold gen_loop, session_get_value, session_get, session_request, bind, lift,
    response_json, loads; cbn [Json.is_not_None].
  intros [st0 u0 e0 dt Ha|st0 u0 r dt e0 Ha Hc|st0 u0 r dt Ha Hc Hj].
  - rewrite Ha. split; reflexivity.
  - rewrite Ha, Hc. split; reflexivity.
  - rewrite Ha, Hc, Hj. split; reflexivity.
Qed.

Lemma pull_broken_chain st next_url pages e st' :
  broken_chain json_loads st next_url pages e st' ->
  (forall fuel g st0,
     (length pages < fuel)%nat ->
     next g st0 = gen_loop json_loads next_url st ->
     pull fuel g st0 = Some (pages, Raise e, GenDone, st'))
  /\ length (sent (world st'))
     = (length (sent (world st)) + length pages + 1)%nat.
Proof.
  induction 1 as [st u e st' Hf
                 |st u r dt page next_url pages e st' Ha Hs Hj Hn Hc [IH1 IH2]].
  - destruct (gen_loop_fails st u e st' Hf) as [Hg Hsent]. split.
    + intros [|fuel] g st0 Hl Hnext; cbn [length] in Hl; [lia|].
      cbn [drain]. now rewrite Hnext, Hg.
    + rewrite Hsent, length_app; cbn [length]; lia.
  - split.
    + intros [|fuel] g st0 Hl Hnext; cbn [length] in Hl; [lia|].
      cbn [drain]. rewrite Hnext, (gen_loop_page st u r dt page Ha Hs Hj).
      rewrite (IH1 fuel (GenSuspended page)
                 (after_reply st (request_of st GET u None) r dt));
        [reflexivity|lia|].
      cbn [gen_next]. now rewrite Hn.
    + rewrite IH2; cbn [snd sleep set_world world sent after_reply record_request length].
      rewrite length_app; cbn [length]; lia.
Qed.

(** C6.  On a finite chain of pages the extender yields exactly the pages
    of the chain, one request each, and stops at the first page without
    [next].  A fetch that fails, by a failure of the transport, an answer
    that [check_response] refuses or a body that is no JSON, makes the
    extender raise at once: the pages before it have been yielded, the
    failing page has been requested once and is not requested again.  When
    the extender raises, for whatever reason, the iteration is over: the
    generator never yields again nor sends anything. *)
Theorem extender_pages :
  (forall track_collection media_type next_url st pages st' fuel,
     bind_result (Json.getitem track_collection media_type)
                 (fun c => Json.getitem c "next") = Ok next_url ->
     chain st next_url pages st' ->
     (length pages < fuel)%nat ->
     pull fuel (extend_track_collection track_collection media_type) st
     = Some (pages, Ok tt, GenDone, st')
     /\ length (sent (world st'))
        = (length (sent (world st)) + length pages)%nat)
  /\ (forall track_collection media_type next_url st pages e st' fuel,
        bind_result (Json.getitem track_collection media_type)
                    (fun c => Json.getitem c "next") = Ok next_url ->
        broken_chain json_loads st next_url pages e st' ->
        (length pages < fuel)%nat ->
        pull fuel (extend_track_collection track_collection media_type) st
        = Some (pages, Raise e, GenDone, st')
        /\ length (sent (world st'))
           = (length (sent (world st)) + length pages + 1)%nat)
  /\ (forall st u e st',
        fetch_fails json_loads st u e st' ->
        gen_loop json_loads (JStr u) st = (Raise e, GenDone, st')
        /\ sent (world st') = sent (world st) ++ [request_of st GET u None])
  /\ (forall fuel g st pages e g' st',
        pull fuel g st = Some (pages, Raise e, g', st') ->
        g' = GenDone
        /\ (length (sent (world st'))
            <= length (sent (world st)) + length pages + 1)%nat
        /\ forall st'', next g' st'' = (Ok None, GenDone, st'')).
Proof.
  split; [|split; [|split]].
  - intros tc mt next_url st pages st' fuel Hn Hc Hf; split.
    + apply (pull_chain st next_url pages st' Hc); [exact Hf|].
      unfold extend_track_collection; cbn [gen_next]. now rewrite Hn.
    + apply (chain_sent _ _ _ _ Hc).
  - intros tc mt next_url st pages e st' fuel Hn Hc Hf.
    destruct (pull_broken_chain st next_url pages e st' Hc) as [Hp Hl].
    split; [|exact Hl]. apply Hp; [exact Hf|].
    unfold extend_track_collection; cbn [gen_next]. now rewrite Hn.
  - exact gen_loop_fails.
  - intros fuel g st pages e g' st' Hp.
    destruct (pull_failure fuel g st pages e g' st' Hp) as [-> Hl].
    repeat split; assumption.
Qed.

End Extender.

(** ** The cache of [get_album] *)

Lemma pyval_eqb_eq a b : pyval_eqb a b = true <-> a = b.
Proof.
  destruct a as [s|x], b as [t|y]; cbn [pyval_eqb]; try (split; congruence).
  - rewrite String.eqb_eq; split; congruence.
  - rewrite Bool.eqb_true_iff; split; congruence.
Qed.

Lemma list_eqb_eq {A} (eqb : A -> A -> bool) :
  (forall a b, eqb a b = true <-> a = b) ->
  forall l m, list_eqb eqb l m = true <-> l = m.
Proof.
  intros H; induction l as [|x l IH]; intros [|y m]; cbn [list_eqb];
    try (split; congruence).
  rewrite andb_true_iff, H, IH; split; [intros [-> ->]|intros [= -> ->]]; auto.
Qed.

Lemma key_eqb_eq c d : key_eqb c d = true <-> c = d.
Proof.
  unfold key_eqb. rewrite andb_true_iff.
  rewrite (list_eqb_eq pyval_eqb pyval_eqb_eq).
  rewrite (list_eqb_eq (fun p q => String.eqb (fst p) (fst q) && pyval_eqb (snd p) (snd q))).
  - destruct c, d; cbn; split; [intros [-> ->]|intros [= -> ->]]; auto.
  - intros [k v] [k' v']; cbn. rewrite andb_true_iff, String.eqb_eq, pyval_eqb_eq.
    split; [intros [-> ->]|intros [= -> ->]]; auto.
Qed.

Lemma key_eqb_refl c : key_eqb c c = true.
Proof. now apply key_eqb_eq. Qed.

Lemma cache_lookup_app k a b :
  cache_lookup k (a ++ b)
  = match cache_lookup k a with Some v => Some v | None => cache_lookup k b end.
Proof.
  induction a as [|[k' v] a IH]; [reflexivity|]; cbn [app cache_lookup].
  destruct (key_eqb k' k); [reflexivity|exact IH].
Qed.

Lemma cache_lookup_last k v : cache_lookup k [(k, v)] = Some v.
Proof. cbn [cache_lookup]; now rewrite key_eqb_refl. Qed.

Lemma cache_lookup_touch k v cache : cache_lookup k (cache_touch k v cache) = Some v.
Proof.
  unfold cache_touch; rewrite cache_lookup_app, cache_lookup_last.
  replace (cache_lookup k (List.filter _ cache)) with (@None JSON); [reflexivity|].
  induction cache as [|[k' v'] cache IH]; [reflexivity|]; cbn [List.filter fst].
  destruct (key_eqb k' k) eqn:E; cbn [negb]; [exact IH|].
  cbn [cache_lookup]; now rewrite E.
Qed.

Lemma cache_lookup_tl k cache :
  cache_lookup k cache = None -> cache_lookup k (tl cache) = None.
Proof.
  destruct cache as [|[k' v] cache]; [auto|]; cbn [tl cache_lookup].
  destruct (key_eqb k' k); [discriminate|auto].
Qed.

Lemma cache_lookup_store k v cache :
  cache_lookup k cache = None -> cache_lookup k (cache_store k v cache) = Some v.
Proof.
  intros H; unfold cache_store; rewrite cache_lookup_app, cache_lookup_last.
  destruct (Nat.leb maxsize (length cache)); [apply cache_lookup_tl in H|];
    now rewrite H.
Qed.

Lemma cache_touch_length k v cache :
  (length (cache_touch k v cache) <= length cache + 1)%nat
  /\ (cache_lookup k cache <> None -> (length (cache_touch k v cache) <= length cache)%nat).
Proof.
  unfold cache_touch; rewrite length_app; cbn [length].
  induction cache as [|[k' v'] cache [IH1 IH2]]; cbn [List.filter fst length cache_lookup].
  - split; [lia|congruence].
  - destruct (key_eqb k' k); cbn [negb length]; split; intros; try lia.
    specialize (IH2 ltac:(assumption)); lia.
Qed.

Lemma cache_store_length k v cache :
  (length cache <= maxsize)%nat -> (length (cache_store k v cache) <= maxsize)%nat.
Proof.
  unfold cache_store, maxsize; intros H; rewrite length_app; cbn [length].
  destruct (Nat.leb_spec 128 (length cache)).
  - destruct cache; cbn [tl length] in *; lia.
  - lia.
Qed.

Section Cache.

Variable json_loads : string -> option JSON.
Variable py_repr : JSON -> string.

Local Abbreviation ensure_valid := (_refresh_session_auth json_loads py_repr).
Local Abbreviation next := (gen_next json_loads).

Lemma session_request_cache m u d st :
  get_album_cache (snd (session_request m u d st)) = get_album_cache st.
Proof.
  destruct (session_request_cases m u d st)
    as [(r & dt & _ & ->)|(e & dt & _ & ->)]; reflexivity.
Qed.

Lemma fetch_json_cache u st :
  get_album_cache (snd (fetch_json json_loads u st)) = get_album_cache st.
Proof.
  unfold fetch_json, session_get, bind, lift.
  destruct (session_request_cases GET u None st)
    as [(r & dt & _ & ->)|(e & dt & _ & ->)]; [|reflexivity].
  destruct (check_response r); reflexivity.
Qed.

Lemma next_cache g st :
  get_album_cache (snd (next g st)) = get_album_cache st.
Proof.
  assert (Hloop : forall next_url st0,
            get_album_cache (snd (gen_loop json_loads next_url st0))
            = get_album_cache st0).
  { intros next_url st0; unfold gen_loop.
    destruct (Json.is_not_None next_url); [|reflexivity].
    unfold session_get_value, bind, lift, raise.
    destruct next_url as [| | |u| |]; try reflexivity.
    unfold session_get.
    destruct (session_request_cases GET u None st0)
      as [(r & dt & _ & ->)|(e & dt & _ & ->)]; [|reflexivity].
    destruct (check_response r); [destruct (response_json json_loads r)|];
      reflexivity. }
  destruct g as [tc mt|ec|]; cbn [gen_next]; [| |reflexivity].
  - destruct (bind_result _ _); [apply Hloop|reflexivity].
  - destruct (Json.getitem ec "next"); [|reflexivity].
    rewrite Hloop; reflexivity.
Qed.

Lemma comprehension_frame fuel : forall g acc st r st',
  comprehension json_loads fuel g acc st = Some (r, st') ->
  get_album_cache st' = get_album_cache st
  /\ (length (sent (world st)) <= length (sent (world st')))%nat.
Proof.
  induction fuel as [|fuel IH]; intros g acc st r st'; cbn [comprehension];
    [discriminate|].
  pose proof (next_cache g st) as Hc. pose proof (next_step json_loads g st) as Hs.
  destruct (next g st) as [[[[p|]|e] g1] st1]; cbn [snd] in Hc.
  - destruct (bind_result _ _) as [items|e].
    + intros H; destruct (IH _ _ _ _ _ H) as [H1 H2]; split; [congruence|lia].
    + intros [= <- <-]; split; [assumption|lia].
  - intros [= <- <-]; split; [assumption|]. destruct Hs as [_ ->]; lia.
  - intros [= <- <-]; split; [assumption|lia].
Qed.

(** The body of [get_album] leaves the cache alone, and with a readable
    token expiry it sends at least one request. *)
Lemma uncached_frame fuel album_id extend st r st' :
  get_album_uncached json_loads py_repr fuel album_id extend st = Some (r, st') ->
  get_album_cache st' = get_album_cache st
  /\ (forall expire, token_expiry (self st) = Ok expire ->
        (length (sent (world st)) < length (sent (world st')))%nat).
Proof.
  unfold get_album_uncached, get_collection.
  fold (fetch_json json_loads (METADATA_API_URL "albums" (str_of_arg album_id))).
  unfold bind at 1.
  pose proof (ensure_valid_kept json_loads py_repr st) as (Hk & Hsent).
  destruct Hk as (_ & _ & Hcache & _).
  destruct (ensure_valid st) as [[[]|e] st1] eqn:Ev; cbn [snd] in *.
  - pose proof (fetch_json_cache (METADATA_API_URL "albums" (str_of_arg album_id)) st1) as Hc.
    pose proof (fetch_json_sent json_loads (METADATA_API_URL "albums" (str_of_arg album_id)) st1) as Hs.
    destruct (fetch_json json_loads _ st1) as [[obj|e] st2]; cbn [snd] in *.
    + assert (Hlen : (length (sent (world st)) < length (sent (world st2)))%nat).
      { rewrite Hs, length_app; cbn [length].
        destruct Hsent as [-> | ->]; [|rewrite length_app]; lia. }
      destruct (truthy extend).
      * unfold extend_items.
        destruct (bind_result _ _) as [[| | | |items|]|e];
          try (intros [= <- <-]; split; [congruence|intros; exact Hlen]).
        destruct (comprehension json_loads fuel _ [] st2) as [[[extra|e] st3]|] eqn:Ec;
          [| |discriminate];
          destruct (comprehension_frame _ _ _ _ _ _ Ec) as [H1 H2];
          intros [= <- <-]; (split; [congruence|intros; lia]).
      * intros [= <- <-]; split; [congruence|intros; exact Hlen].
    + intros [= <- <-]; split; [congruence|].
      intros; rewrite Hs, length_app; cbn [length].
      destruct Hsent as [-> | ->]; [|rewrite length_app]; lia.
  - intros [= <- <-]; split; [assumption|].
    intros expire He. rewrite (ensure_valid_cases _ _ st expire He) in Ev.
    destruct (clock (world st) <? expire); [discriminate|].
    destruct Hsent as [-> | ->].
    + pose proof (bootstrap_frame json_loads py_repr st) as (_ & Hb & _).
      rewrite Ev in Hb; cbn [snd] in Hb.
      apply (f_equal (@length _)) in Hb; rewrite length_app in Hb; cbn in Hb; lia.
    + rewrite length_app; cbn [length]; lia.
Qed.


Lemma get_album_hit fuel c st v :
  cache_lookup c (get_album_cache st) = Some v ->
  get_album json_loads py_repr fuel c st
  = Some (Ok v, set_cache (cache_touch c v (get_album_cache st)) st).
Proof. intros H; unfold get_album; now rewrite H. Qed.

Lemma get_album_miss fuel c st :
  cache_lookup c (get_album_cache st) = None ->
  get_album json_loads py_repr fuel c st
  = match bind_arguments c with
    | Raise e => Some (Raise e, st)
    | Ok (album_id, extend) =>
        match get_album_uncached json_loads py_repr fuel album_id extend st with
        | Some (Ok album, st') =>
            Some (Ok album, set_cache (cache_store c album (get_album_cache st')) st')
        | other => other
        end
    end.
Proof. intros H; unfold get_album; now rewrite H. Qed.

(** After a call that returned, the value is in the cache under the
    arguments of the call. *)
Lemma get_album_stores fuel c st v st1 :
  get_album json_loads py_repr fuel c st = Some (Ok v, st1) ->
  cache_lookup c (get_album_cache st1) = Some v.
Proof.
  destruct (cache_lookup c (get_album_cache st)) as [v0|] eqn:E.
  - rewrite (get_album_hit fuel c st v0 E); intros [= <- <-].
    apply cache_lookup_touch.
  - rewrite (get_album_miss fuel c st E).
    destruct (bind_arguments c) as [[album_id extend]|e]; [|discriminate].
    destruct (get_album_uncached json_loads py_repr fuel album_id extend st)
      as [[[album|e] st']|] eqn:Eu; try discriminate.
    intros [= <- <-]; cbn [set_cache get_album_cache].
    apply cache_lookup_store.
    destruct (uncached_frame fuel album_id extend st _ st' Eu) as [-> _]; exact E.
Qed.

End Cache.

(** * Further properties *)

(** ** ID transcoder: the format of the results *)

Lemma pow_16_32 : 16 ^ 32 = 2 ^ 128.
Proof. reflexivity. Qed.

Lemma pow_2_128_lt : 2 ^ 128 < 62 ^ 22.
Proof. reflexivity. Qed.

(** A numeral and the value it is rendered from give the same shortest
    numeral. *)
Lemma shortest_of_digits b cs s t :
  2 <= b -> Py.len cs = b ->
  (forall r, 0 <= r < b ->
             exists c, Py.getitem cs r = Some c /\ Py.index cs c = Some r) ->
  Py.index cs "0" = Some 0 ->
  Radix.all_in cs s = true -> Radix.all_in cs t = true ->
  Radix.value b cs s = Radix.value b cs t ->
  Radix.shortest s = Radix.shortest t.
Proof.
  intros Hb Hl Hd Hz Hs Ht Hv. unfold Radix.shortest.
  replace (Radix.strip "0" s) with (Radix.strip "0" t); [reflexivity|].
  apply (canonical_unique b cs Hb Hl).
  - exact (strip_all_in cs "0" t Ht).
  - exact (strip_all_in cs "0" s Hs).
  - exact (strip_canonical b cs Hl "0" Hz t Ht).
  - exact (strip_canonical b cs Hl "0" Hz s Hs).
  - rewrite !(strip_value b cs "0" Hz). now symmetry.
Qed.

(** [media_id_to_gid] on a base-62 string: what it returns. *)
Lemma media_id_to_gid_shortest m :
  Radix.all_in B62 m = true ->
  exists h, Radix.all_in HEX h = true
            /\ Radix.value 16 HEX h = Radix.value 62 B62 m
            /\ media_id_to_gid m = Ok (Py.zfill (Radix.shortest h) 32).
Proof.
  intros H. unfold media_id_to_gid; rewrite decode_value by exact H.
  pose proof (value_range 62 B62 two_le_62 eq_refl m H) as [Hn _].
  destruct (digits_spec 16 HEX two_le_16 hex_distinct _ Hn) as (h & _ & Hall & Hval & _).
  exists h; split; [exact Hall|]; split; [exact Hval|].
  rewrite <- Hval, hex_of_value by exact Hall. reflexivity.
Qed.

(** [gid_to_media_id] on a string of hexadecimal digits: what it returns. *)
Lemma gid_to_media_id_shortest g :
  Radix.all_in HEX g = true -> g <> EmptyString ->
  exists e, Radix.all_in B62 e = true
            /\ Radix.value 62 B62 e = Radix.value 16 HEX g
            /\ gid_to_media_id g = Ok (Py.zfill (Radix.shortest e) 22).
Proof.
  intros H Hne. unfold gid_to_media_id; rewrite int_hex by assumption.
  pose proof (value_range 16 HEX two_le_16 eq_refl g H) as [Hn _].
  destruct (digits_spec 62 B62 two_le_62 base62_distinct _ Hn) as (e & _ & Hall & Hval & _).
  exists e; split; [exact Hall|]; split; [exact Hval|].
  unfold base62.encode, base62.BASE. rewrite <- Hval.
  rewrite (digits_shortest 62 B62 two_le_62 eq_refl base62_distinct eq_refl e Hall).
  reflexivity.
Qed.

(** X1.  A public identifier over the base-62 alphabet whose value fits in
    128 bits has an internal identifier of exactly 32 lowercase hexadecimal
    digits, which denotes the same number. *)
Theorem media_id_to_gid_format m :
  Radix.all_in B62 m = true ->
  Radix.value 62 B62 m < 2 ^ 128 ->
  exists g, media_id_to_gid m = Ok g
            /\ Py.len g = 32
            /\ Radix.all_in HEX g = true
            /\ Radix.value 16 HEX g = Radix.value 62 B62 m.
Proof.
  intros H Hv.
  destruct (media_id_to_gid_shortest m H) as (h & Hall & Hval & ->).
  pose proof (shortest_all_in HEX eq_refl h Hall) as Hs.
  eexists; split; [reflexivity|]; split; [|split].
  - apply (zfill_len HEX (conj eq_refl eq_refl) _ 32 Hs).
    apply (shortest_len 16 HEX two_le_16 eq_refl eq_refl h 32 Hall); [lia|].
    rewrite Hval, pow_16_32; exact Hv.
  - exact (zfill_all_in HEX eq_refl (conj eq_refl eq_refl) _ 32 Hs).
  - rewrite (zfill_value 16 HEX eq_refl (conj eq_refl eq_refl) _ 32 Hs).
    rewrite (shortest_value 16 HEX eq_refl h). exact Hval.
Qed.

Lemma media_id_to_gid_format_witness :
  exists g, media_id_to_gid "4uLU6hMCjMI75M1A2tKUQC" = Ok g
            /\ Py.len g = 32
            /\ Radix.all_in HEX g = true
            /\ Radix.value 16 HEX g = Radix.value 62 B62 "4uLU6hMCjMI75M1A2tKUQC".
Proof.
  apply media_id_to_gid_format; vm_compute; reflexivity.
Defined.

(** X2.  An internal identifier of at most 32 hexadecimal digits has a
    public identifier of exactly 22 base-62 characters, which denotes the
    same number. *)
Theorem gid_to_media_id_format g :
  Radix.all_in HEX g = true -> g <> EmptyString -> Py.len g <= 32 ->
  exists m, gid_to_media_id g = Ok m
            /\ Py.len m = 22
            /\ Radix.all_in B62 m = true
            /\ Radix.value 62 B62 m = Radix.value 16 HEX g.
Proof.
  intros H Hne Hl.
  destruct (gid_to_media_id_shortest g H Hne) as (e & Hall & Hval & ->).
  pose proof (shortest_all_in B62 eq_refl e Hall) as Hs.
  pose proof (value_range 16 HEX two_le_16 eq_refl g H) as [_ Hup].
  assert (Hb : 16 ^ Py.len g <= 16 ^ 32)
    by (apply Z.pow_le_mono_r; [lia|exact Hl]).
  eexists; split; [reflexivity|]; split; [|split].
  - apply (zfill_len B62 (conj eq_refl eq_refl) _ 22 Hs).
    apply (shortest_len 62 B62 two_le_62 eq_refl eq_refl e 22 Hall); [lia|].
    rewrite Hval. rewrite pow_16_32 in Hb. pose proof pow_2_128_lt. lia.
  - exact (zfill_all_in B62 eq_refl (conj eq_refl eq_refl) _ 22 Hs).
  - rewrite (zfill_value 62 B62 eq_refl (conj eq_refl eq_refl) _ 22 Hs).
    rewrite (shortest_value 62 B62 eq_refl e). exact Hval.
Qed.

Lemma gid_to_media_id_format_witness :
  exists m, gid_to_media_id "93bc414a606747b2b612491ef83d5a3e" = Ok m
            /\ Py.len m = 22
            /\ Radix.all_in B62 m = true
            /\ Radix.value 62 B62 m
               = Radix.value 16 HEX "93bc414a606747b2b612491ef83d5a3e".
Proof.
  apply gid_to_media_id_format; [vm_compute; reflexivity|discriminate|vm_compute; discriminate].
Defined.

(** X3.  Leading zeros do not count: a public identifier and the same
    identifier after a ["0"] have the same internal identifier, and
    likewise in the other direction.  Hence identifiers of different
    lengths can be converted to the same result. *)
Theorem transcoder_leading_zero :
  (forall m, Radix.all_in B62 m = true ->
             media_id_to_gid (String "0" m) = media_id_to_gid m)
  /\ (forall g, Radix.all_in HEX g = true -> g <> EmptyString ->
                gid_to_media_id (String "0" g) = gid_to_media_id g).
Proof.
  split.
  - intros m H. unfold media_id_to_gid.
    assert (H0 : Radix.all_in B62 (String "0" m) = true)
      by (cbn [Radix.all_in]; now rewrite H).
    rewrite !decode_value by assumption.
    cbn [Radix.value]. replace (Radix.digit B62 "0") with 0 by reflexivity.
    now rewrite Z.mul_0_l, Z.add_0_l.
  - intros g H Hne. unfold gid_to_media_id.
    assert (H0 : Radix.all_in HEX (String "0" g) = true)
      by (cbn [Radix.all_in]; now rewrite H).
    rewrite !int_hex by (assumption || discriminate).
    cbn [Radix.value]. replace (Radix.digit HEX "0") with 0 by reflexivity.
    now rewrite Z.mul_0_l, Z.add_0_l.
Qed.

Lemma transcoder_leading_zero_witness :
  media_id_to_gid "04uLU6hMCjMI75M1A2tKUQC" = media_id_to_gid "4uLU6hMCjMI75M1A2tKUQC"
  /\ gid_to_media_id "01f" = gid_to_media_id "1f".
Proof.
  split.
  - apply (proj1 transcoder_leading_zero); vm_compute; reflexivity.
  - apply (proj2 transcoder_leading_zero); [vm_compute; reflexivity|discriminate].
Defined.



(** X5.  [gid_to_media_id] does not reject a negative number: whatever
    [int(.., 16)] reads as zero or less is converted to the identifier of 22
    zeros. *)
Theorem gid_to_media_id_not_positive s n :
  Py.int s 16 = Ok n -> n <= 0 ->
  gid_to_media_id s = Ok (Py.repeat "0" 22).
Proof.
  intros E Hn. unfold gid_to_media_id, base62.encode, Py.digits; rewrite E.
  destruct (Py.bits n); cbn [Py.digits_loop];
    destruct (Z.ltb_spec 0 n); try lia; reflexivity.
Qed.

Lemma gid_to_media_id_not_positive_witness :
  gid_to_media_id "-1f" = Ok (Py.repeat "0" 22).
Proof.
  apply (gid_to_media_id_not_positive "-1f" (-31)); [reflexivity|lia].
Defined.

(** X6.  Converting a base-62 string to the internal form and back
    normalises it: the result denotes the same number, has at least 22
    characters, and is left as it is by a second round trip. *)
Theorem public_round_trip_idempotent p :
  Radix.all_in B62 p = true ->
  exists q, public_round_trip p = Ok q
            /\ public_round_trip q = Ok q
            /\ Radix.all_in B62 q = true
            /\ Radix.value 62 B62 q = Radix.value 62 B62 p
            /\ 22 <= Py.len q.
Proof.
  intros H. rewrite (public_round_trip_zfill p H).
  pose proof (shortest_all_in B62 eq_refl p H) as Hs.
  pose proof (zfill_all_in B62 eq_refl (conj eq_refl eq_refl) _ 22 Hs) as Hq.
  assert (Hv : Radix.value 62 B62 (Py.zfill (Radix.shortest p) 22)
               = Radix.value 62 B62 p).
  { rewrite (zfill_value 62 B62 eq_refl (conj eq_refl eq_refl) _ 22 Hs).
    exact (shortest_value 62 B62 eq_refl p). }
  eexists; split; [reflexivity|]; split; [|split; [exact Hq|split; [exact Hv|]]].
  - rewrite (public_round_trip_zfill _ Hq). do 2 f_equal.
    exact (shortest_of_digits 62 B62 _ _ two_le_62 eq_refl base62_distinct eq_refl
             Hq H Hv).
  - rewrite zfill_len_max; lia.
Qed.

Lemma public_round_trip_idempotent_witness :
  exists q, public_round_trip "1" = Ok q
            /\ public_round_trip q = Ok q
            /\ Radix.all_in B62 q = true
            /\ Radix.value 62 B62 q = Radix.value 62 B62 "1"
            /\ 22 <= Py.len q.
Proof. apply public_round_trip_idempotent; reflexivity. Defined.

(** ** Construction *)

Lemma find_app_last {A} (p : A -> bool) (l : list A) (x : A) :
  List.find p (l ++ [x])
  = match List.find p l with
    | Some y => Some y
    | None => if p x then Some x else None
    end.
Proof.
  induction l as [|y l IH]; cbn [app List.find]; [reflexivity|].
  destruct (p y); [reflexivity|exact IH].
Qed.






Section Construction.

Variable json_loads : string -> option JSON.
Variable py_repr : JSON -> string.

Local Abbreviation bootstrap := (_set_session_auth json_loads py_repr).
Local Abbreviation ensure_valid := (_refresh_session_auth json_loads py_repr).
Local Abbreviation construct := (__init__ json_loads py_repr).


Lemma set_session_cases path fresh load st :
  _set_session json_loads py_repr path fresh load st
  = match match path with Some p => load p | None => Ok [] end with
    | Ok jar =>
        bootstrap
          (mkState
             (set_session
                (fold_left (fun s h => headers_update (fst h) (snd h) s)
                   BROWSER_HEADERS
                   (mkSession (headers fresh) (extract_cookies (cookies fresh) jar)))
                (self st))
             (world st) (get_album_cache st))
    | Raise e => (Raise e, st)
    end.
Proof.
  unfold _set_session, bind at 1, lift.
  destruct (match path with Some p => load p | None => Ok [] end); reflexivity.
Qed.


(** X8.  A construction that fails has either failed to load the cookie
    file, before any request, or has sent exactly one request, for the
    landing page. *)
Theorem constructor_failure path fresh load w e w' :
  construct path fresh load w = (Raise e, w') ->
  (exists p, path = Some p /\ load p = Raise e /\ w' = w)
  \/ (exists req, sent w' = sent w ++ [req]
                  /\ method req = GET /\ url req = SPOTIFY_HOME_PAGE_URL
                  /\ sent_at req = clock w).
Proof.
  unfold __init__; rewrite set_session_cases.
  destruct (match path with Some p => load p | None => Ok [] end) as [jar|e0] eqn:Ej.
  - unfold set_session; cbn [self world get_album_cache cookies_path].
    set (st0 := mkState _ w []).
    destruct (bootstrap_frame json_loads py_repr st0) as (_ & Hs & _).
    destruct (bootstrap st0) as [[[]|e1] st'] eqn:Eb; [discriminate|].
    intros [= <- <-]; cbn [snd] in *.
    right; exists (home_request st0); repeat split; exact Hs.
  - intros [= <- <-]. left. destruct path as [p|]; [|discriminate].
    exists p; repeat split; exact Ej.
Qed.

End Construction.

(** ** Bootstrap, renewal and the fetchers *)

Section Fetchers.

Variable json_loads : string -> option JSON.
Variable py_repr : JSON -> string.

Local Abbreviation bootstrap := (_set_session_auth json_loads py_repr).
Local Abbreviation ensure_valid := (_refresh_session_auth json_loads py_repr).
Local Abbreviation fetch := (fetch_json json_loads).

(** The steps after the landing page change no header unless they all
    succeed. *)
Lemma install_raise_headers home_page st e st' :
  install json_loads py_repr home_page st = (Raise e, st') ->
  headers (session (self st')) = headers (session (self st))
  /\ world st' = world st.
Proof.
  unfold install.
  destruct (re.search (script_tag "session") SCRIPT_END home_page);
    [|intros [= <- <-]; now split].
  destruct (json_loads _); [|intros [= <- <-]; now split].
  destruct (re.search (script_tag "config") SCRIPT_END home_page);
    [|intros [= <- <-]; now split].
  destruct (json_loads _); [|intros [= <- <-]; now split].
  destruct (Json.getitem _ _); [discriminate|].
  intros [= <- <-]; now split.
Qed.

Lemma bootstrap_raise_headers st e st' :
  bootstrap st = (Raise e, st') ->
  headers (session (self st')) = headers (session (self st)).
Proof.
  rewrite bootstrap_install.
  pose proof (get_home_page_headers st) as (Hh & _).
  destruct (get_home_page st) as [[home_page|e0] st1]; cbn [snd] in Hh.
  - intros Hi. destruct (install_raise_headers _ _ _ _ Hi) as [-> _]. exact Hh.
  - intros [= <- <-]. exact Hh.
Qed.

(** One fetch: the request, and what the answer is turned into. *)
Lemma fetch_cases u st :
  fetch u st
  = match answer st (request_of st GET u None) with
    | Replied r dt =>
        (bind_result (check_response r) (fun _ => loads json_loads (body r)),
         after_reply st (request_of st GET u None) r dt)
    | Failed e dt => (Raise e, after_failure st (request_of st GET u None) dt)
    end.
Proof.
  unfold fetch_json, session_get, session_request, bind, lift, response_json.
  destruct (answer st _) as [r dt|e dt]; [|reflexivity].
  destruct (check_response r); reflexivity.
Qed.

(** What a fetcher returns has been sent by the service, with a status that
    [check_response] accepts. *)
Lemma fetch_returns u st v st' :
  fetch u st = (Ok v, st') ->
  exists r dt,
    answer st (request_of st GET u None) = Replied r dt
    /\ check_response r = Ok tt
    /\ json_loads (body r) = Some v
    /\ st' = after_reply st (request_of st GET u None) r dt.
Proof.
  rewrite fetch_cases.
  destruct (answer st _) as [r dt|e dt] eqn:Ha; [|discriminate].
  destruct (check_response r) as [[]|e] eqn:Ec; cbn [bind_result]; [|discriminate].
  unfold loads. destruct (json_loads (body r)) as [v'|] eqn:Ej; [|discriminate].
  intros [= <- <-]. exists r, dt; repeat split; assumption || reflexivity.
Qed.

(** The fetchers that differ by their URL only. *)
Lemma renew_then_fetch u st :
  (let* _ := ensure_valid in fetch u) st
  = match ensure_valid st with
    | (Ok _, st1) => fetch u st1
    | (Raise e, st1) => (Raise e, st1)
    end.
Proof. reflexivity. Qed.

(** X9.  A bootstrap that fails leaves every header as it was, the
    [Authorization] header with the old token among them, while the session
    blob may already have been stored.  When the stored expiry then lies in
    the future, the next fetcher does not renew: it sends its request with
    the headers from before the failed bootstrap. *)
Theorem failed_bootstrap_keeps_token st e st1 :
  bootstrap st = (Raise e, st1) ->
  headers (session (self st1)) = headers (session (self st))
  /\ forall expire track_id,
       token_expiry (self st1) = Ok expire ->
       clock (world st1) < expire ->
       exists req,
         sent (world (snd (get_track json_loads py_repr track_id st1)))
         = sent (world st1) ++ [req]
         /\ url req = METADATA_API_URL "tracks" track_id
         /\ request_headers req = headers (session (self st)).
Proof.
  intros Hb. pose proof (bootstrap_raise_headers st e st1 Hb) as Hh.
  split; [exact Hh|]. intros expire track_id He Hc.
  exists (request_of st1 GET (METADATA_API_URL "tracks" track_id) None).
  split; [|split; [reflexivity|exact Hh]].
  change (get_track json_loads py_repr track_id)
    with (let* _ := ensure_valid in fetch (METADATA_API_URL "tracks" track_id)).
  rewrite renew_then_fetch, (ensure_valid_cases _ _ st1 expire He).
  destruct (Z.ltb_spec (clock (world st1)) expire); [|lia].
  apply fetch_json_sent.
Qed.

(** X10.  When the renewal fails, whether the expiry cannot be read or the
    bootstrap raises, every fetcher raises the same exception and does
    nothing more: the state is the one that the renewal left. *)
Theorem renewal_failure_stops_fetchers st e st1 :
  ensure_valid st = (Raise e, st1) ->
  (forall gid media_type,
     get_gid_metadata json_loads py_repr gid media_type st = (Raise e, st1))
  /\ (forall id, get_lyrics json_loads py_repr id st = (Raise e, st1))
  /\ (forall id, get_track json_loads py_repr id st = (Raise e, st1))
  /\ (forall id, get_track_credits json_loads py_repr id st = (Raise e, st1))
  /\ (forall id, get_episode json_loads py_repr id st = (Raise e, st1))
  /\ (forall id, get_stream_urls json_loads py_repr id st = (Raise e, st1))
  /\ (forall id challenge,
        get_playplay_license json_loads py_repr id challenge st = (Raise e, st1))
  /\ (forall fuel id extend,
        get_playlist json_loads py_repr fuel id extend st = Some (Raise e, st1)
        /\ get_show json_loads py_repr fuel id extend st = Some (Raise e, st1))
  /\ (forall fuel c,
        cache_lookup c (get_album_cache st) = None ->
        bind_arguments c <> Raise TypeError ->
        get_album json_loads py_repr fuel c st = Some (Raise e, st1)).
Proof.
  intros Hv.
  assert (Hc : forall type media_type fuel id extend,
            get_collection json_loads py_repr type media_type fuel id extend st
            = Some (Raise e, st1)).
  { intros; unfold get_collection, bind at 1; now rewrite Hv. }
  repeat split; intros;
    try (unfold get_gid_metadata, get_lyrics, get_track, get_track_credits,
           get_episode, get_stream_urls, get_playplay_license, bind at 1;
         now rewrite Hv);
    try apply Hc.
  rewrite (get_album_miss _ _ _ _ _ H).
  destruct (bind_arguments c) as [[album_id extend]|e0] eqn:Eb.
  - unfold get_album_uncached; now rewrite Hc.
  - exfalso; apply H0; f_equal.
    unfold bind_arguments in Eb.
    assert (Hk : forall kw a x r, bind_keywords kw a x = Raise r -> r = TypeError).
    { induction kw as [|[name v] kw IH]; intros a x r; cbn [bind_keywords];
        [discriminate|].
      destruct (String.eqb name "album_id"); [destruct a; [congruence|apply IH]|].
      destruct (String.eqb name "extend"); [destruct x; [congruence|apply IH]|].
      congruence. }
    destruct (args c) as [|a [|x [|y l]]];
      try (destruct (bind_keywords _ _ _) as [[[?|] [?|]]|?] eqn:Ek;
           try congruence; apply Hk in Ek; congruence).
    congruence.
Qed.

(** X11.  [get_playplay_license] sends one [POST] whose body is the
    challenge, to the URL of the file, and returns the body of the answer
    undecoded when [check_response] accepts it; otherwise it raises what
    [check_response] raises, and a failure of the transport is passed on. *)
Theorem playplay_license_post st st1 file_id challenge :
  ensure_valid st = (Ok tt, st1) ->
  let req := request_of st1 POST (PLAYPLAY_LICENSE_API_URL file_id) (Some challenge) in
  data req = Some challenge
  /\ sent (world (snd (get_playplay_license json_loads py_repr file_id challenge st)))
     = sent (world st1) ++ [req]
  /\ get_playplay_license json_loads py_repr file_id challenge st
     = match answer st1 req with
       | Replied r dt =>
           (bind_result (check_response r) (fun _ => Ok (body r)),
            after_reply st1 req r dt)
       | Failed e dt => (Raise e, after_failure st1 req dt)
       end.
Proof.
  intros Hv req; split; [reflexivity|].
  assert (E : get_playplay_license json_loads py_repr file_id challenge st
              = match answer st1 req with
                | Replied r dt =>
                    (bind_result (check_response r) (fun _ => Ok (body r)),
                     after_reply st1 req r dt)
                | Failed e dt => (Raise e, after_failure st1 req dt)
                end).
  { unfold get_playplay_license, bind at 1; rewrite Hv.
    unfold bind at 1, session_post, session_request; fold req.
    destruct (answer st1 req) as [r dt|e dt]; [|reflexivity].
    unfold bind, lift, ret. destruct (check_response r); reflexivity. }
  split; [|exact E]. rewrite E.
  destruct (answer st1 req) as [r dt|e dt]; reflexivity.
Qed.

(** X12.  [get_lyrics] returns [None] in two cases only: the service
    answers its request with the status 404, whatever the body, or with a
    status that [check_response] accepts and a body that decodes to [None]
    (the text [null]).  The 404 is tested before [check_response]; on any
    other status [get_lyrics] does what the plain fetchers do. *)
Theorem lyrics_none_cases st track_id :
  (forall st',
     get_lyrics json_loads py_repr track_id st = (Ok JNull, st') ->
     exists st1 r dt,
       ensure_valid st = (Ok tt, st1)
       /\ answer st1 (request_of st1 GET (LYRICS_API_URL track_id) None) = Replied r dt
       /\ st' = after_reply st1 (request_of st1 GET (LYRICS_API_URL track_id) None) r dt
       /\ (status_code r = 404
           \/ (status_code r <> 404
               /\ check_response r = Ok tt
               /\ json_loads (body r) = Some JNull)))
  /\ (forall st1 r dt,
        ensure_valid st = (Ok tt, st1) ->
        answer st1 (request_of st1 GET (LYRICS_API_URL track_id) None) = Replied r dt ->
        get_lyrics json_loads py_repr track_id st
        = (if status_code r =? 404 then Ok JNull
           else bind_result (check_response r) (fun _ => loads json_loads (body r)),
           after_reply st1 (request_of st1 GET (LYRICS_API_URL track_id) None) r dt)).
Proof.
  assert (Hcases : forall st1 r dt,
            ensure_valid st = (Ok tt, st1) ->
            answer st1 (request_of st1 GET (LYRICS_API_URL track_id) None)
            = Replied r dt ->
            get_lyrics json_loads py_repr track_id st
            = (if status_code r =? 404 then Ok JNull
               else bind_result (check_response r)
                      (fun _ => loads json_loads (body r)),
               after_reply st1
                 (request_of st1 GET (LYRICS_API_URL track_id) None) r dt)).
  { intros st1 r dt Hv Ha. unfold get_lyrics, bind at 1; rewrite Hv.
    unfold bind at 1, session_get, session_request; rewrite Ha.
    destruct (status_code r =? 404); [reflexivity|].
    unfold bind, lift, response_json.
    destruct (check_response r) as [[]|e]; reflexivity. }
  split; [|exact Hcases].
  intros st' Hl.
  destruct (ensure_valid st) as [[[]|e] st1] eqn:Hv.
  - destruct (answer st1 (request_of st1 GET (LYRICS_API_URL track_id) None))
      as [r dt|e dt] eqn:Ha.
    + rewrite (Hcases st1 r dt eq_refl Ha) in Hl.
      exists st1, r, dt. split; [reflexivity|]. split; [exact Ha|].
      destruct (Z.eqb_spec (status_code r) 404) as [E|E].
      * injection Hl as <-. split; [reflexivity|now left].
      * destruct (check_response r) as [[]|e] eqn:Hc; [|discriminate Hl].
        cbn [bind_result] in Hl. unfold loads in Hl.
        destruct (json_loads (body r)) as [v|] eqn:Hj; [|discriminate Hl].
        injection Hl as -> <-. split; [reflexivity|]. right. auto.
    + unfold get_lyrics, bind at 1 in Hl; rewrite Hv in Hl.
      unfold bind at 1, session_get, session_request in Hl; rewrite Ha in Hl.
      discriminate Hl.
  - unfold get_lyrics, bind at 1 in Hl; rewrite Hv in Hl. discriminate Hl.
Qed.

(** X13.  The five plain fetchers each send, after the renewal, one [GET]
    to their own URL; what they return is the decoded body of an answer that
    [check_response] accepted. *)
Theorem plain_fetchers_return gid media_type track_id episode_id file_id c u st v st' :
  In (c, u)
     [ (get_gid_metadata json_loads py_repr gid media_type,
        GID_METADATA_API_URL media_type gid);
       (get_track json_loads py_repr track_id, METADATA_API_URL "tracks" track_id);
       (get_track_credits json_loads py_repr track_id, TRACK_CREDITS_API_URL track_id);
       (get_episode json_loads py_repr episode_id,
        METADATA_API_URL "episodes" episode_id);
       (get_stream_urls json_loads py_repr file_id, STREAM_URLS_API_URL file_id) ] ->
  c st = (Ok v, st') ->
  exists st1 r dt,
    ensure_valid st = (Ok tt, st1)
    /\ answer st1 (request_of st1 GET u None) = Replied r dt
    /\ check_response r = Ok tt
    /\ json_loads (body r) = Some v
    /\ st' = after_reply st1 (request_of st1 GET u None) r dt.
Proof.
  intros Hin Hc.
  assert (H : (let* _ := ensure_valid in fetch u) st = (Ok v, st')).
  { cbn [In] in Hin.
    repeat (destruct Hin as [[= <- <-]|Hin]; [exact Hc|]). destruct Hin. }
  clear Hin Hc. rewrite renew_then_fetch in H.
  destruct (ensure_valid st) as [[[]|e] st1]; [|discriminate].
  destruct (fetch_returns u st1 v st' H) as (r & dt & Hx).
  exists st1, r, dt; split; [reflexivity|exact Hx].
Qed.

End Fetchers.

(** ** The extender and the collections *)

Lemma assoc_set_same {A} k (v x : A) kv :
  Json.assoc k kv = Some x -> Json.assoc k (Json.assoc_set k v kv) = Some v.
Proof.
  induction kv as [|[k' v'] kv IH]; cbn [Json.assoc Json.assoc_set]; [discriminate|].
  destruct (String.eqb k' k) eqn:E; cbn [Json.assoc]; rewrite E; [reflexivity|exact IH].
Qed.

Lemma assoc_set_other {A} k k0 (v : A) kv :
  k0 <> k -> Json.assoc k0 (Json.assoc_set k v kv) = Json.assoc k0 kv.
Proof.
  intros Hne; induction kv as [|[k' v'] kv IH]; cbn [Json.assoc Json.assoc_set];
    [reflexivity|].
  destruct (String.eqb_spec k' k) as [->|E]; cbn [Json.assoc].
  - destruct (String.eqb_spec k k0) as [->|E0]; [contradiction|reflexivity].
  - destruct (String.eqb k' k0); [reflexivity|exact IH].
Qed.

Lemma getitem_assoc v k x :
  Json.getitem v k = Ok x -> exists kv, v = JObj kv /\ Json.assoc k kv = Some x.
Proof.
  destruct v as [| | | | |kv]; try discriminate; cbn [Json.getitem].
  destruct (Json.assoc k kv) as [y|] eqn:E; [|discriminate].
  intros [= <-]; eauto.
Qed.

(** The object after [obj[media_type]["items"]] has been replaced: the
    items are the new ones, and nothing else has changed. *)
Lemma with_items_spec obj media_type c old new :
  Json.getitem obj media_type = Ok c ->
  Json.getitem c "items" = Ok old ->
  exists c',
    Json.getitem (with_items obj media_type new) media_type = Ok c'
    /\ Json.getitem c' "items" = Ok (JArr new)
    /\ (forall k, k <> "items" -> Json.getitem c' k = Json.getitem c k)
    /\ (forall k, k <> media_type ->
          Json.getitem (with_items obj media_type new) k = Json.getitem obj k).
Proof.
  intros Ho Hc.
  destruct (getitem_assoc _ _ _ Ho) as (kv & -> & Hkv).
  destruct (getitem_assoc _ _ _ Hc) as (ckv & -> & Hckv).
  unfold with_items; rewrite Hkv.
  exists (JObj (Json.assoc_set "items" (JArr new) ckv)); cbn [Json.getitem].
  rewrite (assoc_set_same _ _ _ _ Hkv), (assoc_set_same _ _ _ _ Hckv).
  repeat split; intros k Hk; now rewrite assoc_set_other.
Qed.

Lemma check_response_success r : check_response r = Ok tt <-> success r = true.
Proof. unfold check_response; destruct (success r); split; congruence. Qed.

Section Collections.

Variable json_loads : string -> option JSON.
Variable py_repr : JSON -> string.

Local Abbreviation ensure_valid := (_refresh_session_auth json_loads py_repr).
Local Abbreviation next := (gen_next json_loads).
Local Abbreviation chain := (page_chain json_loads).
Local Abbreviation fetch := (fetch_json json_loads).
Local Abbreviation items_of :=
  (fun page items => bind_result (Json.getitem page "items") Json.iterate = Ok items).

(** What one turn of the loop of the extender has done when it yields, and
    when it stops. *)
Lemma gen_loop_yield next_url st page g' st' :
  gen_loop json_loads next_url st = (Ok (Some page), g', st') ->
  exists u r dt,
    next_url = JStr u
    /\ answer st (request_of st GET u None) = Replied r dt
    /\ success r = true
    /\ json_loads (body r) = Some page
    /\ g' = GenSuspended page
    /\ st' = after_reply st (request_of st GET u None) r dt.
Proof.
  unfold gen_loop. destruct (Json.is_not_None next_url); [|discriminate].
  unfold session_get_value, bind, lift, raise.
  destruct next_url as [| | |u| |]; try discriminate.
  unfold session_get, session_request, response_json, loads.
  destruct (answer st _) as [r dt|e dt] eqn:Ha; [|discriminate].
  destruct (check_response r) as [[]|e] eqn:Ec; [|discriminate].
  destruct (json_loads (body r)) as [v|] eqn:Ej; [|discriminate].
  intros [= <- <- <-]. exists u, r, dt.
  apply check_response_success in Ec. repeat split; assumption.
Qed.

Lemma gen_loop_stop next_url st g' st' :
  gen_loop json_loads next_url st = (Ok None, g', st') ->
  next_url = JNull /\ g' = GenDone /\ st' = st.
Proof.
  unfold gen_loop. destruct next_url as [| | |u| |]; cbn [Json.is_not_None];
    try (intros [= <- <-]; now repeat split);
    unfold session_get_value, bind, lift, raise; try discriminate.
  unfold session_get, session_request, response_json, loads.
  destruct (answer st _) as [r dt|e dt]; [|discriminate].
  destruct (check_response r) as [[]|e]; [|discriminate].
  destruct (json_loads (body r)); discriminate.
Qed.

(** The comprehension over a chain of pages collects the items of the
    pages in their order. *)
Lemma comprehension_chain st next_url pages st' :
  chain st next_url pages st' ->
  forall itemss fuel g st0 acc,
    Forall2 items_of pages itemss ->
    (length pages < fuel)%nat ->
    next g st0 = gen_loop json_loads next_url st ->
    comprehension json_loads fuel g acc st0 = Some (Ok (acc ++ concat itemss), st').
Proof.
  induction 1 as [st|st u r dt page next_url pages st' Ha Hs Hj Hn Hc IH];
    intros itemss [|fuel] g st0 acc Hi Hf Hg; cbn [length] in Hf; try lia;
    cbn [comprehension]; rewrite Hg.
  - inversion Hi; subst. cbn [concat]. now rewrite app_nil_r.
  - inversion Hi as [|? items ? itemss' Hit Hrest]; subst.
    rewrite (gen_loop_page json_loads st u r dt page Ha Hs Hj), Hit.
    rewrite (IH itemss' fuel (GenSuspended page)
               (after_reply st (request_of st GET u None) r dt) (acc ++ items));
      [cbn [concat]; now rewrite app_assoc|exact Hrest|lia|].
    cbn [gen_next]. now rewrite Hn.
Qed.

(** Conversely, a comprehension that ends without an exception has walked
    along a chain of pages. *)
Lemma comprehension_returns fuel : forall g acc st extra st' next_url st0,
  comprehension json_loads fuel g acc st = Some (Ok extra, st') ->
  next g st = gen_loop json_loads next_url st0 ->
  exists pages itemss,
    chain st0 next_url pages st'
    /\ Forall2 items_of pages itemss
    /\ extra = acc ++ concat itemss
    /\ (length pages < fuel)%nat.
Proof.
  induction fuel as [|fuel IH]; intros g acc st extra st' next_url st0;
    cbn [comprehension]; [discriminate|].
  intros Hc Hg; rewrite Hg in Hc.
  destruct (gen_loop json_loads next_url st0) as [[[[page|]|e] g1] st1] eqn:El;
    [| |discriminate].
  - destruct (gen_loop_yield _ _ _ _ _ El) as (u & r & dt & -> & Ha & Hs & Hj & -> & ->).
    destruct (bind_result (Json.getitem page "items") Json.iterate)
      as [items|e] eqn:Hit; [|discriminate].
    destruct (Json.getitem page "next") as [n|e] eqn:Hn.
    + destruct (IH _ _ _ _ _ n
                  (snd (sleep EXTEND_TRACK_COLLECTION_WAIT_TIME
                          (after_reply st0 (request_of st0 GET u None) r dt))) Hc)
        as (pages & itemss & Hch & Hi & -> & Hl).
      { cbn [gen_next]. now rewrite Hn. }
      exists (page :: pages), (items :: itemss). split; [|split; [|split]].
      * exact (chain_page json_loads st0 u r dt page n pages st' Ha Hs Hj Hn Hch).
      * constructor; assumption.
      * cbn [concat]. now rewrite app_assoc.
      * cbn [length]; lia.
    + destruct fuel as [|fuel]; cbn [comprehension gen_next] in Hc; [discriminate|].
      rewrite Hn in Hc; discriminate.
  - destruct (gen_loop_stop _ _ _ _ El) as (-> & _ & ->).
    injection Hc as <- <-. exists [], []. split; [|split; [|split]].
    + apply chain_end.
    + constructor.
    + cbn [concat]. now rewrite app_nil_r.
    + cbn [length]; lia.
Qed.

(** X14.  A resumed generator first sleeps for half a second: when the
    page it had yielded has no [next], it ends with the clock 500 ms later
    and no request; otherwise its request leaves 500 ms after the resumption.
    The first continuation request is sent without a pause.  The requests
    carry the headers that the session has, as they are. *)
Theorem extender_pause st :
  (forall page,
     Json.getitem page "next" = Ok JNull ->
     exists st',
       next (GenSuspended page) st = (Ok None, GenDone, st')
       /\ clock (world st') = clock (world st) + 500
       /\ sent (world st') = sent (world st))
  /\ (forall page u,
        Json.getitem page "next" = Ok (JStr u) ->
        exists req,
          sent (world (snd (next (GenSuspended page) st))) = sent (world st) ++ [req]
          /\ url req = u
          /\ sent_at req = clock (world st) + 500
          /\ request_headers req = headers (session (self st)))
  /\ (forall track_collection media_type u,
        bind_result (Json.getitem track_collection media_type)
                    (fun c => Json.getitem c "next") = Ok (JStr u) ->
        exists req,
          sent (world (snd (next (extend_track_collection track_collection media_type)
                                 st)))
          = sent (world st) ++ [req]
          /\ url req = u
          /\ sent_at req = clock (world st)
          /\ request_headers req = headers (session (self st))).
Proof.
  assert (Hloop : forall u st0,
            sent (world (snd (gen_loop json_loads (JStr u) st0)))
            = sent (world st0) ++ [request_of st0 GET u None]).
  { intros u st0. unfold gen_loop; cbn [Json.is_not_None session_get_value].
    fold (fetch u). pose proof (fetch_json_sent json_loads u st0) as Hs.
    destruct (fetch u st0) as [[v|e] st1]; exact Hs. }
  split; [|split].
  - intros page Hn. cbn [gen_next]; rewrite Hn.
    unfold gen_loop; cbn [Json.is_not_None].
    eexists; split; [reflexivity|]. split; reflexivity.
  - intros page u Hn. cbn [gen_next]; rewrite Hn, Hloop.
    eexists; split; [reflexivity|]. repeat split.
  - intros tc mt u Hn. unfold extend_track_collection; cbn [gen_next].
    rewrite Hn, Hloop. eexists; split; [reflexivity|]. repeat split.
Qed.

(** The three fetchers of collections, with the two strings that tell them
    apart. *)
Local Abbreviation collection_fetchers :=
  [ (fun fuel id extend =>
       get_album_uncached json_loads py_repr fuel (VStr id) (VBool extend),
     "albums", "tracks");
    (get_playlist json_loads py_repr, "playlists", "tracks");
    (get_show json_loads py_repr, "shows", "episodes") ].

Lemma collection_fetchers_body f type media_type :
  In (f, type, media_type) collection_fetchers ->
  f = get_collection json_loads py_repr type media_type.
Proof.
  cbn [In]. intros H. repeat (destruct H as [[= <- <- <-]|H]; [reflexivity|]).
  destruct H.
Qed.

Lemma get_collection_cases type media_type fuel id extend st :
  get_collection json_loads py_repr type media_type fuel id extend st
  = match ensure_valid st with
    | (Ok _, st1) =>
        match fetch (METADATA_API_URL type id) st1 with
        | (Ok obj, st2) =>
            if extend then extend_items json_loads fuel obj media_type st2
            else Some (Ok obj, st2)
        | (Raise e, st2) => Some (Raise e, st2)
        end
    | (Raise e, st1) => Some (Raise e, st1)
    end.
Proof.
  unfold get_collection. fold (fetch (METADATA_API_URL type id)).
  unfold bind at 1. destruct (ensure_valid st) as [[[]|e] st1]; reflexivity.
Qed.

(** X15.  With [extend], a fetcher of a collection whose first page starts
    a finite chain of pages returns the first page with the items of all the
    pages put after its own, in order, and everything else in it as it was,
    its [next] included; it has sent one request for the first page and one
    for each page of the chain. *)
Theorem collection_extended f type media_type fuel id st st1 r dt obj c first
    next_url pages itemss st' :
  In (f, type, media_type) collection_fetchers ->
  ensure_valid st = (Ok tt, st1) ->
  answer st1 (request_of st1 GET (METADATA_API_URL type id) None) = Replied r dt ->
  check_response r = Ok tt ->
  json_loads (body r) = Some obj ->
  Json.getitem obj media_type = Ok c ->
  Json.getitem c "items" = Ok (JArr first) ->
  Json.getitem c "next" = Ok next_url ->
  chain (after_reply st1 (request_of st1 GET (METADATA_API_URL type id) None) r dt)
        next_url pages st' ->
  Forall2 items_of pages itemss ->
  (length pages < fuel)%nat ->
  exists result c',
    f fuel id true st = Some (Ok result, st')
    /\ Json.getitem result media_type = Ok c'
    /\ Json.getitem c' "items" = Ok (JArr (first ++ concat itemss))
    /\ (forall k, k <> "items" -> Json.getitem c' k = Json.getitem c k)
    /\ (forall k, k <> media_type -> Json.getitem result k = Json.getitem obj k)
    /\ length (sent (world st')) = (length (sent (world st1)) + 1 + length pages)%nat.
Proof.
  intros Hf Hv Ha Hok Hj Ho Hfirst Hnext Hch Hi Hl.
  rewrite (collection_fetchers_body f type media_type Hf).
  destruct (with_items_spec obj media_type c (JArr first) (first ++ concat itemss)
              Ho Hfirst) as (c' & H1 & H2 & H3 & H4).
  exists (with_items obj media_type (first ++ concat itemss)), c'.
  split; [|repeat split; try assumption].
  - rewrite get_collection_cases, Hv, fetch_cases, Ha, Hok.
    cbn [bind_result]; unfold loads; rewrite Hj.
    unfold extend_items; rewrite Ho; cbn [bind_result]; rewrite Hfirst.
    rewrite (comprehension_chain _ _ _ _ Hch itemss fuel _ _ [] Hi Hl);
      [reflexivity|].
    unfold extend_track_collection; cbn [gen_next].
    rewrite Ho; cbn [bind_result]; now rewrite Hnext.
  - rewrite (chain_sent json_loads _ _ _ _ Hch).
    cbn [after_reply world record_request sent]. rewrite length_app; cbn [length]; lia.
Qed.

(** X16.  Conversely, whatever a fetcher of a collection returns with
    [extend] is of that form: the service has accepted the request for the
    first page and those of a finite chain of pages, and the result is the
    first page with its items followed by the items of the chain. *)
Theorem collection_returns f type media_type fuel id st result st' :
  In (f, type, media_type) collection_fetchers ->
  f fuel id true st = Some (Ok result, st') ->
  exists st1 r dt obj c first next_url pages itemss,
    ensure_valid st = (Ok tt, st1)
    /\ answer st1 (request_of st1 GET (METADATA_API_URL type id) None) = Replied r dt
    /\ check_response r = Ok tt
    /\ json_loads (body r) = Some obj
    /\ Json.getitem obj media_type = Ok c
    /\ Json.getitem c "items" = Ok (JArr first)
    /\ Json.getitem c "next" = Ok next_url
    /\ chain (after_reply st1 (request_of st1 GET (METADATA_API_URL type id) None) r dt)
             next_url pages st'
    /\ Forall2 items_of pages itemss
    /\ (length pages < fuel)%nat
    /\ result = with_items obj media_type (first ++ concat itemss).
Proof.
  intros Hf. rewrite (collection_fetchers_body f type media_type Hf).
  rewrite get_collection_cases.
  destruct (ensure_valid st) as [[[]|e] st1]; [|discriminate].
  destruct (fetch (METADATA_API_URL type id) st1) as [[obj|e] st2] eqn:Ef;
    [|discriminate].
  destruct (fetch_returns json_loads _ _ _ _ Ef) as (r & dt & Ha & Hok & Hj & ->).
  unfold extend_items.
  destruct (Json.getitem obj media_type) as [c|e] eqn:Ho; cbn [bind_result];
    [|discriminate].
  destruct (Json.getitem c "items") as [[| | | |first|]|e] eqn:Hfirst; try discriminate.
  destruct (comprehension json_loads fuel _ [] _) as [[[extra|e] st3]|] eqn:Ec;
    try discriminate.
  intros [= <- <-].
  destruct (Json.getitem c "next") as [next_url|e] eqn:Hn.
  - destruct (comprehension_returns fuel _ _ _ _ _ next_url
                (after_reply st1 (request_of st1 GET (METADATA_API_URL type id) None)
                   r dt) Ec)
      as (pages & itemss & Hch & Hi & -> & Hl).
    { unfold extend_track_collection; cbn [gen_next].
      rewrite Ho; cbn [bind_result]; now rewrite Hn. }
    exists st1, r, dt, obj, c, first, next_url, pages, itemss.
    repeat split; assumption.
  - destruct fuel as [|fuel]; [discriminate|].
    unfold extend_track_collection in Ec; cbn [comprehension gen_next] in Ec.
    rewrite Ho in Ec; cbn [bind_result] in Ec; rewrite Hn in Ec; discriminate.
Qed.

(** X17.  The method [extend] of the items is looked up before the
    extender runs: a first page without the collection or without its items
    raises [KeyError], one whose items are not a list raises
    [AttributeError], in both cases after the request for the first page and
    before any other, however much there is to fetch.  Without [extend] the
    first page is returned as it is after its one request, whatever is in
    it. *)
Theorem collection_first_page f type media_type fuel id st st1 r dt obj :
  In (f, type, media_type) collection_fetchers ->
  ensure_valid st = (Ok tt, st1) ->
  answer st1 (request_of st1 GET (METADATA_API_URL type id) None) = Replied r dt ->
  check_response r = Ok tt ->
  json_loads (body r) = Some obj ->
  let st2 :=
    after_reply st1 (request_of st1 GET (METADATA_API_URL type id) None) r dt in
  f fuel id false st = Some (Ok obj, st2)
  /\ (forall e,
        bind_result (Json.getitem obj media_type) (fun c => Json.getitem c "items")
        = Raise e ->
        f fuel id true st = Some (Raise e, st2))
  /\ (forall v,
        bind_result (Json.getitem obj media_type) (fun c => Json.getitem c "items")
        = Ok v ->
        (forall items, v <> JArr items) ->
        f fuel id true st = Some (Raise AttributeError, st2)).
Proof.
  intros Hf Hv Ha Hok Hj st2.
  rewrite (collection_fetchers_body f type media_type Hf).
  rewrite !get_collection_cases, Hv, fetch_cases, Ha, Hok.
  cbn [bind_result]; unfold loads; rewrite Hj. fold st2.
  split; [reflexivity|]. unfold extend_items. split.
  - intros e ->; reflexivity.
  - intros v -> Hv'. destruct v; try reflexivity. now destruct (Hv' items).
Qed.

End Collections.

(** ** The cache of [get_album] over several calls *)

Lemma bind_keywords_raises kw : forall a x e,
  bind_keywords kw a x = Raise e -> e = TypeError.
Proof.
  induction kw as [|[name v] kw IH]; intros a x e; cbn [bind_keywords];
    [discriminate|].
  destruct (String.eqb name "album_id"); [destruct a; [congruence|apply IH]|].
  destruct (String.eqb name "extend"); [destruct x; [congruence|apply IH]|].
  congruence.
Qed.

Lemma bind_arguments_raises c e : bind_arguments c = Raise e -> e = TypeError.
Proof.
  unfold bind_arguments.
  destruct (args c) as [|a [|x [|y l]]];
    try (destruct (bind_keywords _ _ _) as [[[?|] [?|]]|?] eqn:Ek;
         try congruence; apply bind_keywords_raises in Ek; congruence).
  congruence.
Qed.

Lemma cache_lookup_filter k (p : Call * JSON -> bool) cache :
  cache_lookup k cache = None -> cache_lookup k (List.filter p cache) = None.
Proof.
  induction cache as [|[k' v'] cache IH]; [reflexivity|]; cbn [cache_lookup List.filter].
  destruct (key_eqb k' k) eqn:E; [discriminate|]. intros H.
  destruct (p (k', v')); [cbn [cache_lookup]; rewrite E|]; exact (IH H).
Qed.

Lemma cache_lookup_filter_self k cache :
  cache_lookup k (List.filter (fun e => negb (key_eqb (fst e) k)) cache) = None.
Proof.
  induction cache as [|[k' v'] cache IH]; [reflexivity|]; cbn [List.filter fst].
  destruct (key_eqb k' k) eqn:E; cbn [negb]; [exact IH|].
  cbn [cache_lookup]; now rewrite E.
Qed.

Lemma recent_lookup k v j cache : recent k v j cache -> cache_lookup k cache = Some v.
Proof.
  intros (older & newer & -> & Ho & _).
  rewrite cache_lookup_app, Ho; cbn [cache_lookup]. now rewrite key_eqb_refl.
Qed.

Lemma recent_weaken k v j j' cache :
  recent k v j cache -> (j <= j')%nat -> recent k v j' cache.
Proof.
  intros (older & newer & E & Ho & Hl) Hj. exists older, newer; repeat split; auto; lia.
Qed.

(** Using another entry moves it behind the entry of [k]. *)
Lemma recent_touch k v j c v0 cache :
  recent k v j cache -> c <> k ->
  recent k v (S j) (cache_touch c v0 cache).
Proof.
  intros (older & newer & -> & Ho & Hl) Hne.
  assert (Ek : key_eqb k c = false).
  { destruct (key_eqb k c) eqn:E; [|reflexivity].
    apply key_eqb_eq in E; congruence. }
  unfold cache_touch. rewrite List.filter_app; cbn [List.filter fst].
  rewrite Ek; cbn [negb]. rewrite <- app_assoc; cbn [app].
  eexists _, _; split; [reflexivity|]; split.
  - apply cache_lookup_filter, Ho.
  - rewrite length_app; cbn [length].
    pose proof (List.filter_length_le (fun e => negb (key_eqb (fst e) c)) newer). lia.
Qed.

(** Storing another entry puts it behind the entry of [k], which is not the
    one dropped as long as fewer than 127 entries are behind it. *)
Lemma recent_store k v j c v0 cache :
  recent k v j cache -> (j < 127)%nat -> (length cache <= maxsize)%nat ->
  recent k v (S j) (cache_store c v0 cache).
Proof.
  intros (older & newer & -> & Ho & Hl) Hj Hlen.
  unfold cache_store, maxsize in *.
  rewrite length_app in *; cbn [length] in *.
  destruct (Nat.leb_spec 128 (length older + S (length newer))).
  - destruct older as [|x older]; cbn [length] in *; [lia|].
    cbn [app tl]. rewrite <- app_assoc; cbn [app].
    eexists _, _; split; [reflexivity|]; split.
    + apply (cache_lookup_tl k (x :: older)), Ho.
    + rewrite length_app; cbn [length]; lia.
  - rewrite <- app_assoc; cbn [app].
    eexists _, _; split; [reflexivity|]; split; [exact Ho|].
    rewrite length_app; cbn [length]; lia.
Qed.

Section CacheOverCalls.

Variable json_loads : string -> option JSON.
Variable py_repr : JSON -> string.

Local Abbreviation call := (get_album json_loads py_repr).

(** A call that returned leaves its entry as the most recently used one. *)
Lemma get_album_recent fuel k st v st1 :
  call fuel k st = Some (Ok v, st1) -> recent k v 0 (get_album_cache st1).
Proof.
  destruct (cache_lookup k (get_album_cache st)) as [v0|] eqn:E.
  - rewrite (get_album_hit json_loads py_repr fuel k st v0 E); intros [= <- <-].
    cbn [set_cache get_album_cache]; unfold cache_touch.
    eexists _, []; split; [reflexivity|]; split; [apply cache_lookup_filter_self|].
    cbn [length]; lia.
  - rewrite (get_album_miss json_loads py_repr fuel k st E).
    destruct (bind_arguments k) as [[album_id extend]|e]; [|discriminate].
    destruct (get_album_uncached json_loads py_repr fuel album_id extend st)
      as [[[album|e] st']|] eqn:Eu; try discriminate.
    intros [= <- <-]; cbn [set_cache get_album_cache]; unfold cache_store.
    destruct (uncached_frame json_loads py_repr fuel album_id extend st _ st' Eu)
      as [-> _].
    eexists _, []; split; [reflexivity|]; split; [|cbn [length]; lia].
    destruct (Nat.leb maxsize (length (get_album_cache st)));
      [apply cache_lookup_tl|]; exact E.
Qed.

Lemma get_album_length fuel c st r st' :
  (length (get_album_cache st) <= maxsize)%nat ->
  call fuel c st = Some (r, st') ->
  (length (get_album_cache st') <= maxsize)%nat.
Proof.
  intros Hlen.
  destruct (cache_lookup c (get_album_cache st)) as [v|] eqn:E.
  - rewrite (get_album_hit json_loads py_repr fuel c st v E); intros [= <- <-].
    cbn [set_cache get_album_cache].
    destruct (cache_touch_length c v (get_album_cache st)) as [_ H].
    specialize (H ltac:(congruence)); lia.
  - rewrite (get_album_miss json_loads py_repr fuel c st E).
    destruct (bind_arguments c) as [[album_id extend]|e];
      [|intros [= <- <-]; exact Hlen].
    destruct (get_album_uncached json_loads py_repr fuel album_id extend st)
      as [[[album|e] st1]|] eqn:Eu; try discriminate;
      destruct (uncached_frame json_loads py_repr fuel album_id extend st _ st1 Eu)
        as [Hc _];
      intros [= <- <-]; cbn [set_cache get_album_cache]; rewrite Hc;
      [apply cache_store_length|]; exact Hlen.
Qed.

(** One more call, with any arguments, leaves the entry in the cache. *)
Lemma recent_step fuel c st r st' k v j :
  recent k v j (get_album_cache st) -> (j < 127)%nat ->
  (length (get_album_cache st) <= maxsize)%nat ->
  call fuel c st = Some (r, st') ->
  recent k v (S j) (get_album_cache st').
Proof.
  intros Hr Hj Hlen.
  destruct (cache_lookup c (get_album_cache st)) as [v0|] eqn:E.
  - rewrite (get_album_hit json_loads py_repr fuel c st v0 E); intros [= <- <-].
    cbn [set_cache get_album_cache].
    destruct (key_eqb c k) eqn:Ek.
    + apply key_eqb_eq in Ek; subst c.
      rewrite (recent_lookup _ _ _ _ Hr) in E; injection E as <-.
      unfold cache_touch.
      eexists _, []; split; [reflexivity|]; split; [apply cache_lookup_filter_self|].
      cbn [length]; lia.
    + apply recent_touch; [exact Hr|]. intros ->. now rewrite key_eqb_refl in Ek.
  - rewrite (get_album_miss json_loads py_repr fuel c st E).
    destruct (bind_arguments c) as [[album_id extend]|e];
      [|intros [= <- <-]; apply (recent_weaken _ _ j); [exact Hr|lia]].
    destruct (get_album_uncached json_loads py_repr fuel album_id extend st)
      as [[[album|e] st1]|] eqn:Eu; try discriminate;
      destruct (uncached_frame json_loads py_repr fuel album_id extend st _ st1 Eu)
        as [Hc _];
      intros [= <- <-]; cbn [set_cache get_album_cache]; rewrite Hc.
    + apply recent_store; assumption.
    + apply (recent_weaken _ _ j); [exact Hr|lia].
Qed.

Lemma calls_recent n st st' :
  calls json_loads py_repr n st st' ->
  forall k v j,
    recent k v j (get_album_cache st) ->
    (length (get_album_cache st) <= maxsize)%nat ->
    (j + n <= 127)%nat ->
    recent k v (j + n) (get_album_cache st')
    /\ (length (get_album_cache st') <= maxsize)%nat.
Proof.
  induction 1 as [st|n st st1 st2 Hc _ IH|n fuel c r st st1 st2 Hc _ IH];
    intros k v j Hr Hlen Hj.
  - rewrite Nat.add_0_r; now split.
  - apply IH; [rewrite Hc; exact Hr|rewrite Hc; exact Hlen|exact Hj].
  - replace (j + S n)%nat with (S j + n)%nat by lia.
    apply IH; [|exact (get_album_length fuel c st r st1 Hlen Hc)|lia].
    apply (recent_step fuel c st r st1 k v j Hr); [lia|exact Hlen|exact Hc].
Qed.

(** X18.  An exception is not cached: a call of [get_album] that raises
    leaves the cache as it was, without an entry for its arguments, so that
    the same call made again runs the function again and, with a readable
    token expiry, sends a request. *)
Theorem failure_not_cached fuel c st e st1 :
  call fuel c st = Some (Raise e, st1) ->
  get_album_cache st1 = get_album_cache st
  /\ cache_lookup c (get_album_cache st1) = None
  /\ forall fuel' r st2 expire,
       bind_arguments c <> Raise TypeError ->
       token_expiry (self st1) = Ok expire ->
       call fuel' c st1 = Some (r, st2) ->
       (length (sent (world st1)) < length (sent (world st2)))%nat.
Proof.
  destruct (cache_lookup c (get_album_cache st)) as [v0|] eqn:E.
  - rewrite (get_album_hit json_loads py_repr fuel c st v0 E); discriminate.
  - rewrite (get_album_miss json_loads py_repr fuel c st E).
    destruct (bind_arguments c) as [[album_id extend]|e0] eqn:Eb.
    + destruct (get_album_uncached json_loads py_repr fuel album_id extend st)
        as [[[album|e0] st']|] eqn:Eu; try discriminate.
      intros [= -> ->].
      destruct (uncached_frame json_loads py_repr fuel album_id extend st _ st1 Eu)
        as [Hc _].
      assert (E1 : cache_lookup c (get_album_cache st1) = None)
        by (rewrite Hc; exact E).
      split; [exact Hc|]. split; [exact E1|].
      intros fuel' r st2 expire _ He.
      rewrite (get_album_miss json_loads py_repr fuel' c st1 E1), Eb.
      destruct (get_album_uncached json_loads py_repr fuel' album_id extend st1)
        as [[[album|e1] st3]|] eqn:Eu'; try discriminate;
        destruct (uncached_frame json_loads py_repr fuel' album_id extend st1 _ st3 Eu')
          as [_ Hs];
        intros [= <- <-]; cbn [set_cache world]; eapply Hs, He.
    + intros [= -> ->]. split; [reflexivity|]. split; [exact E|].
      intros fuel' r st2 expire Hne. exfalso; apply Hne.
      pose proof (bind_arguments_raises c e Eb) as Ht. congruence.
Qed.

(** X19.  An album that [get_album] has returned stays in the cache through
    the next 127 calls of [get_album], whatever their arguments and whatever
    else happens between them: the call made again after them returns the
    same value and sends nothing. *)
Theorem cache_entry_survives fuel fuel' k v st st1 n st2 :
  (length (get_album_cache st) <= maxsize)%nat ->
  call fuel k st = Some (Ok v, st1) ->
  calls json_loads py_repr n st1 st2 ->
  (n <= 127)%nat ->
  exists st3,
    call fuel' k st2 = Some (Ok v, st3)
    /\ world st3 = world st2 /\ self st3 = self st2.
Proof.
  intros Hlen Hk Hcalls Hn.
  pose proof (get_album_recent fuel k st v st1 Hk) as Hr.
  pose proof (get_album_length fuel k st _ st1 Hlen Hk) as Hlen1.
  destruct (calls_recent n st1 st2 Hcalls k v 0%nat Hr Hlen1) as [Hr2 _]; [lia|].
  apply recent_lookup in Hr2.
  rewrite (get_album_hit json_loads py_repr fuel' k st2 v Hr2).
  eexists; repeat split.
Qed.

(** X20.  The arguments of [get_album] may be given by position or by
    keyword, in any order, and bind the same parameters, but each way of
    writing them is a key of its own.  Arguments that do not fit raise
    [TypeError] without a request, and nothing is stored. *)
Theorem call_binding :
  (forall a x,
     bind_arguments (mkCall [a; x] []) = Ok (a, x)
     /\ bind_arguments (mkCall [a] [("extend", x)]) = Ok (a, x)
     /\ bind_arguments (mkCall [] [("album_id", a); ("extend", x)]) = Ok (a, x)
     /\ bind_arguments (mkCall [] [("extend", x); ("album_id", a)]) = Ok (a, x)
     /\ bind_arguments (mkCall [] [("album_id", a)]) = Ok (a, VBool true)
     /\ key_eqb (mkCall [] [("album_id", a); ("extend", x)])
                (mkCall [] [("extend", x); ("album_id", a)]) = false
     /\ key_eqb (mkCall [a; x] []) (mkCall [a] [("extend", x)]) = false)
  /\ (forall fuel c st e,
        cache_lookup c (get_album_cache st) = None ->
        bind_arguments c = Raise e ->
        call fuel c st = Some (Raise TypeError, st)).
Proof.
  split.
  - intros a x; repeat split.
    unfold key_eqb; cbn [args list_eqb]. now rewrite andb_false_r.
  - intros fuel c st e Hmiss Hb.
    rewrite (get_album_miss json_loads py_repr fuel c st Hmiss), Hb.
    now rewrite (bind_arguments_raises c e Hb).
Qed.

End CacheOverCalls.

(** ** The landing page and its two blobs *)

Lemma starts_with_app p : forall s r,
  re.starts_with p s = Some r -> s = (p ++ r)%string.
Proof.
  induction p as [|a p IH]; intros s r; cbn [re.starts_with].
  - now intros [= ->].
  - destruct s as [|b s]; [discriminate|].
    destruct (Ascii.eqb_spec a b) as [<-|]; [|discriminate].
    intros H. rewrite app_String. f_equal. exact (IH s r H).
Qed.

(** The group of [(.+?)close]: not empty, on one line, followed by [close],
    and the shortest there is: [close] does not start earlier. *)
Lemma lazy_group_sound close : forall s g,
  re.lazy_group close s = Some g ->
  g <> EmptyString
  /\ Radix.all_chars (fun c => negb (Ascii.eqb c re.LF)) g = true
  /\ (exists post, s = (g ++ close ++ post)%string)
  /\ (forall c g1 g2,
        g = (String c g1 ++ g2)%string -> g2 <> EmptyString ->
        forall post, s = (g ++ post)%string ->
                     re.starts_with close (g2 ++ post)%string = None).
Proof.
  induction s as [|c s IH]; intros g; cbn [re.lazy_group]; [discriminate|].
  destruct (Ascii.eqb c re.LF) eqn:Elf; [discriminate|].
  destruct (re.starts_with close s) as [post|] eqn:Es.
  - intros [= <-]. split; [discriminate|]. split; [cbn; now rewrite Elf|]. split.
    + exists post. rewrite app_String, app_empty. f_equal.
      exact (starts_with_app _ _ _ Es).
    + intros c0 g1 g2 E Hne. rewrite app_String in E. injection E as _ E.
      destruct g1; [rewrite app_empty in E|rewrite app_String in E; discriminate].
      now subst g2.
  - destruct (re.lazy_group close s) as [g'|] eqn:Eg; [|discriminate].
    intros [= <-]. destruct (IH g' eq_refl) as (Hne & Hlf & (post & Hpost) & Hmin).
    split; [discriminate|]. split; [cbn; now rewrite Elf, Hlf|]. split.
    + exists post. rewrite app_String. now f_equal.
    + intros c0 g1 g2 E Hne2 post0 Hs.
      rewrite !app_String in *. injection E as _ E. injection Hs as Hs.
      destruct g1 as [|c1 g1].
      * rewrite app_empty in E; subst g2. rewrite <- Hs. exact Es.
      * exact (Hmin c1 g1 g2 E Hne2 post0 Hs).
Qed.

Lemma starts_with_complete p r : re.starts_with p (p ++ r)%string = Some r.
Proof.
  induction p as [|a p IH]; [reflexivity|].
  rewrite app_String; cbn [re.starts_with]. now rewrite Ascii.eqb_refl.
Qed.

Lemma starts_with_none p s :
  re.starts_with p s = None -> forall r, s <> (p ++ r)%string.
Proof. intros H r ->. rewrite starts_with_complete in H. discriminate H. Qed.

Lemma starts_with_some p s :
  (forall r, s <> (p ++ r)%string) -> re.starts_with p s = None.
Proof.
  intros H. destruct (re.starts_with p s) as [r|] eqn:E; [|reflexivity].
  destruct (H r (starts_with_app p s r E)).
Qed.

(** Where a group as the pattern wants it is followed by [close], the lazy
    group finds one. *)
Lemma lazy_group_complete close post : forall g,
  g <> EmptyString ->
  Radix.all_chars (fun c => negb (Ascii.eqb c re.LF)) g = true ->
  exists g', re.lazy_group close (g ++ close ++ post)%string = Some g'.
Proof.
  induction g as [|c g IH]; intros Hne Hlf; [congruence|].
  cbn [Radix.all_chars] in Hlf. apply andb_true_iff in Hlf as [Hc Hg].
  apply negb_true_iff in Hc.
  rewrite app_String; cbn [re.lazy_group]. rewrite Hc.
  destruct (re.starts_with close (g ++ close ++ post)%string) eqn:Es; [eauto|].
  destruct g as [|c' g'].
  - rewrite app_empty, starts_with_complete in Es. discriminate Es.
  - destruct (IH ltac:(discriminate) Hg) as (g'' & ->). eauto.
Qed.

(** The lazy group is the shortest group. *)
Lemma lazy_group_shortest close post : forall g,
  g <> EmptyString ->
  Radix.all_chars (fun c => negb (Ascii.eqb c re.LF)) g = true ->
  (forall c g1 g2 post',
     g = (String c g1 ++ g2)%string -> g2 <> EmptyString ->
     (g2 ++ close ++ post)%string <> (close ++ post')%string) ->
  re.lazy_group close (g ++ close ++ post)%string = Some g.
Proof.
  induction g as [|c g IH]; intros Hne Hlf Hmin; [congruence|].
  cbn [Radix.all_chars] in Hlf. apply andb_true_iff in Hlf as [Hc Hg].
  apply negb_true_iff in Hc.
  rewrite app_String; cbn [re.lazy_group]. rewrite Hc.
  destruct g as [|c' g'].
  - now rewrite app_empty, starts_with_complete.
  - rewrite (starts_with_some close (String c' g' ++ close ++ post)%string).
    + rewrite IH; [reflexivity|discriminate|exact Hg|].
      intros c0 g1 g2 post' E Hne2.
      apply (Hmin c (String c0 g1) g2 post'); [|exact Hne2].
      now rewrite E, !app_String.
    + intros r. apply (Hmin c EmptyString (String c' g') r); [|discriminate].
      now rewrite app_String, app_empty.
Qed.

(** A match of the pattern at the beginning of [s]. *)
Lemma match_at_sound open close s g :
  re.match_at open close s = Some g ->
  g <> EmptyString
  /\ Radix.all_chars (fun c => negb (Ascii.eqb c re.LF)) g = true
  /\ exists post,
       s = (open ++ g ++ close ++ post)%string
       /\ forall c g1 g2 post',
            g = (String c g1 ++ g2)%string -> g2 <> EmptyString ->
            (g2 ++ close ++ post)%string <> (close ++ post')%string.
Proof.
  unfold re.match_at.
  destruct (re.starts_with open s) as [rest|] eqn:Es; [|discriminate].
  intros Hg.
  destruct (lazy_group_sound close rest g Hg) as (H1 & H2 & (post & H3) & Hmin).
  split; [exact H1|]. split; [exact H2|]. exists post. split.
  - rewrite <- H3. exact (starts_with_app _ _ _ Es).
  - intros c g1 g2 post' E Hne.
    exact (starts_with_none _ _ (Hmin c g1 g2 E Hne (close ++ post)%string H3) post').
Qed.

Lemma match_at_none open close s :
  re.match_at open close s = None ->
  forall g post,
    g <> EmptyString ->
    Radix.all_chars (fun c => negb (Ascii.eqb c re.LF)) g = true ->
    s <> (open ++ g ++ close ++ post)%string.
Proof.
  unfold re.match_at. intros H g post Hne Hlf ->.
  rewrite starts_with_complete in H.
  destruct (lazy_group_complete close post g Hne Hlf) as (g' & E).
  rewrite E in H. discriminate H.
Qed.

Lemma match_at_some open close s :
  (forall g post,
     g <> EmptyString ->
     Radix.all_chars (fun c => negb (Ascii.eqb c re.LF)) g = true ->
     s <> (open ++ g ++ close ++ post)%string) ->
  re.match_at open close s = None.
Proof.
  intros H. destruct (re.match_at open close s) as [g|] eqn:E; [|reflexivity].
  destruct (match_at_sound open close s g E) as (H1 & H2 & post & H3 & _).
  destruct (H g post H1 H2 H3).
Qed.

(** [re.search] finds the first match of the pattern. *)
Lemma search_sound open close : forall s g,
  re.search open close s = Some g ->
  exists pre post, first_match open close s pre g post.
Proof.
  induction s as [|c s IH]; intros g; cbn [re.search].
  - destruct (re.match_at open close EmptyString) as [g'|] eqn:Em; [|discriminate].
    intros [= <-].
    destruct (match_at_sound _ _ _ _ Em) as (H1 & H2 & post & H3 & Hmin).
    exists EmptyString, post. repeat split; try assumption.
    intros pre1 rest g0 post' _ Hl; cbn [String.length] in Hl; lia.
  - destruct (re.match_at open close (String c s)) as [g'|] eqn:Em.
    + intros [= <-].
      destruct (match_at_sound _ _ _ _ Em) as (H1 & H2 & post & H3 & Hmin).
      exists EmptyString, post. repeat split; try assumption.
      intros pre1 rest g0 post' _ Hl; cbn [String.length] in Hl; lia.
    + intros Hs. destruct (IH g Hs) as (pre & post & H1 & H2 & H3 & Hmin & Hleft).
      exists (String c pre), post. repeat split; try assumption.
      * rewrite app_String. now f_equal.
      * intros pre1 rest g' post' E Hl Hne Hlf.
        destruct pre1 as [|c1 pre1].
        -- rewrite app_empty in E; subst rest.
           exact (match_at_none _ _ _ Em g' post' Hne Hlf).
        -- rewrite app_String in E; injection E as _ E.
           cbn [String.length] in Hl.
           apply (Hleft pre1 rest g' post' E); [lia|exact Hne|exact Hlf].
Qed.

(** Conversely, the first match of the pattern is what [re.search]
    returns. *)
Lemma search_complete open close : forall pre s g post,
  first_match open close s pre g post -> re.search open close s = Some g.
Proof.
  induction pre as [|c pre IH]; intros s g post (H1 & H2 & H3 & Hmin & Hleft).
  - rewrite app_empty in H1. subst s.
    assert (Em : re.match_at open close (open ++ g ++ close ++ post)%string = Some g).
    { unfold re.match_at. rewrite starts_with_complete.
      exact (lazy_group_shortest close post g H2 H3 Hmin). }
    destruct (open ++ g ++ close ++ post)%string; cbn [re.search]; now rewrite Em.
  - rewrite app_String in H1. subst s. cbn [re.search].
    rewrite (match_at_some open close).
    + apply (IH _ g post). repeat split; try assumption.
      intros pre1 rest g' post' E Hl.
      apply (Hleft (String c pre1) rest g' post').
      * rewrite app_String. now f_equal.
      * cbn [String.length]; lia.
    + intros g' post' Hne Hlf.
      apply (Hleft EmptyString _ g' post'); [reflexivity| |exact Hne|exact Hlf].
      cbn [String.length]; lia.
Qed.

Section LandingPage.

Variable json_loads : string -> option JSON.
Variable py_repr : JSON -> string.

Local Abbreviation bootstrap := (_set_session_auth json_loads py_repr).
Local Abbreviation ensure_valid := (_refresh_session_auth json_loads py_repr).
Local Abbreviation next := (gen_next json_loads).
Local Abbreviation pull := (drain json_loads).
Local Abbreviation items_of :=
  (fun page items => bind_result (Json.getitem page "items") Json.iterate = Ok items).
Local Abbreviation collection_fetchers :=
  [ (fun fuel id extend =>
       get_album_uncached json_loads py_repr fuel (VStr id) (VBool extend),
     "albums", "tracks");
    (get_playlist json_loads py_repr, "playlists", "tracks");
    (get_show json_loads py_repr, "shows", "episodes") ].

(** X21.  What a successful bootstrap stores has been read off the landing
    page: the page holds the script tag of the session, then a text on one
    line, then the end of a script, such that the text decodes to the stored
    session blob, is the shortest one before an end of a script, and no
    other match begins earlier in the page; likewise for the configuration.
    These properties determine what [re.search] returns. *)
Theorem bootstrap_reads_blobs st st' :
  bootstrap st = (Ok tt, st') ->
  (exists r dt,
     answer st (home_request st) = Replied r dt
     /\ check_response r = Ok tt
     /\ forall id stored,
          In (id, stored) [("session", session_info (self st'));
                           ("config", config_info (self st'))] ->
          exists pre blob post,
            first_match (script_tag id) SCRIPT_END (body r) pre blob post
            /\ json_loads blob = Some stored)
  /\ (forall id page pre blob post,
        first_match (script_tag id) SCRIPT_END page pre blob post ->
        re.search (script_tag id) SCRIPT_END page = Some blob).
Proof.
  intros Hb. split; [|intros id page pre blob post; apply search_complete].
  destruct (bootstrap_installs json_loads py_repr st st' Hb)
    as (r & dt & sb & cb & token & Ha & Hs & Hc & Hjs & Hjc & _).
  exists r, dt. split; [exact Ha|]. split.
  - rewrite bootstrap_install in Hb.
    destruct (get_home_page_cases st)
      as [(r' & dt' & Ha' & Hok & E)|[(r' & dt' & Ha' & Hno & E)|(e & dt' & Ha' & E)]];
      rewrite E in Hb; try discriminate.
    rewrite Ha in Ha'; injection Ha' as <- <-.
    now apply check_response_success.
  - intros id stored Hin. cbn [In] in Hin.
    destruct Hin as [[= <- <-]|[[= <- <-]|[]]].
    + destruct (search_sound _ _ _ _ Hs) as (pre & post & H).
      exists pre, sb, post; split; assumption.
    + destruct (search_sound _ _ _ _ Hc) as (pre & post & H).
      exists pre, cb, post; split; assumption.
Qed.

(** X22.  [get_home_page] never renews: it sends its one request, returns
    the body of an answer that [check_response] accepts, and leaves the
    stored blobs and all headers as they are. *)
Theorem home_page_plain st :
  sent (world (snd (get_home_page st))) = sent (world st) ++ [home_request st]
  /\ headers (session (self (snd (get_home_page st)))) = headers (session (self st))
  /\ session_info (self (snd (get_home_page st))) = session_info (self st)
  /\ config_info (self (snd (get_home_page st))) = config_info (self st)
  /\ forall page st',
       get_home_page st = (Ok page, st') ->
       exists r dt,
         answer st (home_request st) = Replied r dt
         /\ check_response r = Ok tt
         /\ page = body r.
Proof.
  destruct (get_home_page_headers st) as (Hh & _ & Hs & Hc).
  split; [apply get_home_page_sent|]. repeat split; try assumption.
  intros page st'.
  destruct (get_home_page_cases st)
    as [(r & dt & Ha & Hok & E)|[(r & dt & Ha & Hno & E)|(e & dt & Ha & E)]];
    rewrite E; try discriminate.
  intros [= <- <-]. exists r, dt; repeat split; [exact Ha|].
  now apply check_response_success.
Qed.

(** *** What the fetchers leave alone *)

Lemma session_request_kept m u d st : kept st (snd (session_request m u d st)).
Proof.
  destruct (session_request_cases m u d st)
    as [(r & dt & _ & ->)|(e & dt & _ & ->)]; repeat split.
Qed.

Lemma kept_request {A} m u d (k : Response -> M A) st :
  (forall r st1, kept st1 (snd (k r st1))) ->
  kept st (snd ((let* response := session_request m u d in k response) st)).
Proof.
  intros Hk. unfold bind.
  pose proof (session_request_kept m u d st) as H.
  destruct (session_request m u d st) as [[r|e] st1]; cbn [snd] in *; [|exact H].
  exact (kept_trans _ _ _ H (Hk r st1)).
Qed.

Lemma kept_renew {A} (c : M A) st :
  (forall st1, kept st1 (snd (c st1))) ->
  kept st (snd ((let* _ := ensure_valid in c) st)).
Proof.
  intros Hc. unfold bind.
  pose proof (ensure_valid_kept json_loads py_repr st) as (H & _).
  destruct (ensure_valid st) as [[[]|e] st1]; cbn [snd] in *; [|exact H].
  exact (kept_trans _ _ _ H (Hc st1)).
Qed.

Lemma kept_decode r st :
  kept st (snd ((let* _ := lift (check_response r) in
                 lift (response_json json_loads r)) st)).
Proof.
  unfold bind, lift. destruct (check_response r); apply kept_refl.
Qed.

Lemma next_kept g st : kept st (snd (next g st)).
Proof.
  assert (Hloop : forall next_url st0,
            kept st0 (snd (gen_loop json_loads next_url st0))).
  { intros next_url st0; unfold gen_loop.
    destruct (Json.is_not_None next_url); [|apply kept_refl].
    destruct next_url as [| | |u| |];
      try (unfold session_get_value, bind, raise; apply kept_refl).
    cbn [session_get_value]; unfold session_get.
    pose proof (kept_request GET u None
                  (fun response => let* _ := lift (check_response response) in
                                   lift (response_json json_loads response))
                  st0 (fun r st1 => kept_decode r st1)) as H.
    destruct ((let* response := session_request GET u None in _) st0)
      as [[v|e] st1]; exact H. }
  destruct g as [tc mt|ec|]; cbn [gen_next]; [| |apply kept_refl].
  - destruct (bind_result _ _); [apply Hloop|apply kept_refl].
  - destruct (Json.getitem ec "next"); [|apply kept_refl].
    apply (kept_trans _ (snd (sleep EXTEND_TRACK_COLLECTION_WAIT_TIME st)));
      [repeat split|apply Hloop].
Qed.

Lemma comprehension_kept fuel : forall g acc st r st',
  comprehension json_loads fuel g acc st = Some (r, st') -> kept st st'.
Proof.
  induction fuel as [|fuel IH]; intros g acc st r st'; cbn [comprehension];
    [discriminate|].
  pose proof (next_kept g st) as Hk.
  destruct (next g st) as [[[[p|]|e] g1] st1]; cbn [snd] in Hk.
  - destruct (bind_result _ _) as [items|e].
    + intros H; exact (kept_trans _ _ _ Hk (IH _ _ _ _ _ H)).
    + now intros [= <- <-].
  - now intros [= <- <-].
  - now intros [= <- <-].
Qed.

Lemma plain_fetch_kept u st :
  kept st (snd ((let* _ := ensure_valid in fetch_json json_loads u) st)).
Proof.
  apply kept_renew. intros st1. unfold fetch_json, session_get.
  apply kept_request. intros r st2. apply kept_decode.
Qed.

Lemma get_lyrics_kept track_id st :
  kept st (snd (get_lyrics json_loads py_repr track_id st)).
Proof.
  unfold get_lyrics. apply kept_renew. intros st1.
  unfold session_get. apply kept_request. intros r st2.
  destruct (status_code r =? 404); [apply kept_refl|].
  unfold bind, lift, ret. destruct (check_response r); [|apply kept_refl].
  destruct (response_json json_loads r); apply kept_refl.
Qed.

Lemma get_playplay_license_kept file_id challenge st :
  kept st (snd (get_playplay_license json_loads py_repr file_id challenge st)).
Proof.
  unfold get_playplay_license. apply kept_renew.
  intros st1. unfold session_post. apply kept_request. intros r st2.
  unfold bind, lift, ret. destruct (check_response r); apply kept_refl.
Qed.

Lemma get_collection_kept type media_type fuel id extend st r st' :
  get_collection json_loads py_repr type media_type fuel id extend st
  = Some (r, st') ->
  kept st st'.
Proof.
  unfold get_collection.
  pose proof (plain_fetch_kept (METADATA_API_URL type id) st) as Hk.
  unfold fetch_json in Hk.
  destruct ((let* _ := ensure_valid in _) st) as [[obj|e] st1]; cbn [snd] in Hk;
    [|now intros [= <- <-]].
  destruct extend; [|now intros [= <- <-]].
  unfold extend_items.
  destruct (bind_result _ _) as [[| | | |items|]|e];
    try (now intros [= <- <-]).
  destruct (comprehension json_loads fuel _ [] st1) as [[[extra|e] st2]|] eqn:Ec;
    [| |discriminate];
    intros [= <- <-];
    exact (kept_trans _ _ _ Hk (comprehension_kept _ _ _ _ _ _ Ec)).
Qed.

(** X23.  No fetcher rebuilds the session or touches the cache: whatever
    it does, the cookie path, every header other than [Authorization], the
    cache of [get_album] and the remote service are as before. *)
Theorem fetchers_frame st :
  (forall gid media_type track_id episode_id file_id c,
     In c [ get_gid_metadata json_loads py_repr gid media_type;
            get_track json_loads py_repr track_id;
            get_track_credits json_loads py_repr track_id;
            get_episode json_loads py_repr episode_id;
            get_stream_urls json_loads py_repr file_id ] ->
     kept st (snd (c st)))
  /\ (forall track_id, kept st (snd (get_lyrics json_loads py_repr track_id st)))
  /\ (forall file_id challenge,
        kept st (snd (get_playplay_license json_loads py_repr file_id challenge st)))
  /\ (forall f type media_type fuel id extend r st',
        In (f, type, media_type) collection_fetchers ->
        f fuel id extend st = Some (r, st') ->
        kept st st').
Proof.
  split; [|split; [|split]].
  - intros gid media_type track_id episode_id file_id c Hin. cbn [In] in Hin.
    repeat (destruct Hin as [<-|Hin]; [apply plain_fetch_kept|]). destruct Hin.
  - intros track_id. apply get_lyrics_kept.
  - intros file_id challenge. apply get_playplay_license_kept.
  - intros f type media_type fuel id extend r st' Hin.
    assert (Hf : f = get_collection json_loads py_repr type media_type).
    { cbn [In] in Hin.
      repeat (destruct Hin as [[= <- <- <-]|Hin]; [reflexivity|]). destruct Hin. }
    subst f. apply get_collection_kept.
Qed.

(** X24.  The list comprehension of the fetchers of collections consumes
    the generator as plain iteration does: when pulling every page gives
    [pages], the comprehension collects the items of these pages in order
    and ends in the same state; when the iteration raises, the
    comprehension raises the same exception, and the items of the pages
    before are dropped. *)
Theorem comprehension_drains fuel : forall g st pages outcome g' st' itemss acc,
  pull fuel g st = Some (pages, outcome, g', st') ->
  Forall2 items_of pages itemss ->
  comprehension json_loads fuel g acc st
  = Some (match outcome with
          | Ok _ => Ok (acc ++ concat itemss)
          | Raise e => Raise e
          end, st').
Proof.
  induction fuel as [|fuel IH]; intros g st pages outcome g' st' itemss acc;
    cbn [drain comprehension]; [discriminate|].
  destruct (next g st) as [[[[page|]|e] g1] st1].
  - destruct (pull fuel g1 st1) as [[[[ps r] g2] st2]|] eqn:Ep; [|discriminate].
    intros [= <- <- <- <-] Hi.
    inversion Hi as [|? items ? itemss' Hit Hrest]; subst. rewrite Hit.
    rewrite (IH _ _ _ _ _ _ itemss' (acc ++ items) Ep Hrest).
    cbn [concat]. now rewrite app_assoc.
  - intros [= <- <- <- <-] Hi. inversion Hi; subst.
    cbn [concat]. now rewrite app_nil_r.
  - intros [= <- <- <- <-] Hi. reflexivity.
Qed.

End LandingPage.

(** ** Time, bounds and chains without an end *)

Section Iteration.

Variable json_loads : string -> option JSON.
Variable py_repr : JSON -> string.

Local Abbreviation next := (gen_next json_loads).
Local Abbreviation pull := (drain json_loads).
Local Abbreviation collect := (comprehension json_loads).
Local Abbreviation items_of :=
  (fun page items => bind_result (Json.getitem page "items") Json.iterate = Ok items).
Local Abbreviation collection_fetchers :=
  [ (fun fuel id extend =>
       get_album_uncached json_loads py_repr fuel (VStr id) (VBool extend),
     "albums", "tracks");
    (get_playlist json_loads py_repr, "playlists", "tracks");
    (get_show json_loads py_repr, "shows", "episodes") ].

(** The pauses of a generator that is drained: one after each page it had
    yielded, the last one included. *)
Lemma drain_clock fuel : forall g st pages g' st',
  (forall reqs req r dt, server (world st) reqs req = Replied r dt -> 0 <= dt) ->
  pull fuel g st = Some (pages, Ok tt, g', st') ->
  server (world st') = server (world st)
  /\ clock (world st)
     + EXTEND_TRACK_COLLECTION_WAIT_TIME
       * (Z.of_nat (length pages)
          + match g with GenSuspended _ => 1 | _ => 0 end)
     <= clock (world st').
Proof.
  unfold EXTEND_TRACK_COLLECTION_WAIT_TIME.
  induction fuel as [|fuel IH]; intros g st pages g' st' Hsrv; cbn [drain];
    [discriminate|].
  assert (Hloop : forall next_url st0 k,
            server (world st0) = server (world st) ->
            match gen_loop json_loads next_url st0 with
            | (Ok None, g1, st1) => Some ([], Ok tt, g1, st1)
            | (Ok (Some page), g1, st1) =>
                match pull fuel g1 st1 with
                | Some (ps, r, g2, st2) => Some (page :: ps, r, g2, st2)
                | None => None
                end
            | (Raise e, g1, st1) => Some ([], Raise e, g1, st1)
            end = Some (pages, Ok tt, g', st') ->
            clock (world st) + k <= clock (world st0) ->
            server (world st') = server (world st)
            /\ clock (world st) + k + 500 * Z.of_nat (length pages)
               <= clock (world st')).
  { intros next_url st0 k Hs0.
    destruct (gen_loop json_loads next_url st0) as [[[[page|]|e] g1] st1] eqn:El;
      [| |discriminate].
    - destruct (gen_loop_yield json_loads _ _ _ _ _ El)
        as (u & r & dt & -> & Ha & _ & _ & -> & ->).
      assert (Hdt : 0 <= dt).
      { unfold answer in Ha. rewrite Hs0 in Ha. exact (Hsrv _ _ _ _ Ha). }
      destruct (pull fuel _ _) as [[[[ps r0] g2] st2]|] eqn:Ep; [|discriminate].
      intros [= <- -> <- <-] Hk.
      assert (Hsrv1 : forall reqs req r1 dt1,
                server (world (after_reply st0 (request_of st0 GET u None) r dt))
                       reqs req = Replied r1 dt1 -> 0 <= dt1).
      { cbn [after_reply world record_request server]. rewrite Hs0. exact Hsrv. }
      destruct (IH _ _ _ _ _ Hsrv1 Ep) as [H1 H2].
      cbn [after_reply world record_request server clock] in H1, H2.
      split; [congruence|]. cbn [length]. lia.
    - destruct (gen_loop_stop json_loads _ _ _ _ El) as (_ & _ & ->).
      intros [= <- <- <-] Hk. split; [exact Hs0|]. cbn [length]; lia. }
  destruct g as [tc mt|ec|]; cbn [gen_next].
  - destruct (bind_result _ _) as [next_url|e]; [|discriminate].
    intros H. destruct (Hloop next_url st 0 eq_refl H ltac:(lia)) as [H1 H2].
    split; [exact H1|lia].
  - destruct (Json.getitem ec "next") as [next_url|e]; [|discriminate].
    intros H.
    destruct (Hloop next_url (snd (sleep EXTEND_TRACK_COLLECTION_WAIT_TIME st)) 500
                eq_refl H (Z.le_refl _)) as [H1 H2].
    split; [exact H1|lia].
  - intros [= <- <- <-]. split; [reflexivity|]. cbn [length]; lia.
Qed.

(** X25.  Following a collection takes time: when no answer of the service
    takes a negative time, draining the extender over [n] further pages
    moves the clock forward by at least [n] times the waiting time of half a
    second. *)
Theorem extension_takes_time fuel track_collection media_type st pages g' st' :
  (forall reqs req r dt, server (world st) reqs req = Replied r dt -> 0 <= dt) ->
  pull fuel (extend_track_collection track_collection media_type) st
  = Some (pages, Ok tt, g', st') ->
  clock (world st) + EXTEND_TRACK_COLLECTION_WAIT_TIME * Z.of_nat (length pages)
  <= clock (world st').
Proof.
  intros Hsrv Hp.
  destruct (drain_clock fuel _ st pages g' st' Hsrv Hp) as [_ H].
  unfold extend_track_collection in H. now rewrite Z.add_0_r in H.
Qed.

(** X27.  The extender has no guard against a chain without an end: in
    front of a service that answers every request with one page that has a
    [next], the iteration over the pages does not end, whatever the bound on
    the number of pages, and neither does the list comprehension of the
    fetchers of collections. *)
Theorem endless_chain r dt page u items :
  check_response r = Ok tt ->
  json_loads (body r) = Some page ->
  Json.getitem page "next" = Ok (JStr u) ->
  items_of page items ->
  forall fuel st,
    (forall reqs req, server (world st) reqs req = Replied r dt) ->
    (forall acc,
       pull fuel (GenSuspended page) st = None
       /\ collect fuel (GenSuspended page) acc st = None)
    /\ (forall track_collection media_type v acc,
          bind_result (Json.getitem track_collection media_type)
                      (fun c => Json.getitem c "next") = Ok (JStr v) ->
          pull fuel (extend_track_collection track_collection media_type) st = None
          /\ collect fuel (extend_track_collection track_collection media_type) acc st
             = None).
Proof.
  intros Hok Hj Hn Hit. apply check_response_success in Hok.
  assert (Hstep : forall v st,
            (forall reqs req, server (world st) reqs req = Replied r dt) ->
            gen_loop json_loads (JStr v) st
            = (Ok (Some page), GenSuspended page,
               after_reply st (request_of st GET v None) r dt)).
  { intros v st Hsrv. apply gen_loop_page; [apply Hsrv|exact Hok|exact Hj]. }
  assert (Hsusp : forall fuel st acc,
            (forall reqs req, server (world st) reqs req = Replied r dt) ->
            pull fuel (GenSuspended page) st = None
            /\ collect fuel (GenSuspended page) acc st = None).
  { induction fuel as [|fuel IH]; intros st acc Hsrv; [now split|].
    cbn [drain comprehension gen_next]. rewrite Hn, Hstep by exact Hsrv.
    rewrite Hit.
    destruct (IH (after_reply (snd (sleep EXTEND_TRACK_COLLECTION_WAIT_TIME st))
                    (request_of (snd (sleep EXTEND_TRACK_COLLECTION_WAIT_TIME st))
                       GET u None) r dt)
                 (acc ++ items) Hsrv) as [-> ->].
    now split. }
  intros fuel st Hsrv. split; [intros acc; now apply Hsusp|].
  intros tc mt v acc Hv. unfold extend_track_collection.
  destruct fuel as [|fuel]; [now split|].
  cbn [drain comprehension gen_next]. rewrite Hv, Hstep by exact Hsrv. rewrite Hit.
  destruct (Hsusp fuel (after_reply st (request_of st GET v None) r dt)
              (acc ++ items) Hsrv) as [-> ->].
  now split.
Qed.

End Iteration.

(** ** The cache of [get_album] over the life of the process *)






Section CacheClaims.

Variable json_loads : string -> option JSON.
Variable py_repr : JSON -> string.

Local Abbreviation call := (get_album json_loads py_repr).
Local Abbreviation ensure_valid := (_refresh_session_auth json_loads py_repr).
Local Abbreviation next := (gen_next json_loads).
Local Abbreviation default_call := (fun id => mkCall [VStr id] []).
Local Abbreviation explicit_call := (fun id => mkCall [VStr id; VBool true] []).




(** C7 (as amended).  A call of [get_album] whose arguments have an entry
    in the cache returns the stored value and leaves the world and the
    session as they are: no request is sent.  This is the case for a second
    call with the same arguments right after the first, and after up to 127
    further calls of [get_album], whatever their arguments and whatever else
    the process does between them: [ensure_valid], [get_home_page], every
    other fetcher and the extender leave the cache as it is. *)
Theorem cache_hit :
  (forall fuel c st v,
     cache_lookup c (get_album_cache st) = Some v ->
     exists st', call fuel c st = Some (Ok v, st')
                 /\ world st' = world st /\ self st' = self st
                 /\ cache_lookup c (get_album_cache st') = Some v)
  /\ (forall fuel fuel' c st v st1,
        call fuel c st = Some (Ok v, st1) ->
        exists st2, call fuel' c st1 = Some (Ok v, st2)
                    /\ world st2 = world st1 /\ self st2 = self st1)
  /\ (forall fuel fuel' c st v st1 n st2,
        (length (get_album_cache st) <= maxsize)%nat ->
        call fuel c st = Some (Ok v, st1) ->
        calls json_loads py_repr n st1 st2 ->
        (n <= 127)%nat ->
        exists st3, call fuel' c st2 = Some (Ok v, st3)
                    /\ world st3 = world st2 /\ self st3 = self st2)
  /\ (forall st,
        get_album_cache (snd (ensure_valid st)) = get_album_cache st
        /\ get_album_cache (snd (get_home_page st)) = get_album_cache st
        /\ (forall gid media_type track_id episode_id file_id c,
              In c [ get_gid_metadata json_loads py_repr gid media_type;
                     get_lyrics json_loads py_repr track_id;
                     get_track json_loads py_repr track_id;
                     get_track_credits json_loads py_repr track_id;
                     get_episode json_loads py_repr episode_id;
                     get_stream_urls json_loads py_repr file_id ] ->
              get_album_cache (snd (c st)) = get_album_cache st)
        /\ (forall file_id challenge,
              get_album_cache
                (snd (get_playplay_license json_loads py_repr file_id challenge st))
              = get_album_cache st)
        /\ (forall f fuel id extend r st',
              In f [ get_playlist json_loads py_repr; get_show json_loads py_repr ] ->
              f fuel id extend st = Some (r, st') ->
              get_album_cache st' = get_album_cache st)
        /\ (forall g, get_album_cache (snd (next g st)) = get_album_cache st)).
Proof.
  assert (Hc : forall st st', kept st st' -> get_album_cache st' = get_album_cache st).
  { intros st st' (_ & _ & H & _); exact H. }
  split; [|split; [|split]].
  - intros fuel c st v H.
    rewrite (get_album_hit json_loads py_repr fuel c st v H).
    eexists; split; [reflexivity|]; repeat split.
    apply cache_lookup_touch.
  - intros fuel fuel' c st v st1 H.
    apply get_album_stores in H.
    rewrite (get_album_hit json_loads py_repr fuel' c st1 v H).
    eexists; split; [reflexivity|]; split; reflexivity.
  - intros fuel fuel' c st v st1 n st2 Hlen Hk Hcalls Hn.
    pose proof (get_album_recent json_loads py_repr fuel c st v st1 Hk) as Hr.
    pose proof (get_album_length json_loads py_repr fuel c st _ st1 Hlen Hk) as Hlen1.
    destruct (calls_recent json_loads py_repr n st1 st2 Hcalls c v 0%nat Hr Hlen1)
      as [Hr2 _]; [lia|].
    apply recent_lookup in Hr2.
    rewrite (get_album_hit json_loads py_repr fuel' c st2 v Hr2).
    eexists; repeat split.
  - intros st. split; [|split; [|split; [|split; [|split]]]].
    + apply Hc. exact (proj1 (ensure_valid_kept json_loads py_repr st)).
    + apply Hc. exact (proj1 (proj2 (get_home_page_headers st))).
    + intros gid media_type track_id episode_id file_id c Hin. apply Hc.
      cbn [In] in Hin.
      destruct Hin as [<-|[<-|Hin]];
        [apply plain_fetch_kept|apply get_lyrics_kept|].
      repeat (destruct Hin as [<-|Hin]; [apply plain_fetch_kept|]). destruct Hin.
    + intros file_id challenge. apply Hc, get_playplay_license_kept.
    + intros f fuel id extend r st' Hin. cbn [In] in Hin.
      destruct Hin as [<-|[<-|[]]]; intros H; apply Hc;
        exact (get_collection_kept json_loads py_repr _ _ _ _ _ _ _ _ H).
    + intros g. apply Hc, next_kept.
Qed.


End CacheClaims.

(** ** The properties on the small world *)

Module Instances.

Import Example.

(** Closed goals are settled by evaluation: an equation by converting its
    left side to its right side, anything else on the evaluated goal. *)
Local Ltac compute_it :=
  lazymatch goal with
  | |- ?x = ?y => vm_cast_no_check (@eq_refl _ y)
  | |- ?x <> ?y =>
      let H := fresh in intro H; vm_compute in H; discriminate H
  | |- (?n <= ?m)%nat => apply Nat.leb_le; vm_cast_no_check (@eq_refl bool true)
  end.

(** [start] is the object that the constructor builds. *)
Lemma start_built :
  option_map self built_state = Some (self start)
  /\ option_map get_album_cache built_state = Some []
  /\ sent (snd built) = sent (world start)
  /\ clock (snd built) = clock (world start).
Proof. repeat split; compute_it. Qed.

(** The token of [start] expires at 1000. *)
Lemma start_expiry t : token_expiry (self (at_time t start)) = Ok 1000.
Proof. compute_it. Qed.

(** Before 1000 the token of [start] is valid. *)
Lemma start_valid t :
  t < 1000 ->
  _refresh_session_auth json_loads py_repr (at_time t start)
  = (Ok tt, at_time t start).
Proof.
  intros Ht. rewrite (ensure_valid_cases _ _ _ 1000 (start_expiry t)).
  change (clock (world (at_time t start))) with t.
  destruct (Z.ltb_spec t 1000); [reflexivity|lia].
Qed.

Lemma after_spec c st :
  match get_album json_loads py_repr 3 c st with
  | Some (_, st') => after c st = st'
  | None => after c st = st
  end.
Proof. unfold after; now destruct (get_album json_loads py_repr 3 c st) as [[]|]. Qed.


(** C8 (as amended) on a landing page without any blob, and on one with the
    session blob only. *)
Lemma bootstrap_missing_blob_witness :
  (exists e st',
     _set_session_auth json_loads py_repr
       (with_server (serve_text BARE_PAGE) start) = (Raise e, st')
     /\ e = AttributeError
     /\ authorization st' = authorization (with_server (serve_text BARE_PAGE) start))
  /\ (exists e st',
        _set_session_auth json_loads py_repr
          (with_server (serve_text SESSION_ONLY_PAGE) start) = (Raise e, st')
        /\ e = AttributeError
        /\ session_info (self st') = session_2).
Proof.
  split.
  - pose (st := with_server (serve_text BARE_PAGE) start).
    assert (Ha : answer st (home_request st) = Replied (mkResponse 200 BARE_PAGE []) 0)
      by reflexivity.
    assert (Hs : re.search (script_tag "session") SCRIPT_END
                   (body (mkResponse 200 BARE_PAGE [])) = None) by compute_it.
    destruct (bootstrap_missing_blob json_loads py_repr st _ _ Ha eq_refl (or_introl Hs))
      as (e & st' & Hb & _ & Hau & Hmiss & _).
    destruct (Hmiss Hs) as [He _].
    exists e, st'; split; [exact Hb|]; split; [exact He|exact Hau].
  - pose (st := with_server (serve_text SESSION_ONLY_PAGE) start).
    assert (Ha : answer st (home_request st)
                 = Replied (mkResponse 200 SESSION_ONLY_PAGE []) 0) by reflexivity.
    assert (Hs : re.search (script_tag "session") SCRIPT_END
                   (body (mkResponse 200 SESSION_ONLY_PAGE [])) = Some SESSION_2)
      by compute_it.
    assert (Hc : re.search (script_tag "config") SCRIPT_END
                   (body (mkResponse 200 SESSION_ONLY_PAGE [])) = None) by compute_it.
    assert (Hj : json_loads SESSION_2 = Some session_2) by compute_it.
    destruct (bootstrap_missing_blob json_loads py_repr st _ _ Ha eq_refl (or_intror Hc))
      as (e & st' & Hb & _ & _ & _ & Hblob).
    specialize (Hblob SESSION_2 Hs). rewrite Hj in Hblob. destruct Hblob as [He Hst].
    exists e, st'; split; [exact Hb|]; split; [exact He|].
    rewrite Hst; reflexivity.
Defined.

(** C8 (as stated) fails: on a landing page without the blobs the bootstrap
    raises [AttributeError], which is no condition of the bootstrap's own. *)
Lemma bootstrap_raises_attribute_error :
  re.search (script_tag "session") SCRIPT_END BARE_PAGE = None
  /\ fst (_set_session_auth json_loads py_repr
            (with_server (serve_text BARE_PAGE) start))
     = Raise AttributeError
  /\ class_name AttributeError <> "AuthenticationBootstrapFailed".
Proof. repeat split; compute_it. Qed.



(** C5 at time 500: the service has neither lyrics for the track [t1] nor a
    track [zz]. *)
Lemma not_found_lyrics_and_track_witness :
  fst (get_lyrics json_loads py_repr "t1" (at_time 500 start)) = Ok JNull
  /\ fst (get_track json_loads py_repr "zz" (at_time 500 start))
     = Raise (RemoteRequestFailed 404 "not found").
Proof.
  assert (Hv : _refresh_session_auth json_loads py_repr (at_time 500 start)
               = (Ok tt, at_time 500 start)) by (apply start_valid; lia).
  pose (st := at_time 500 start).
  assert (Hl : answer st (request_of st GET (LYRICS_API_URL "t1") None)
               = Replied (mkResponse 404 "not found" []) 0) by compute_it.
  assert (Ht : answer st (request_of st GET (METADATA_API_URL "tracks" "zz") None)
               = Replied (mkResponse 404 "not found" []) 0) by compute_it.
  split.
  - destruct (not_found_lyrics_and_track json_loads py_repr _ _ "t1"
                (mkResponse 404 "not found" []) 0 Hv eq_refl) as [H _].
    rewrite (H Hl); reflexivity.
  - destruct (not_found_lyrics_and_track json_loads py_repr _ _ "zz"
                (mkResponse 404 "not found" []) 0 Hv eq_refl) as [_ H].
    rewrite (H Ht); reflexivity.
Defined.

(** C6 on the album [a1]: its first page points to a second one, which
    points to a third one, which has no [next].  The extender yields the
    second and the third page.  On a first page that points to a page the
    service does not have, the extender requests that page once, raises,
    and is finished. *)
Lemma extender_pages_witness :
  (exists st',
     drain json_loads 3 (extend_track_collection album "tracks") (at_time 900 start)
     = Some ([page_2; page_3], Ok tt, GenDone, st')
     /\ length (sent (world st'))
        = (length (sent (world (at_time 900 start))) + 2)%nat)
  /\ (exists st',
        drain json_loads 3 (extend_track_collection dangling "tracks")
              (at_time 900 start)
        = Some ([], Raise (RemoteRequestFailed 404 "not found"), GenDone, st')
        /\ length (sent (world st'))
           = (length (sent (world (at_time 900 start))) + 0 + 1)%nat
        /\ gen_next json_loads GenDone st' = (Ok None, GenDone, st')).
Proof.
  split.
  - eexists.
    apply (proj1 (extender_pages json_loads) album "tracks" (JStr PAGE_2_URL)
             (at_time 900 start) [page_2; page_3] _ 3%nat);
      [reflexivity| |cbn [length]; lia].
    eapply (chain_page json_loads _ PAGE_2_URL (mkResponse 200 PAGE_2 []) 0
              page_2 (JStr PAGE_3_URL)); [compute_it..|].
    eapply (chain_page json_loads _ PAGE_3_URL (mkResponse 200 PAGE_3 []) 0
              page_3 JNull); [compute_it..|].
    apply chain_end.
  - pose (st := at_time 900 start).
    pose (u := "https://api.spotify.com/v1/albums/gone/tracks").
    assert (Ha : answer st (request_of st GET u None)
                 = Replied (mkResponse 404 "not found" []) 0) by compute_it.
    assert (Hc : check_response (mkResponse 404 "not found" [])
                 = Raise (RemoteRequestFailed 404 "not found")) by reflexivity.
    pose proof (broken_here json_loads st u _ _
                  (fails_status json_loads st u _ _ _ Ha Hc)) as Hb.
    destruct (proj1 (proj2 (extender_pages json_loads)) dangling "tracks" (JStr u)
                st [] _ _ 3%nat eq_refl Hb ltac:(cbn [length]; lia)) as [Hd Hl].
    eexists. split; [exact Hd|]. split; [exact Hl|].
    destruct (proj2 (proj2 (proj2 (extender_pages json_loads))) _ _ _ _ _ _ _ Hd)
      as (_ & _ & Hn).
    apply Hn.
Defined.

(** C7 (as amended): [get_album("x", False)], then the same call for
    another album, then the first call again. *)
Lemma cache_hit_witness :
  match get_album json_loads py_repr 3 (plain_call "x") (at_time 10 start) with
  | Some (Ok v, st1) =>
      match get_album json_loads py_repr 3 (plain_call "xx") st1 with
      | Some (_, st2) =>
          exists st3,
            get_album json_loads py_repr 3 (plain_call "x") st2 = Some (Ok v, st3)
            /\ world st3 = world st2 /\ self st3 = self st2
      | None => False
      end
  | _ => False
  end.
Proof.
  assert (E0 : returned (plain_call "x") (at_time 10 start) = Some (Ok (JObj [])))
    by compute_it.
  assert (E1 : returned (plain_call "xx") (after (plain_call "x") (at_time 10 start))
               <> None) by compute_it.
  pose proof (after_spec (plain_call "x") (at_time 10 start)) as A.
  unfold returned in E0.
  destruct (get_album json_loads py_repr 3 (plain_call "x") (at_time 10 start))
    as [[[v|e] st1]|] eqn:E; try discriminate E0.
  rewrite A in E1. unfold returned in E1.
  destruct (get_album json_loads py_repr 3 (plain_call "xx") st1)
    as [[r2 st2]|] eqn:E2; [|apply E1; reflexivity].
  apply (proj1 (proj2 (proj2 (cache_hit json_loads py_repr)))
           3%nat 3%nat (plain_call "x") (at_time 10 start) v st1 1%nat st2).
  - cbn [at_time start get_album_cache length]. apply Nat.le_0_l.
  - exact E.
  - exact (calls_get_album json_loads py_repr 0 3 (plain_call "xx") r2 st1 st2 st2
             E2 (calls_none json_loads py_repr st2)).
  - apply Nat.leb_le. reflexivity.
Defined.

(** C7 (as stated) fails: between two calls [get_album("x", False)], 128
    calls for other albums fill the cache; the second call returns the
    value again, and sends a request for it. *)
Lemma cache_entry_evicted :
  let c := plain_call (nth_id 0) in
  let st1 := after c (at_time 10 start) in
  let st2 := fetch_albums (seq 1 128) st1 in
  returned c (at_time 10 start) = Some (Ok (JObj []))
  /\ returned c st2 = Some (Ok (JObj []))
  /\ length (sent (world st1)) = 2%nat
  /\ length (sent (world st2)) = 130%nat
  /\ map url (skipn 130 (sent (world (after c st2))))
     = [METADATA_API_URL "albums" "x"].
Proof. repeat split; compute_it. Qed.





(** C1 fails on the code: a step of the extender never looks at the expiry
    of the token nor renews it.  [get_album("a1")], called at time 900 with a
    token that expires at 1000, requests the third page at time 1400 with the
    expired token, and no landing page in between. *)
Theorem extender_never_renews :
  (forall loads g st,
     session_info (self (snd (gen_next loads g st))) = session_info (self st)
     /\ headers (session (self (snd (gen_next loads g st))))
        = headers (session (self st)))
  /\ token_expiry (self (at_time 900 start)) = Ok 1000
  /\ returned (mkCall [VStr "a1"] []) (at_time 900 start)
     = Some (Ok (JObj [("name", JStr "A");
                       ("tracks",
                        JObj [("items", JArr [JNum 1; JNum 2; JNum 3]);
                              ("next", JStr PAGE_2_URL)])]))
  /\ map summary
         (skipn 1 (sent (world (after (mkCall [VStr "a1"] []) (at_time 900 start)))))
     = [ (METADATA_API_URL "albums" "a1", 900, Some ("Authorization", "Bearer tok-1"));
         (PAGE_2_URL, 900, Some ("Authorization", "Bearer tok-1"));
         (PAGE_3_URL, 1400, Some ("Authorization", "Bearer tok-1")) ].
Proof.
  split; [exact next_keeps_session|]. repeat split; compute_it.
Qed.

End Instances.

(** ** The further properties on the small world *)

Module FurtherInstances.

Import Example.

Local Ltac evaluate :=
  lazymatch goal with
  | |- ?x = ?y => vm_cast_no_check (@eq_refl _ y)
  | |- ?x <> ?y =>
      let H := fresh in intro H; vm_compute in H; discriminate H
  | |- (?n <= ?m)%nat => apply Nat.leb_le; vm_cast_no_check (@eq_refl bool true)
  end.

(** A service that has nothing. *)
Local Abbreviation nothing :=
  (fun (_ : list Request) (_ : Request) => Replied (mkResponse 404 "not found" []) 0).


(** X8 in front of a service that has no landing page. *)
Lemma constructor_failure_witness :
  match __init__ json_loads py_repr None fresh_session cookie_file
                 (mkWorld 0 [] nothing) with
  | (Raise _, w') => length (sent w') = 1%nat
  | (Ok _, _) => False
  end.
Proof.
  assert (E0 : match fst (__init__ json_loads py_repr None fresh_session cookie_file
                            (mkWorld 0 [] nothing))
               with Ok _ => false | Raise _ => true end = true) by evaluate.
  destruct (__init__ json_loads py_repr None fresh_session cookie_file
              (mkWorld 0 [] nothing)) as [[st|e] w'] eqn:E; [discriminate E0|].
  destruct (constructor_failure json_loads py_repr _ _ _ _ _ _ E)
    as [(p & Hp & _)|(req & Hs & _)]; [discriminate Hp|].
  rewrite Hs; reflexivity.
Defined.

(** X9: at time 1500 the landing page has a new session blob and no
    configuration; the bootstrap fails, and the track is then requested with
    the token that expired at 1000. *)
Lemma failed_bootstrap_keeps_token_witness :
  let st := with_server (serve_text SESSION_ONLY_PAGE) (at_time 1500 start) in
  let st1 := snd (_set_session_auth json_loads py_repr st) in
  authorization st1 = Some ("Authorization", "Bearer tok-1")
  /\ exists req,
       sent (world (snd (get_track json_loads py_repr "t1" st1)))
       = sent (world st1) ++ [req]
       /\ request_headers req !! "authorization"
          = Some ("Authorization", "Bearer tok-1").
Proof.
  intros st st1.
  assert (Hfst : fst (_set_session_auth json_loads py_repr st) = Raise AttributeError)
    by evaluate.
  assert (Hb : _set_session_auth json_loads py_repr st = (Raise AttributeError, st1)).
  { subst st1. destruct (_set_session_auth json_loads py_repr st) as [r s].
    cbn [fst snd] in *. now rewrite Hfst. }
  assert (He : token_expiry (self st1) = Ok 3601000) by evaluate.
  assert (Hc : clock (world st1) = 1500) by evaluate.
  assert (Ha : headers (session (self st)) !! "authorization"
               = Some ("Authorization", "Bearer tok-1")) by evaluate.
  destruct (failed_bootstrap_keeps_token json_loads py_repr st _ st1 Hb) as [Hh Hn].
  destruct (Hn 3601000 "t1" He ltac:(rewrite Hc; lia)) as (req & Hs & _ & Hr).
  split.
  - unfold authorization. rewrite Hh. exact Ha.
  - exists req. split; [exact Hs|]. rewrite Hr. exact Ha.
Defined.

(** X10 on an object whose session blob has no expiry. *)
Lemma renewal_failure_stops_fetchers_witness :
  let st := with_session_info (JObj []) start in
  get_track json_loads py_repr "t1" st
  = (Raise (KeyError "accessTokenExpirationTimestampMs"), st)
  /\ get_show json_loads py_repr 1 "s1" true st
     = Some (Raise (KeyError "accessTokenExpirationTimestampMs"), st).
Proof.
  intros st.
  assert (He : token_expiry (self st)
               = Raise (KeyError "accessTokenExpirationTimestampMs")) by reflexivity.
  pose proof (ensure_valid_raises json_loads py_repr st _ He) as Hv.
  destruct (renewal_failure_stops_fetchers json_loads py_repr st _ st Hv)
    as (_ & _ & Ht & _ & _ & _ & _ & Hs & _).
  split; [apply Ht|apply Hs].
Defined.

(** X11 at time 500. *)
Lemma playplay_license_post_witness :
  sent (world (snd (get_playplay_license json_loads py_repr "f1" "challenge"
                      (at_time 500 start))))
  = sent (world (at_time 500 start))
    ++ [request_of (at_time 500 start) POST (PLAYPLAY_LICENSE_API_URL "f1")
          (Some "challenge")].
Proof.
  assert (Hv : _refresh_session_auth json_loads py_repr (at_time 500 start)
               = (Ok tt, at_time 500 start)) by (apply Instances.start_valid; lia).
  exact (proj1 (proj2 (playplay_license_post json_loads py_repr _ _ "f1" "challenge" Hv))).
Defined.

(** X12 in front of a service that answers every request with the text
    [null]: [get_lyrics] returns [None], with no 404. *)
Lemma lyrics_none_cases_witness :
  let st := with_server (serve_text "null") (at_time 500 start) in
  let r := mkResponse 200 "null" [] in
  get_lyrics json_loads py_repr "t1" st
  = (Ok JNull, after_reply st (request_of st GET (LYRICS_API_URL "t1") None) r 0)
  /\ exists st1 r1 dt,
       answer st1 (request_of st1 GET (LYRICS_API_URL "t1") None) = Replied r1 dt
       /\ (status_code r1 = 404
           \/ (status_code r1 <> 404
               /\ check_response r1 = Ok tt
               /\ json_loads (body r1) = Some JNull)).
Proof.
  intros st r.
  assert (Hv : _refresh_session_auth json_loads py_repr st = (Ok tt, st)).
  { rewrite (ensure_valid_cases json_loads py_repr st 1000 eq_refl).
    change (clock (world st)) with 500. reflexivity. }
  assert (Ha : answer st (request_of st GET (LYRICS_API_URL "t1") None) = Replied r 0)
    by reflexivity.
  assert (E : get_lyrics json_loads py_repr "t1" st
              = (Ok JNull,
                 after_reply st (request_of st GET (LYRICS_API_URL "t1") None) r 0)).
  { rewrite (proj2 (lyrics_none_cases json_loads py_repr st "t1") st r 0 Hv Ha).
    reflexivity. }
  split; [exact E|].
  destruct (proj1 (lyrics_none_cases json_loads py_repr st "t1") _ E)
    as (st1 & r1 & dt & _ & H2 & _ & H4).
  exists st1, r1, dt. split; [exact H2|exact H4].
Defined.

(** X13 at time 500, for the track [t1]. *)
Lemma plain_fetchers_return_witness :
  exists st1 r dt,
    _refresh_session_auth json_loads py_repr (at_time 500 start) = (Ok tt, st1)
    /\ answer st1 (request_of st1 GET (METADATA_API_URL "tracks" "t1") None)
       = Replied r dt
    /\ json_loads (body r) = Some track.
Proof.
  assert (E0 : fst (get_track json_loads py_repr "t1" (at_time 500 start)) = Ok track)
    by evaluate.
  destruct (get_track json_loads py_repr "t1" (at_time 500 start)) as [res st'] eqn:E.
  cbn [fst] in E0; subst res.
  destruct (plain_fetchers_return json_loads py_repr "g" "m" "t1" "e" "f"
              (get_track json_loads py_repr "t1") (METADATA_API_URL "tracks" "t1")
              (at_time 500 start) track st')
    as (st1 & r & dt & H1 & H2 & _ & H3 & _);
    [right; left; reflexivity|exact E|].
  exists st1, r, dt; repeat split; assumption.
Defined.

(** X14 after the last page of the album [a1]. *)
Lemma extender_pause_witness :
  exists st',
    gen_next json_loads (GenSuspended page_3) (at_time 900 start)
    = (Ok None, GenDone, st')
    /\ clock (world st') = clock (world (at_time 900 start)) + 500
    /\ sent (world st') = sent (world (at_time 900 start)).
Proof.
  exact (proj1 (extender_pause json_loads (at_time 900 start)) page_3 eq_refl).
Defined.

(** The chain of pages of the album [a1] at time 900. *)
Lemma album_chain :
  exists st',
    page_chain json_loads
      (after_reply (at_time 900 start)
         (request_of (at_time 900 start) GET (METADATA_API_URL "albums" "a1") None)
         (mkResponse 200 ALBUM []) 0)
      (JStr PAGE_2_URL) [page_2; page_3] st'.
Proof.
  eexists.
  eapply (chain_page json_loads _ PAGE_2_URL (mkResponse 200 PAGE_2 []) 0
            page_2 (JStr PAGE_3_URL)); [evaluate..|].
  eapply (chain_page json_loads _ PAGE_3_URL (mkResponse 200 PAGE_3 []) 0
            page_3 JNull); [evaluate..|].
  apply chain_end.
Defined.

(** X15 on the album [a1]: three pages with one item each. *)
Lemma collection_extended_witness :
  exists st' result c',
    get_album_uncached json_loads py_repr 3 (VStr "a1") (VBool true) (at_time 900 start)
    = Some (Ok result, st')
    /\ Json.getitem result "tracks" = Ok c'
    /\ Json.getitem c' "items" = Ok (JArr [JNum 1; JNum 2; JNum 3]).
Proof.
  destruct album_chain as [st' Hch].
  assert (Hv : _refresh_session_auth json_loads py_repr (at_time 900 start)
               = (Ok tt, at_time 900 start)) by (apply Instances.start_valid; lia).
  assert (Ha : answer (at_time 900 start)
                 (request_of (at_time 900 start) GET (METADATA_API_URL "albums" "a1") None)
               = Replied (mkResponse 200 ALBUM []) 0) by evaluate.
  assert (Hj : json_loads (body (mkResponse 200 ALBUM [])) = Some album) by evaluate.
  destruct (collection_extended json_loads py_repr
              (fun fuel id extend =>
                 get_album_uncached json_loads py_repr fuel (VStr id) (VBool extend))
              "albums" "tracks" 3%nat "a1" (at_time 900 start) (at_time 900 start)
              (mkResponse 200 ALBUM []) 0 album
              (JObj [("items", JArr [JNum 1]); ("next", JStr PAGE_2_URL)])
              [JNum 1] (JStr PAGE_2_URL) [page_2; page_3] [[JNum 2]; [JNum 3]] st')
    as (result & c' & H1 & H2 & H3 & _);
    [left; reflexivity|exact Hv|exact Ha|reflexivity|exact Hj|reflexivity
    |reflexivity|reflexivity|exact Hch
    |repeat constructor|cbn [length]; lia|].
  exists st', result, c'. split; [exact H1|]. split; [exact H2|exact H3].
Defined.

(** X16 on the album [a1]. *)
Lemma collection_returns_witness :
  match get_album_uncached json_loads py_repr 3 (VStr "a1") (VBool true)
          (at_time 900 start) with
  | Some (Ok result, _) =>
      exists obj first itemss,
        result = with_items obj "tracks" (first ++ concat itemss)
  | _ => False
  end.
Proof.
  assert (E0 : match get_album_uncached json_loads py_repr 3 (VStr "a1") (VBool true)
                       (at_time 900 start) with
               | Some (Ok _, _) => true
               | _ => false
               end = true) by evaluate.
  destruct (get_album_uncached json_loads py_repr 3 (VStr "a1") (VBool true)
              (at_time 900 start)) as [[[result|e] st']|] eqn:E;
    try discriminate E0.
  destruct (collection_returns json_loads py_repr
              (fun fuel id extend =>
                 get_album_uncached json_loads py_repr fuel (VStr id) (VBool extend))
              "albums" "tracks" 3%nat "a1" (at_time 900 start) result st')
    as (st1 & r & dt & obj & c & first & next_url & pages & itemss & Hx);
    [left; reflexivity|exact E|].
  exists obj, first, itemss. apply Hx.
Defined.

(** X17 on an album whose first page is an empty object. *)
Lemma collection_first_page_witness :
  get_album_uncached json_loads py_repr 1 (VStr "x") (VBool true) (at_time 500 start)
  = Some (Raise (KeyError "tracks"),
          after_reply (at_time 500 start)
            (request_of (at_time 500 start) GET (METADATA_API_URL "albums" "x") None)
            (mkResponse 200 "{}" []) 0).
Proof.
  assert (Hv : _refresh_session_auth json_loads py_repr (at_time 500 start)
               = (Ok tt, at_time 500 start)) by (apply Instances.start_valid; lia).
  assert (Ha : answer (at_time 500 start)
                 (request_of (at_time 500 start) GET (METADATA_API_URL "albums" "x") None)
               = Replied (mkResponse 200 "{}" []) 0) by evaluate.
  assert (Hj : json_loads (body (mkResponse 200 "{}" [])) = Some (JObj [])) by evaluate.
  destruct (collection_first_page json_loads py_repr
              (fun fuel id extend =>
                 get_album_uncached json_loads py_repr fuel (VStr id) (VBool extend))
              "albums" "tracks" 1%nat "x" (at_time 500 start) (at_time 500 start)
              (mkResponse 200 "{}" []) 0 (JObj []))
    as (_ & H & _);
    [left; reflexivity|exact Hv|exact Ha|reflexivity|exact Hj|].
  exact (H (KeyError "tracks") eq_refl).
Defined.

(** X18 on an album that the service does not have. *)
Lemma failure_not_cached_witness :
  match get_album json_loads py_repr 3 (mkCall [VStr "zz"] []) (at_time 10 start) with
  | Some (Raise _, st1) =>
      get_album_cache st1 = get_album_cache (at_time 10 start)
      /\ cache_lookup (mkCall [VStr "zz"] []) (get_album_cache st1) = None
  | _ => False
  end.
Proof.
  assert (E0 : match get_album json_loads py_repr 3 (mkCall [VStr "zz"] [])
                       (at_time 10 start) with
               | Some (Raise _, _) => true
               | _ => false
               end = true) by evaluate.
  destruct (get_album json_loads py_repr 3 (mkCall [VStr "zz"] []) (at_time 10 start))
    as [[[v|e] st1]|] eqn:E; try discriminate E0.
  destruct (failure_not_cached json_loads py_repr _ _ _ _ _ E) as (H1 & H2 & _).
  split; assumption.
Defined.

(** The evaluations that the next witness rests on. *)
Lemma two_albums :
  returned (plain_call "x") (at_time 10 start) = Some (Ok (JObj []))
  /\ returned (plain_call "xx") (after (plain_call "x") (at_time 10 start)) <> None.
Proof. split; evaluate. Qed.

(** X19: the album [x], then the album [xx], then the album [x] again. *)
Lemma cache_entry_survives_witness :
  let st1 := after (plain_call "x") (at_time 10 start) in
  let st2 := after (plain_call "xx") st1 in
  exists st3,
    get_album json_loads py_repr 3 (plain_call "x") st2 = Some (Ok (JObj []), st3)
    /\ world st3 = world st2 /\ self st3 = self st2.
Proof.
  cbv zeta.
  generalize two_albums (Instances.after_spec (plain_call "x") (at_time 10 start)).
  unfold returned at 1.
  generalize (after (plain_call "x") (at_time 10 start)) as st1.
  intros st1 (R1 & R2) A1.
  destruct (get_album json_loads py_repr 3 (plain_call "x") (at_time 10 start))
    as [[[v|e] s1]|] eqn:E1; try discriminate R1.
  injection R1 as ->. subst s1.
  pose proof (Instances.after_spec (plain_call "xx") st1) as A2.
  unfold returned in R2.
  destruct (get_album json_loads py_repr 3 (plain_call "xx") st1)
    as [[r2 s2]|] eqn:E2; [clear R2|exfalso; apply R2; reflexivity].
  rewrite A2.
  apply (cache_entry_survives json_loads py_repr 3%nat 3%nat (plain_call "x") (JObj [])
           (at_time 10 start) st1 1%nat s2);
    [cbn [length at_time get_album_cache start]; unfold maxsize; lia
    |exact E1
    |exact (calls_get_album json_loads py_repr 0%nat 3%nat (plain_call "xx") r2 st1 s2 s2 E2
              (calls_none json_loads py_repr s2))
    |lia].
Defined.

(** X20: a call without arguments. *)
Lemma call_binding_witness :
  get_album json_loads py_repr 3 (mkCall [] []) start = Some (Raise TypeError, start).
Proof.
  apply (proj2 (call_binding json_loads py_repr) 3%nat (mkCall [] []) start TypeError);
    reflexivity.
Defined.

(** X21 on the bootstrap at time 1500. *)
Lemma bootstrap_reads_blobs_witness :
  let st := at_time 1500 start in
  let st' := snd (_set_session_auth json_loads py_repr st) in
  exists r dt,
    answer st (home_request st) = Replied r dt
    /\ check_response r = Ok tt
    /\ forall id stored,
         In (id, stored) [("session", session_info (self st'));
                          ("config", config_info (self st'))] ->
         exists pre blob post,
           first_match (script_tag id) SCRIPT_END (body r) pre blob post
           /\ json_loads blob = Some stored.
Proof.
  intros st st'.
  assert (Hfst : fst (_set_session_auth json_loads py_repr st) = Ok tt) by evaluate.
  assert (Hb : _set_session_auth json_loads py_repr st = (Ok tt, st')).
  { subst st'. destruct (_set_session_auth json_loads py_repr st) as [r s].
    cbn [fst snd] in *. now rewrite Hfst. }
  exact (proj1 (bootstrap_reads_blobs json_loads py_repr st st' Hb)).
Defined.

(** X22 at time 500. *)
Lemma home_page_plain_witness :
  match get_home_page (at_time 500 start) with
  | (Ok page, _) =>
      exists r dt,
        answer (at_time 500 start) (home_request (at_time 500 start)) = Replied r dt
        /\ check_response r = Ok tt
        /\ page = body r
  | (Raise _, _) => False
  end.
Proof.
  assert (E0 : match fst (get_home_page (at_time 500 start)) with
               | Ok _ => true
               | Raise _ => false
               end = true) by evaluate.
  destruct (get_home_page (at_time 500 start)) as [[page|e] st'] eqn:E;
    [|discriminate E0].
  destruct (home_page_plain (at_time 500 start)) as (_ & _ & _ & _ & H).
  exact (H page st' E).
Defined.

(** X23 at time 1500, for the track [t1]. *)
Lemma fetchers_frame_witness :
  kept (at_time 1500 start)
       (snd (get_track json_loads py_repr "t1" (at_time 1500 start))).
Proof.
  apply (proj1 (fetchers_frame json_loads py_repr (at_time 1500 start))
           "g" "m" "t1" "e" "f").
  right; left; reflexivity.
Defined.

(** X24 on the album [a1]. *)
Lemma comprehension_drains_witness :
  match drain json_loads 3 (extend_track_collection album "tracks")
          (at_time 900 start) with
  | Some (_, _, _, st') =>
      comprehension json_loads 3 (extend_track_collection album "tracks") [JNum 1]
        (at_time 900 start)
      = Some (Ok [JNum 1; JNum 2; JNum 3], st')
  | None => False
  end.
Proof.
  assert (E0 : match drain json_loads 3 (extend_track_collection album "tracks")
                       (at_time 900 start) with
               | Some (pages, r, _, _) => Some (pages, r)
               | None => None
               end = Some ([page_2; page_3], Ok tt)) by evaluate.
  destruct (drain json_loads 3 (extend_track_collection album "tracks")
              (at_time 900 start)) as [[[[pages r] g'] st']|] eqn:E;
    [|discriminate E0].
  injection E0 as -> ->.
  apply (comprehension_drains json_loads 3%nat _ _ _ _ _ _ [[JNum 2]; [JNum 3]] [JNum 1] E).
  repeat constructor.
Defined.

(** The service of the small world answers at once. *)
Lemma serve_at_once reqs req r dt : serve reqs req = Replied r dt -> 0 <= dt.
Proof.
  unfold serve, ok. intros H.
  repeat match type of H with
         | context [if ?b then _ else _] => destruct b
         end;
    injection H as _ <-; lia.
Qed.

(** X25 on the album [a1]: two further pages, one second. *)
Lemma extension_takes_time_witness :
  match drain json_loads 3 (extend_track_collection album "tracks")
          (at_time 900 start) with
  | Some (_, _, _, st') => 900 + 1000 <= clock (world st')
  | None => False
  end.
Proof.
  assert (E0 : match drain json_loads 3 (extend_track_collection album "tracks")
                       (at_time 900 start) with
               | Some (pages, r, _, _) => Some (pages, r)
               | None => None
               end = Some ([page_2; page_3], Ok tt)) by evaluate.
  destruct (drain json_loads 3 (extend_track_collection album "tracks")
              (at_time 900 start)) as [[[[pages r] g'] st']|] eqn:E;
    [|discriminate E0].
  injection E0 as -> ->.
  exact (extension_takes_time json_loads 3%nat album "tracks" (at_time 900 start)
           [page_2; page_3] g' st' serve_at_once E).
Defined.

(** X27 in front of a service that answers every request with the second
    page of the album [a1]. *)
Lemma endless_chain_witness :
  drain json_loads 50 (GenSuspended page_2)
    (with_server (serve_text PAGE_2) (at_time 900 start))
  = None.
Proof.
  assert (Hj : json_loads (body (mkResponse 200 PAGE_2 [])) = Some page_2) by evaluate.
  apply (proj1 (endless_chain json_loads (mkResponse 200 PAGE_2 []) 0 page_2
                  PAGE_3_URL [JNum 2] eq_refl Hj eq_refl eq_refl 50%nat
                  (with_server (serve_text PAGE_2) (at_time 900 start))
                  (fun _ _ => eq_refl))
               []).
Defined.

End FurtherInstances.
